(** * ProxyServer: the LRU cache, the worker pool and the proxy pipeline

    A shallow embedding of the Go sources

    - [cache/cache.go]   (package [cache]: [LRUCache] and its statistics),
    - the worker pool    (package [proxy]: [WorkerPool]),
    - the proxy handler  (package [proxy]: [ProxyHandler]),
    - the configuration  (package [config]: [Validate], [ParseFlags]),
    - [proxy/middleware.go] (the rate limiter and the request counter),

    followed by the properties of the specification that are checked
    against them.

    Conventions.  A Go [string] and a Go [[]byte] are both sequences of
    8-bit bytes and are modelled by [string] (a list of [ascii], each an
    8-bit byte).  Go [int], [int64] and [time.Duration] are 64-bit signed
    integers, modelled by [Z] with the two's-complement wrap-around
    [wrap64] written at every arithmetic operation of the source.  A
    [time.Time] is modelled by the number of nanoseconds since the zero
    instant, so that the zero [time.Time] is [0]. *)

From Stdlib Require Import ZArith QArith Qcanon Ascii String DecimalString Lia.
From Stdlib Require DecimalPos.
From stdpp Require Import gmap strings list fin_maps numbers functions sorting.

Local Open Scope string_scope.
Local Open Scope Z_scope.

(** ** Machine integers *)

Definition minInt64 : Z := - 2 ^ 63.
Definition maxInt64 : Z := 2 ^ 63 - 1.

(** Two's-complement reduction of a mathematical integer to [int64]. *)
Definition wrap64 (z : Z) : Z := (z + 2 ^ 63) mod 2 ^ 64 - 2 ^ 63.

Definition inInt64 (z : Z) : Prop := minInt64 <= z <= maxInt64.

(** Saturation to the [int64] range, as done by [Time.Sub]. *)
Definition clamp64 (z : Z) : Z :=
  if z <? minInt64 then minInt64
  else if maxInt64 <? z then maxInt64 else z.

(** ** Time *)

Definition Time := Z.
Definition Duration := Z.

Definition Nanosecond : Duration := 1.
Definition Millisecond : Duration := 1000000.
Definition Second : Duration := 1000000000.

(** [t.IsZero()] *)
Definition Time_IsZero (t : Time) : bool := t =? 0.
(** [t.After(u)] *)
Definition Time_After (t u : Time) : bool := u <? t.
(** [t.Add(d)] *)
Definition Time_Add (t : Time) (d : Duration) : Time := t + d.
(** [t.Sub(u)]: the difference, saturated to the range of [Duration]. *)
Definition Time_Sub (t u : Time) : Duration := clamp64 (t - u).
(** [time.Until(t)], with the reading [now] of the clock made explicit. *)
Definition time_Until (now t : Time) : Duration := Time_Sub t now.

(** ** Package cache *)

Module cache.

(** [CacheItem] *)
Record CacheItem := mkCacheItem {
  Key : string;
  Value : string;
  Size : Z;
  CreatedAt : Time;
  ExpiresAt : Time
}.

(** A [*list.Element] is an address; [elemValue] below is the heap that
    holds the [Value] field of every element allocated so far. *)
Abbreviation Element := nat.

(** [LRUCache].  [evictionList] is the [container/list] list read from
    front (most recently used) to back; [nextElem] is the next address
    handed out by [PushFront]. *)
Record LRUCache := mkLRUCache {
  capacity : Z;
  evictions : Z;
  hits : Z;
  misses : Z;
  totalSize : Z;
  items : gmap string Element;
  evictionList : list Element;
  elemValue : Element -> CacheItem;
  nextElem : Element
}.

(** [CacheStats].  [HitRate] is a [float64] in the source; the model
    keeps the exact quotient. *)
Record CacheStats := mkCacheStats {
  stSize : Z;
  stCapacity : Z;
  stHits : Z;
  stMisses : Z;
  stHitRate : Qc;
  stEvictions : Z;
  stAvgSize : Z
}.

(** *** container/list *)

(** [l.Len()] *)
Definition list_Len (l : list Element) : Z := Z.of_nat (length l).

(** [l.Remove(e)]: unlinks [e] when it belongs to [l], else nothing. *)
Definition list_Remove (e : Element) (l : list Element) : list Element :=
  filter (λ x, x ≠ e) l.

(** [l.MoveToFront(e)]: nothing when [e] is not an element of [l]. *)
Definition list_MoveToFront (e : Element) (l : list Element) : list Element :=
  if decide (e ∈ l) then e :: list_Remove e l else l.

(** [l.Back()] *)
Definition list_Back (l : list Element) : option Element := list.last l.

(** *** Field updates *)

Definition incr64 (z : Z) : Z := wrap64 (z + 1).

Definition with_misses (f : Z -> Z) (c : LRUCache) : LRUCache :=
  mkLRUCache (capacity c) (evictions c) (hits c) (f (misses c)) (totalSize c)
             (items c) (evictionList c) (elemValue c) (nextElem c).

Definition with_hits (f : Z -> Z) (c : LRUCache) : LRUCache :=
  mkLRUCache (capacity c) (evictions c) (f (hits c)) (misses c) (totalSize c)
             (items c) (evictionList c) (elemValue c) (nextElem c).

Definition with_evictionList (f : list Element -> list Element) (c : LRUCache)
  : LRUCache :=
  mkLRUCache (capacity c) (evictions c) (hits c) (misses c) (totalSize c)
             (items c) (f (evictionList c)) (elemValue c) (nextElem c).

(** *** The cache operations *)

(** [NewLRUCache] *)
Definition NewLRUCache (capacity : Z) : LRUCache :=
  mkLRUCache capacity 0 0 0 0 ∅ [] (λ _, mkCacheItem "" "" 0 0 0) 0%nat.

(** [evictElement] *)
Definition evictElement (c : LRUCache) (element : Element) : LRUCache * bool :=
  let item := elemValue c element in
  (mkLRUCache (capacity c) (incr64 (evictions c)) (hits c) (misses c)
              (wrap64 (totalSize c - Size item))
              (delete (Key item) (items c))
              (list_Remove element (evictionList c))
              (elemValue c) (nextElem c),
   true).

(** [evictOldest] *)
Definition evictOldest (c : LRUCache) : LRUCache * bool :=
  match list_Back (evictionList c) with
  | Some element => evictElement c element
  | None => (c, false)
  end.

(** [Get] is written in the source as a probe of the index under the
    read lock followed, after the read lock is released, by the expiry
    test and one of three sections under the write lock.  The two
    phases are kept apart here; [Get] is their composition in a single
    thread. *)
Definition Get_probe (c : LRUCache) (key : string) : option Element :=
  items c !! key.

Definition Get_finish (probe : option Element) (now : Time) (c : LRUCache)
  : LRUCache * option CacheItem :=
  match probe with
  | None => (with_misses incr64 c, None)
  | Some element =>
      let item := elemValue c element in
      if negb (Time_IsZero (ExpiresAt item)) && Time_After now (ExpiresAt item)
      then (with_misses incr64 (evictElement c element).1, None)
      else (with_hits incr64
              (with_evictionList (list_MoveToFront element) c),
            Some item)
  end.

(** [Get(key)]; [None] stands for [(nil, false)] and [Some item] for
    [(item, true)]. *)
Definition Get (c : LRUCache) (key : string) (now : Time)
  : LRUCache * option CacheItem :=
  Get_finish (Get_probe c key) now c.

(** The loop [for c.evictionList.Len() > c.capacity { c.evictOldest() }].
    [None] when the fuel runs out before the loop condition is false. *)
Fixpoint evictLoop (fuel : nat) (c : LRUCache) : option LRUCache :=
  if decide (capacity c < list_Len (evictionList c)) then
    match fuel with
    | O => None
    | S fuel' => evictLoop fuel' (evictOldest c).1
    end
  else Some c.

(** [Set(key, value, ttl)].  [now] and [now'] are the two readings of
    the clock, for [ExpiresAt] and for [CreatedAt].  The result is
    [None] exactly when the eviction loop does not terminate (see
    [evictLoop_fuel_enough] and [evictLoop_negative_capacity]). *)
Definition Set_ (c : LRUCache) (key value : string) (ttl : Duration)
    (now now' : Time) : option (LRUCache * bool) :=
  let expiresAt := if 0 <? ttl then Time_Add now ttl else 0 in
  let item := mkCacheItem key value (Z.of_nat (String.length value)) now' expiresAt in
  match items c !! key with
  | Some element =>
      let oldItem := elemValue c element in
      Some (mkLRUCache (capacity c) (evictions c) (hits c) (misses c)
              (wrap64 (wrap64 (totalSize c - Size oldItem) + Size item))
              (items c)
              (list_MoveToFront element (evictionList c))
              (<[element := item]> (elemValue c))
              (nextElem c),
            false)
  | None =>
      let element := nextElem c in
      let c1 :=
        mkLRUCache (capacity c) (evictions c) (hits c) (misses c)
          (wrap64 (totalSize c + Size item))
          (<[key := element]> (items c))
          (element :: evictionList c)
          (<[element := item]> (elemValue c))
          (S element) in
      c2 ← evictLoop (S (length (evictionList c1))) c1;
      Some (c2, true)
  end.

(** [Remove] *)
Definition Remove (c : LRUCache) (key : string) : LRUCache * bool :=
  match items c !! key with
  | Some element => evictElement c element
  | None => (c, false)
  end.

(** [Clear] *)
Definition Clear (c : LRUCache) : LRUCache :=
  mkLRUCache (capacity c) (evictions c) (hits c) (misses c) 0 ∅ []
             (elemValue c) (nextElem c).

(** [Size] *)
Definition Size_ (c : LRUCache) : Z := list_Len (evictionList c).

(** [Capacity] *)
Definition Capacity (c : LRUCache) : Z := capacity c.

(** [Stats].  Go's integer division truncates toward zero ([Z.quot]). *)
Definition Stats (c : LRUCache) : CacheStats :=
  let size := list_Len (evictionList c) in
  let total := wrap64 (hits c + misses c) in
  let hitRate := if 0 <? total then (Qc_of_Z (hits c) / Qc_of_Z total)%Qc else 0%Qc in
  let avgSize := if 0 <? size then Z.quot (totalSize c) size else 0 in
  mkCacheStats size (capacity c) (hits c) (misses c) hitRate (evictions c) avgSize.

(** *** Sequences of calls *)

Inductive Op :=
| OpSet (key value : string) (ttl : Duration) (now now' : Time)
| OpGet (key : string) (now : Time)
| OpRemove (key : string)
| OpClear.

Definition step (c : LRUCache) (o : Op) : option LRUCache :=
  match o with
  | OpSet key value ttl now now' => fst <$> Set_ c key value ttl now now'
  | OpGet key now => Some (Get c key now).1
  | OpRemove key => Some (Remove c key).1
  | OpClear => Some (Clear c)
  end.

(** Runs the calls one after the other; [None] when one of them does
    not return. *)
Fixpoint run (c : LRUCache) (ops : list Op) : option LRUCache :=
  match ops with
  | [] => Some c
  | o :: ops' => c' ← step c o; run c' ops'
  end.

(** The keys held by the cache, most recently used first. *)
Definition keys (c : LRUCache) : list string :=
  (λ e, Key (elemValue c e)) <$> evictionList c.

(** The key that a call touches: [Set] touches its key, which it
    inserts or updates, and [Get] touches its key when it finds it;
    [Remove], [Clear] and a [Get] that finds nothing touch no key. *)
Definition touched (c : LRUCache) (o : Op) : option string :=
  match o with
  | OpSet key _ _ _ _ => Some key
  | OpGet key now =>
      match (Get c key now).2 with Some _ => Some key | None => None end
  | OpRemove _ => None
  | OpClear => None
  end.

(** The keys touched by the calls [ops] made one after the other from
    the state [c], in the order of the calls. *)
Fixpoint touches (c : LRUCache) (ops : list Op) : list string :=
  match ops with
  | [] => []
  | o :: ops' =>
      match step c o with
      | Some c' => option_list (touched c o) ++ touches c' ops'
      | None => []
      end
  end.

(** The position in [log] of the last touch of the key [k]. *)
Fixpoint lastTouch (log : list string) (k : string) : option nat :=
  match log with
  | [] => None
  | k' :: log' =>
      match lastTouch log' k with
      | Some t => Some (S t)
      | None => if decide (k' = k) then Some O else None
      end
  end.

(** Both keys were touched, and the last touch of [k1] came after the
    last touch of [k2]. *)
Definition touchedAfter (log : list string) (k1 k2 : string) : Prop :=
  ∃ t1 t2, lastTouch log k1 = Some t1 ∧ lastTouch log k2 = Some t2
           ∧ (t2 < t1)%nat.

(** The keys of [l] were all touched, and each was last touched after
    all those that follow it in [l]. *)
Definition recencyOrdered (log : list string) (l : list string) : Prop :=
  StronglySorted (touchedAfter log) l
  ∧ ∀ k, k ∈ l -> is_Some (lastTouch log k).

(** *** Concurrent calls of [Get]

    A goroutine inside [Get] is at one of three points: before the
    probe, between the probe and the write-locked section (holding the
    element it found, no lock held), or finished.  The read-locked
    probe is one atomic step; the reading of the item and of the clock
    that follows it without a lock is taken together with the
    write-locked section as a second atomic step.  The scheduler picks
    which goroutine takes the next step, so every run of the model is a
    run of the code. *)
Inductive GetThread :=
| GetStart (key : string)
| GetProbed (probe : option Element)
| GetDone (result : option CacheItem).

Definition thread_step (now : Time) (c : LRUCache) (t : GetThread)
  : LRUCache * GetThread :=
  match t with
  | GetStart key => (c, GetProbed (Get_probe c key))
  | GetProbed probe =>
      let r := Get_finish probe now c in (r.1, GetDone r.2)
  | GetDone result => (c, GetDone result)
  end.

(** Runs the goroutines [ts] under the schedule [sched], a list of
    goroutine numbers, each with the reading of the clock at that step. *)
Fixpoint interleave (sched : list (nat * Time)) (c : LRUCache)
    (ts : list GetThread) : LRUCache * list GetThread :=
  match sched with
  | [] => (c, ts)
  | (i, now) :: sched' =>
      match ts !! i with
      | Some t =>
          let r := thread_step now c t in
          interleave sched' r.1 (<[i := r.2]> ts)
      | None => interleave sched' c ts
      end
  end.

(** *** Invariants *)

(** The size is within the capacity [C]. *)
Definition size_ok (C : Z) (c : LRUCache) : Prop :=
  capacity c = C ∧ Size_ c <= C.

(** Nothing is stored. *)
Definition is_sink (c : LRUCache) : Prop :=
  capacity c = 0 ∧ evictionList c = [] ∧ items c = ∅.

(** The index and the list describe the same elements: the list has no
    element twice, its elements were allocated, and [items] maps a key
    to an element exactly when that element is in the list and holds an
    item with that key. *)
Definition wf_parts (l : list Element) (its : gmap string Element)
    (ev : Element -> CacheItem) (nx : Element) : Prop :=
  NoDup l ∧
  (∀ e, e ∈ l -> (e < nx)%nat) ∧
  (∀ k e, its !! k = Some e <-> e ∈ l ∧ Key (ev e) = k).

Definition wf (c : LRUCache) : Prop :=
  wf_parts (evictionList c) (items c) (elemValue c) (nextElem c).

(** No element of the list carries an expiry instant. *)
Definition no_expiry (c : LRUCache) : Prop :=
  ∀ e, e ∈ evictionList c -> ExpiresAt (elemValue c e) = 0.

End cache.

(** ** Go strings

    The functions of the packages [strings], [bytes], [strconv] and
    [fmt] used by the proxy, on byte strings; runes are read off the
    bytes as UTF-8 where the Go functions do so. *)

Module gostr.

Definition byte_of (c : ascii) : N := N_of_ascii c.

Definition isDigit (c : ascii) : bool :=
  (48 <=? byte_of c)%N && (byte_of c <=? 57)%N.

Definition digitVal (c : ascii) : Z := Z.of_N (byte_of c) - 48.

(** [s[n:]] *)
Fixpoint drop (n : nat) (s : string) : string :=
  match n, s with
  | O, _ => s
  | S n', String _ s' => drop n' s'
  | S _, EmptyString => EmptyString
  end.

(** [strings.HasPrefix] *)
Fixpoint HasPrefix (s prefix : string) {struct prefix} : bool :=
  match prefix, s with
  | EmptyString, _ => true
  | String p prefix', String c s' => Ascii.eqb c p && HasPrefix s' prefix'
  | String _ _, EmptyString => false
  end.

(** [strings.HasSuffix]:
    [len(s) >= len(suffix) && s[len(s)-len(suffix):] == suffix]. *)
Definition HasSuffix (s suffix : string) : bool :=
  (String.length suffix <=? String.length s)%nat
  && String.eqb (drop (String.length s - String.length suffix) s) suffix.

(** [strings.TrimPrefix] *)
Definition TrimPrefix (s prefix : string) : string :=
  if HasPrefix s prefix then drop (String.length prefix) s else s.

(** [strings.Cut]: the text before and after the first occurrence of a
    separator that is not empty. *)
Fixpoint Cut (s sep : string) : option (string * string) :=
  if HasPrefix s sep then Some (EmptyString, drop (String.length sep) s)
  else match s with
       | EmptyString => None
       | String c s' =>
           match Cut s' sep with
           | Some (before, after) => Some (String c before, after)
           | None => None
           end
       end.

(** [strings.Contains] *)
Definition Contains (s substr : string) : bool :=
  match Cut s substr with Some _ => true | None => false end.

(** At most [cuts] cuts at the separator, then the rest. *)
Fixpoint splitCuts (cuts : nat) (s sep : string) : list string :=
  match cuts with
  | O => [s]
  | S cuts' =>
      match Cut s sep with
      | Some (before, after) => before :: splitCuts cuts' after sep
      | None => [s]
      end
  end.

(** [strings.Split(s, sep)] and [bytes.Split], for a separator that is
    not empty: there are at most [len(s)] occurrences to cut at. *)
Definition Split (s sep : string) : list string :=
  splitCuts (String.length s) s sep.

(** [strings.SplitN(s, sep, n)] and [bytes.SplitN], for a separator
    that is not empty. *)
Definition SplitN (s sep : string) (n : Z) : list string :=
  if n =? 0 then []
  else if n <? 0 then Split s sep
  else splitCuts (Z.to_nat (n - 1)) s sep.

(** [s[:n]] *)
Fixpoint keep (n : nat) (s : string) : string :=
  match n, s with
  | S n', String c s' => String c (keep n' s')
  | _, _ => EmptyString
  end.

(** The string of the bytes [l]. *)
Definition bytes (l : list N) : string :=
  foldr (λ n s, String (ascii_of_N n) s) EmptyString l.

(** The UTF-8 encodings of the white-space runes of [unicode.IsSpace],
    which are also those of the table [space] of package [fmt]:
    U+0009 to U+000D, U+0020, U+0085, U+00A0, U+1680, U+2000 to U+200A,
    U+2028, U+2029, U+202F, U+205F and U+3000.  A lead byte of one of
    them is the tail of no other rune, so that a string starts (ends)
    with a white-space rune exactly when it starts (ends) with one of
    these byte sequences. *)
Definition spaceRunes : list string :=
  bytes <$>
    [[9]; [10]; [11]; [12]; [13]; [32];
     [194; 133]; [194; 160];
     [225; 154; 128];
     [226; 128; 128]; [226; 128; 129]; [226; 128; 130]; [226; 128; 131];
     [226; 128; 132]; [226; 128; 133]; [226; 128; 134]; [226; 128; 135];
     [226; 128; 136]; [226; 128; 137]; [226; 128; 138];
     [226; 128; 168]; [226; 128; 169]; [226; 128; 175];
     [226; 129; 159];
     [227; 128; 128]]%N.

(** [s] without the white-space rune it starts with, if any. *)
Definition leadingSpace (s : string) : option string :=
  head (omap (λ rune, if HasPrefix s rune
                      then Some (drop (String.length rune) s) else None)
             spaceRunes).

(** [s] without the white-space rune it ends with, if any. *)
Definition trailingSpace (s : string) : option string :=
  head (omap (λ rune, if HasSuffix s rune
                      then Some (keep (String.length s - String.length rune) s)
                      else None)
             spaceRunes).

(** [strings.TrimLeftFunc(s, unicode.IsSpace)]; a string holds at most
    [len(s)] runes. *)
Fixpoint trimLeftN (runes : nat) (s : string) : string :=
  match runes with
  | O => s
  | S runes' =>
      match leadingSpace s with
      | Some rest => trimLeftN runes' rest
      | None => s
      end
  end.

Definition trimLeft (s : string) : string := trimLeftN (String.length s) s.

(** [strings.TrimRightFunc(s, unicode.IsSpace)] *)
Fixpoint trimRightN (runes : nat) (s : string) : string :=
  match runes with
  | O => s
  | S runes' =>
      match trailingSpace s with
      | Some rest => trimRightN runes' rest
      | None => s
      end
  end.

Definition trimRight (s : string) : string := trimRightN (String.length s) s.

(** [strings.TrimSpace] *)
Definition TrimSpace (s : string) : string := trimRight (trimLeft s).

(** The value of a string of decimal digits; [None] when a byte is
    not a digit. *)
Fixpoint digitsValue (acc : Z) (s : string) : option Z :=
  match s with
  | EmptyString => Some acc
  | String c s' =>
      if isDigit c then digitsValue (acc * 10 + digitVal c) s' else None
  end.

(** [strconv.Atoi]: an optional sign, then at least one decimal digit
    and nothing else; an error when the value is outside [int]. *)
Definition Atoi (s : string) : option Z :=
  let '(neg, digits) :=
    match s with
    | String "-" s' => (true, s')
    | String "+" s' => (false, s')
    | _ => (false, s)
    end in
  match digits with
  | EmptyString => None
  | _ =>
      n ← digitsValue 0 digits;
      let v := if neg then - n else n in
      if (minInt64 <=? v) && (v <=? maxInt64) then Some v else None
  end.

(** [strconv.Itoa], and the verb [%d] of [fmt.Fprintf]. *)
Definition Itoa (z : Z) : string := NilZero.string_of_int (Z.to_int z).

(** The leading run of decimal digits of [s]. *)
Fixpoint takeDigits (s : string) : string :=
  match s with
  | String c s' => if isDigit c then String c (takeDigits s') else EmptyString
  | EmptyString => EmptyString
  end.

(** [SkipSpace] of [fmt.Sscanf]: skips the white-space runes, stops
    with an error at a newline.  [None] is the error. *)
Fixpoint scanSkipSpaceN (runes : nat) (s : string) : option string :=
  match runes with
  | O => Some s
  | S runes' =>
      match s with
      | EmptyString => Some EmptyString
      | String c _ =>
          if Ascii.eqb c "010" then None
          else match leadingSpace s with
               | Some rest => scanSkipSpaceN runes' rest
               | None => Some s
               end
      end
  end.

Definition scanSkipSpace (s : string) : option string :=
  scanSkipSpaceN (String.length s) s.

(** [fmt.Sscanf(s, "%d", &n)]: leading white space, an optional sign, the
    longest run of digits (at least one), read as an [int]; what
    follows the digits is not looked at.  [None] is the error. *)
Definition Sscanf_d (s : string) : option Z :=
  s1 ← scanSkipSpace s;
  let '(neg, s2) :=
    match s1 with
    | String "-" s' => (true, s')
    | String "+" s' => (false, s')
    | _ => (false, s1)
    end in
  match takeDigits s2 with
  | EmptyString => None
  | tok =>
      n ← digitsValue 0 tok;
      let v := if neg then - n else n in
      if (minInt64 <=? v) && (v <=? maxInt64) then Some v else None
  end.

End gostr.

(** ** Package proxy: the request handler *)

Module proxy.
Import gostr.

Definition CR : ascii := "013"%char.
Definition LF : ascii := "010"%char.
Definition CRLF : string := String CR (String LF EmptyString).

Definition StatusOK : Z := 200.
Definition StatusBadRequest : Z := 400.
Definition StatusForbidden : Z := 403.
Definition StatusInternalServerError : Z := 500.
Definition StatusBadGateway : Z := 502.

(** *** net/http headers *)

(** [http.Header]: [map[string][]string]. *)
Abbreviation Header := (gmap string (list string)).

(** The bytes of an HTTP token ([validHeaderFieldByte], [isNotToken]). *)
Definition isTokenByte (c : ascii) : bool :=
  let n := byte_of c in
  ((48 <=? n) && (n <=? 57) || (65 <=? n) && (n <=? 90)
   || (97 <=? n) && (n <=? 122))%N
  || match n with
     | 33%N | 35%N | 36%N | 37%N | 38%N | 39%N | 42%N | 43%N | 45%N | 46%N
     | 94%N | 95%N | 96%N | 124%N | 126%N => true
     | _ => false
     end.

Fixpoint allTokenBytes (s : string) : bool :=
  match s with
  | EmptyString => true
  | String c s' => isTokenByte c && allTokenBytes s'
  end.

Definition isLower (c : ascii) : bool := (97 <=? byte_of c)%N && (byte_of c <=? 122)%N.
Definition isUpper (c : ascii) : bool := (65 <=? byte_of c)%N && (byte_of c <=? 90)%N.
Definition toUpper (c : ascii) : ascii := ascii_of_N (byte_of c - 32).
Definition toLower (c : ascii) : ascii := ascii_of_N (byte_of c + 32).

(** The second loop of [canonicalMIMEHeaderKey]: upper case at the
    start and after a hyphen, lower case elsewhere. *)
Fixpoint canonicalize (upper : bool) (s : string) : string :=
  match s with
  | EmptyString => EmptyString
  | String c s' =>
      let c' := if upper && isLower c then toUpper c
                else if negb upper && isUpper c then toLower c
                else c in
      String c' (canonicalize (Ascii.eqb c' "-") s')
  end.

(** [textproto.CanonicalMIMEHeaderKey]: a key with a byte that is not
    a token byte is returned unchanged. *)
Definition CanonicalMIMEHeaderKey (s : string) : string :=
  if allTokenBytes s then canonicalize true s else s.

(** [h.Add(key, value)] *)
Definition Header_Add (h : Header) (key value : string) : Header :=
  let k := CanonicalMIMEHeaderKey key in
  <[k := (default [] (h !! k) ++ [value])%list]> h.

(** [h.Get(key)] *)
Definition Header_Get (h : Header) (key : string) : string :=
  match h !! CanonicalMIMEHeaderKey key with
  | Some (v :: _) => v
  | _ => EmptyString
  end.

(** *** Data *)

(** The fields of [config.Config] read by the handler. *)
Record Config := mkConfig {
  CacheTTL : Z;
  ProxyTimeout : Z;
  AllowedDomains : list string;
  MaxConnections : Z
}.

(** [url.URL], as far as the handler looks into it. *)
Record URL := mkURL {
  Scheme : string;
  Host : string;
  Path : string;
  RawQuery : string
}.

(** The inbound [http.Request]. *)
Record Request := mkRequest {
  Method : string;
  reqURL : URL;
  reqHeader : Header;
  reqHost : string;
  RemoteAddr : string
}.

(** The outbound request built by [cloneRequest]. *)
Record OutRequest := mkOutRequest {
  outMethod : string;
  outURL : URL;
  outHeader : Header
}.

(** The upstream [http.Response]; [Body] is the result of
    [io.ReadAll(resp.Body)], [None] when reading fails. *)
Record Response := mkResponse {
  StatusCode : Z;
  respHeader : Header;
  Body : option string
}.

(** [CachedResponse] *)
Record CachedResponse := mkCachedResponse {
  cStatusCode : Z;
  cHeader : Header;
  cBody : string
}.

(** The library calls whose result the handler only passes on.  An
    error is its text.  [mapRange] is the order in which a [range]
    loop visits a header map, which Go leaves unspecified;
    [time_Parse layout value] is [time.Parse]. *)
Record Env := mkEnv {
  url_Parse : string -> string + URL;
  URL_String : URL -> string;
  URL_Query_Get : URL -> string -> string;
  strconv_Quote : string -> string;
  client_Do : OutRequest -> string + Response;
  time_Parse : string -> string -> option Time;
  mapRange : Header -> list (string * list string)
}.

(** The readings of the clock during one request. *)
Record Clock := mkClock {
  atGet : Time;
  atUntil : Time;
  atSet : Time;
  atSet' : Time
}.

(** The interface [cache.Cache], as far as the handler uses it.  [Set]
    gives [None] when the call does not return. *)
Class Cache (S : Type) := {
  Cache_Get : S -> string -> Time -> S * option cache.CacheItem;
  Cache_Set : S -> string -> string -> Duration -> Time -> Time -> option (S * bool)
}.

#[export] Instance LRUCache_Cache : Cache cache.LRUCache :=
  {| Cache_Get := cache.Get; Cache_Set := cache.Set_ |}.

(** [checkWriteHeaderCode] of net/http: [w.WriteHeader(code)] panics
    for a code that has not three digits. *)
Definition validWriteHeaderCode (code : Z) : bool :=
  (100 <=? code) && (code <=? 999).

(** What the handler does to the client's [http.ResponseWriter]. *)
Inductive Reply :=
| ReplyError (code : Z) (msg : string)
    (** [http.Error(w, msg, code)]; net/http writes [msg] and a newline. *)
| ReplyHit (cached : CachedResponse)
    (** the cached headers, [X-Cache: HIT], [WriteHeader] with the
        cached status, and the cached body *)
| ReplyMiss (resp : Response)
    (** the upstream headers, [X-Proxy-Server], [X-Cache: MISS],
        [WriteHeader] with the upstream status, and the body when it
        could be read *)
| ReplyPanic (msg : string)
    (** the headers are set and [WriteHeader] panics: no status line
        and no body reach the client *).

(** *** Domain filter *)

(** [isDomainAllowed] *)
Definition isDomainAllowed (cfg : Config) (host : string) : bool :=
  if (length (AllowedDomains cfg) =? 0)%nat then true
  else existsb (λ domain, HasSuffix host domain) (AllowedDomains cfg).

(** *** Cacheability *)

(** [p.cacheables[method]] *)
Definition cacheables (method : string) : bool :=
  String.eqb method "GET" || String.eqb method "HEAD".

(** [isCacheable] *)
Definition isCacheable (r : Request) : bool :=
  if negb (cacheables (Method r)) then false
  else if negb (String.eqb (Header_Get (reqHeader r) "Authorization") "") then false
  else if Contains (Header_Get (reqHeader r) "Cache-Control") "no-store" then false
  else true.

(** [isResponseCacheable] *)
Definition isResponseCacheable (resp : Response) : bool :=
  if negb (StatusCode resp =? StatusOK) then false
  else if Contains (Header_Get (respHeader resp) "Cache-Control") "no-store" then false
  else if negb (String.eqb (Header_Get (respHeader resp) "Set-Cookie") "") then false
  else true.

(** [createCacheKey] *)
Definition createCacheKey (E : Env) (r : Request) : string :=
  Method r +:+ ":" +:+ URL_String E (reqURL r).

(** *** TTL *)

Definition RFC1123 : string := "Mon, 02 Jan 2006 15:04:05 MST".
Definition RFC1123Z : string := "Mon, 02 Jan 2006 15:04:05 -0700".

Definition expiresFormats : list string :=
  [RFC1123; RFC1123Z;
   "Mon, 02-Jan-2006 15:04:05 MST";
   "Monday, 02-Jan-2006 15:04:05 MST"].

(** [time.Duration(n) * time.Second] *)
Definition seconds (n : Z) : Duration := wrap64 (n * Second).

(** The loop over the Cache-Control directives of [calculateTTL]:
    returns at the first directive that, once trimmed, starts with
    [max-age=] and whose value [strconv.Atoi] accepts. *)
Fixpoint scanDirectives (directives : list string) : option Duration :=
  match directives with
  | [] => None
  | directive :: rest =>
      let directive := TrimSpace directive in
      if HasPrefix directive "max-age=" then
        match Atoi (TrimPrefix directive "max-age=") with
        | Some secs => Some (seconds secs)
        | None => scanDirectives rest
        end
      else scanDirectives rest
  end.

(** The loop over the date formats of [calculateTTL]. *)
Fixpoint scanFormats (E : Env) (now : Time) (formats : list string)
    (expires : string) : option Duration :=
  match formats with
  | [] => None
  | format :: rest =>
      match time_Parse E format expires with
      | Some expiresTime => Some (time_Until now expiresTime)
      | None => scanFormats E now rest expires
      end
  end.

(** [calculateTTL] *)
Definition calculateTTL (E : Env) (cfg : Config) (now : Time) (resp : Response)
  : Duration :=
  let cacheControl := Header_Get (respHeader resp) "Cache-Control" in
  let fromCacheControl :=
    if String.eqb cacheControl "" then None
    else scanDirectives (Split cacheControl ",") in
  match fromCacheControl with
  | Some ttl => ttl
  | None =>
      let expires := Header_Get (respHeader resp) "Expires" in
      let fromExpires :=
        if String.eqb expires "" then None
        else scanFormats E now expiresFormats expires in
      match fromExpires with
      | Some ttl => ttl
      | None => seconds (CacheTTL cfg)
      end
  end.

(** The TTL that [cacheResponse] hands to [Set]. *)
Definition cacheResponse_ttl (E : Env) (cfg : Config) (now : Time)
    (resp : Response) : Duration :=
  let ttl := calculateTTL E cfg now resp in
  if ttl <=? 0 then seconds (CacheTTL cfg) else ttl.

(** *** Wire format *)

(** The inner loop of [serializeResponse]: one line per value. *)
Definition headerLines (key : string) (values : list string) : string :=
  foldr (λ value acc, key +:+ ": " +:+ value +:+ CRLF +:+ acc) "" values.

(** [serializeResponse], the header map being visited in the order
    [entries]. *)
Definition serializeResponse_in (entries : list (string * list string))
    (resp : CachedResponse) : string :=
  Itoa (cStatusCode resp) +:+ CRLF
  +:+ foldr (λ kv acc, headerLines kv.1 kv.2 +:+ acc) "" entries
  +:+ CRLF +:+ cBody resp.

(** [serializeResponse] *)
Definition serializeResponse (E : Env) (resp : CachedResponse) : string :=
  serializeResponse_in (mapRange E (cHeader resp)) resp.

(** The loop of [parseCachedResponse] over the header lines. *)
Definition parseHeaderLines (lines : list string) : Header :=
  foldl (λ headers line,
           match SplitN line ": " 2 with
           | [key; value] => Header_Add headers key value
           | _ => headers
           end) ∅ lines.

(** [parseCachedResponse]; [None] is the error. *)
Definition parseCachedResponse (data : string) : option CachedResponse :=
  match SplitN data (CRLF +:+ CRLF) 2 with
  | [head; body] =>
      match Split head CRLF with
      | [] => None
      | statusLine :: lines =>
          statusCode ← Sscanf_d statusLine;
          Some (mkCachedResponse statusCode (parseHeaderLines lines) body)
      end
  | _ => None
  end.

(** *** The handler *)

(** [http.NewRequest(method, url, body)] *)
Definition http_NewRequest (E : Env) (method url : string) : string + OutRequest :=
  let method := if String.eqb method "" then "GET" else method in
  if negb (allTokenBytes method) then
    inl ("net/http: invalid method " +:+ strconv_Quote E method)
  else match url_Parse E url with
       | inl err => inl err
       | inr u => inr (mkOutRequest method u ∅)
       end.

(** [cloneRequest] *)
Definition cloneRequest (E : Env) (r : Request) : string + OutRequest :=
  match http_NewRequest E (Method r) (URL_String E (reqURL r)) with
  | inl err => inl err
  | inr proxyReq =>
      let copied :=
        foldl (λ h kv, foldl (λ h value, Header_Add h kv.1 value) h kv.2)
              ∅ (mapRange E (reqHeader r)) in
      let h1 := <[CanonicalMIMEHeaderKey "X-Forwarded-For" := [RemoteAddr r]]> copied in
      let h2 := <[CanonicalMIMEHeaderKey "X-Forwarded-Host" := [reqHost r]]> h1 in
      let h3 := delete (CanonicalMIMEHeaderKey "Connection") h2 in
      inr (mkOutRequest (outMethod proxyReq) (outURL proxyReq) h3)
  end.

(** [cacheResponse]: the call of [Set] on the cache. *)
Definition cacheResponse {S} `{Cache S} (E : Env) (cfg : Config) (clk : Clock)
    (st : S) (key : string) (resp : Response) (body : string) : option S :=
  let ttl := cacheResponse_ttl E cfg (atUntil clk) resp in
  let cachedResp := mkCachedResponse (StatusCode resp) (respHeader resp) body in
  let serialized := serializeResponse E cachedResp in
  fst <$> Cache_Set st key serialized ttl (atSet clk) (atSet' clk).

(** The second half of [handleRequest], from [cloneRequest] on. *)
Definition forward {S} `{Cache S} (E : Env) (cfg : Config) (clk : Clock)
    (st : S) (r : Request) : option (Reply * S) :=
  match cloneRequest E r with
  | inl err =>
      Some (ReplyError StatusInternalServerError
              ("Error creating proxy request: " +:+ err), st)
  | inr proxyReq =>
      match client_Do E proxyReq with
      | inl err =>
          Some (ReplyError StatusBadGateway
                  ("Error forwarding request: " +:+ err), st)
      | inr resp =>
          if negb (validWriteHeaderCode (StatusCode resp)) then
            Some (ReplyPanic ("invalid WriteHeader code "
                              +:+ Itoa (StatusCode resp)), st)
          else
          match Body resp with
          | None => Some (ReplyMiss resp, st)
          | Some body =>
              if isCacheable r && isResponseCacheable resp then
                st' ← cacheResponse E cfg clk st (createCacheKey E r) resp body;
                Some (ReplyMiss resp, st')
              else Some (ReplyMiss resp, st)
          end
      end
  end.

(** The part of [handleRequest] after the target is resolved: [r] is
    the request with its URL updated. *)
Definition serve {S} `{Cache S} (E : Env) (cfg : Config) (clk : Clock)
    (st : S) (r : Request) : option (Reply * S) :=
  if negb (isDomainAllowed cfg (Host (reqURL r))) then
    Some (ReplyError StatusForbidden "Domain not allowed", st)
  else if isCacheable r then
    let cacheKey := createCacheKey E r in
    match Cache_Get st cacheKey (atGet clk) with
    | (st1, Some item) =>
        match parseCachedResponse (cache.Value item) with
        | Some cachedResp =>
            if negb (validWriteHeaderCode (cStatusCode cachedResp)) then
              Some (ReplyPanic ("invalid WriteHeader code "
                                +:+ Itoa (cStatusCode cachedResp)), st1)
            else Some (ReplyHit cachedResp, st1)
        | None => forward E cfg clk st1 r
        end
    | (st1, None) => forward E cfg clk st1 r
    end
  else forward E cfg clk st r.

(** [handleRequest]; [None] when the call does not return. *)
Definition handleRequest {S} `{Cache S} (E : Env) (cfg : Config) (clk : Clock)
    (st : S) (r : Request) : option (Reply * S) :=
  let targetURLStr := URL_Query_Get E (reqURL r) "url" in
  if negb (String.eqb targetURLStr "") then
    match url_Parse E targetURLStr with
    | inl _ => Some (ReplyError StatusBadRequest "Invalid URL format", st)
    | inr parsedURL =>
        serve E cfg clk st
          (mkRequest (Method r) parsedURL (reqHeader r) (reqHost r) (RemoteAddr r))
    end
  else if String.eqb (Scheme (reqURL r)) "" || String.eqb (Host (reqURL r)) "" then
    Some (ReplyError StatusBadRequest
            "Invalid proxy request. URL must include scheme and host.", st)
  else serve E cfg clk st r.

End proxy.

(** ** Package proxy: the worker pool *)

Module pool.

(** A [*job]; the request and the writer it carries play no role in
    the scheduling. *)
Abbreviation job := nat.

(** A buffered channel of jobs: its buffer, oldest first, its capacity
    and whether [close] was called on it. *)
Record Chan := mkChan {
  buf : list job;
  chanCap : Z;
  closed : bool
}.

(** The bounds of [makechan] in the Go runtime on a 64-bit platform:
    a [*job] takes 8 bytes, the heap has [maxAlloc] = 2^48 bytes of
    addresses and the header of a channel takes [hchanSize] bytes. *)
Definition ptrSize : Z := 8.
Definition maxAlloc : Z := 2 ^ 48.
Definition hchanSize : Z := 96.

(** [make(chan *job, size)]; [None] is the run-time panic
    [makechan: size out of range], for a negative size and for a
    buffer that does not fit under [maxAlloc].  Below that bound the
    memory is taken to be there: a process that runs out of memory is
    ended by the runtime, which no Go code observes. *)
Definition make_chan (size : Z) : option Chan :=
  if (size <? 0) || (maxAlloc - hchanSize <? ptrSize * size) then None
  else Some (mkChan [] size false).

(** [WorkerPool].  [running] is the counter of the wait group: the
    workers that have not returned; [idle] of them are blocked on the
    receive of their [range] loop.  [finished] are the jobs whose
    [done] channel was closed. *)
Record WorkerPool := mkWorkerPool {
  jobQueue : Chan;
  maxWorkers : Z;
  running : Z;
  idle : Z;
  finished : list job
}.

(** [NewWorkerPool], with [start]: one [wg.Add(1)] and one goroutine
    per worker, all waiting for a job at first.  [None] when [make]
    panics. *)
Definition NewWorkerPool (maxWorkers : Z) : option WorkerPool :=
  let maxWorkers := if maxWorkers <=? 0 then 10 else maxWorkers in
  q ← make_chan (wrap64 (maxWorkers * 2));
  Some (mkWorkerPool q maxWorkers maxWorkers maxWorkers []).

(** What a call does next. *)
Inductive Outcome (A : Type) :=
| Proceeds (a : A)
| Blocks
| Panics (msg : string).
Arguments Proceeds {A} a.
Arguments Blocks {A}.
Arguments Panics {A} msg.

(** [ch <- j]: panics on a closed channel, goes through when the
    buffer has room or a receiver is waiting, blocks otherwise.  A job
    handed to a waiting receiver is written to [buf] here, from which
    the next turn of a worker takes it; the facts below are about a
    closed channel, where no send goes through. *)
Definition chan_send (ch : Chan) (receiverWaiting : bool) (j : job)
  : Outcome Chan :=
  if closed ch then Panics "send on closed channel"
  else if (Z.of_nat (length (buf ch)) <? chanCap ch) || receiverWaiting
       then Proceeds (mkChan (buf ch ++ [j]) (chanCap ch) (closed ch))
       else Blocks.

(** [close(ch)] *)
Definition chan_close (ch : Chan) : Outcome Chan :=
  if closed ch then Panics "close of closed channel"
  else Proceeds (mkChan (buf ch) (chanCap ch) true).

(** The first blocking point of [Enqueue]: [wp.jobQueue <- job]. *)
Definition Enqueue_send (wp : WorkerPool) (j : job) : Outcome WorkerPool :=
  match chan_send (jobQueue wp) (0 <? idle wp) j with
  | Proceeds q =>
      Proceeds (mkWorkerPool q (maxWorkers wp) (running wp) (idle wp) (finished wp))
  | Blocks => Blocks
  | Panics msg => Panics msg
  end.

(** The second blocking point of [Enqueue]: [<-done]. *)
Definition Enqueue_wait (wp : WorkerPool) (j : job) : Outcome unit :=
  if decide (j ∈ finished wp) then Proceeds tt else Blocks.

(** One turn of the loop [for job := range wp.jobQueue] of a worker
    that is waiting: it takes the oldest job, serves it and closes its
    [done] channel; on a closed and empty queue it returns
    ([wg.Done()]); on an open and empty queue it keeps waiting.  The
    turn is one step of the model: the time that the service of a job
    takes, during which other workers take other jobs, is not
    described, and nothing below depends on the order in which jobs
    are finished. *)
Definition worker_turn (wp : WorkerPool) : WorkerPool :=
  match buf (jobQueue wp) with
  | j :: rest =>
      mkWorkerPool (mkChan rest (chanCap (jobQueue wp)) (closed (jobQueue wp)))
        (maxWorkers wp) (running wp) (idle wp) (finished wp ++ [j])
  | [] =>
      if closed (jobQueue wp) && (0 <? idle wp) then
        mkWorkerPool (jobQueue wp) (maxWorkers wp) (running wp - 1) (idle wp - 1)
          (finished wp)
      else wp
  end.

(** The first statement of [Stop]: [close(wp.jobQueue)]. *)
Definition Stop_close (wp : WorkerPool) : Outcome WorkerPool :=
  match chan_close (jobQueue wp) with
  | Proceeds q =>
      Proceeds (mkWorkerPool q (maxWorkers wp) (running wp) (idle wp) (finished wp))
  | Blocks => Blocks
  | Panics msg => Panics msg
  end.

(** The second statement of [Stop]: [wp.wg.Wait()]. *)
Definition Stop_wait (wp : WorkerPool) : Outcome unit :=
  if running wp =? 0 then Proceeds tt else Blocks.

(** What the pool does between two calls of its methods. *)
Inductive Event :=
| WorkerTurn
| Send (j : job).

Definition happen (wp : WorkerPool) (ev : Event) : WorkerPool :=
  match ev with
  | WorkerTurn => worker_turn wp
  | Send j => match Enqueue_send wp j with Proceeds wp' => wp' | _ => wp end
  end.

(** [Enqueue], the workers taking [turns] turns while the caller
    waits for [done]. *)
Definition Enqueue (wp : WorkerPool) (j : job) (turns : nat)
  : Outcome WorkerPool :=
  match Enqueue_send wp j with
  | Proceeds wp1 =>
      let wp2 := Nat.iter turns worker_turn wp1 in
      match Enqueue_wait wp2 j with
      | Proceeds _ => Proceeds wp2
      | Blocks => Blocks
      | Panics msg => Panics msg
      end
  | Blocks => Blocks
  | Panics msg => Panics msg
  end.

(** [Enqueue] hands a result back to its caller: the call returns. *)
Definition Enqueue_returns (wp : WorkerPool) (j : job) : Prop :=
  ∃ turns wp', Enqueue wp j turns = Proceeds wp'.

End pool.

(** ** The TTL rule in the words of the specification *)

Module ttlspec.
Import gostr proxy.

(** The seconds of a directive [max-age=<seconds>]. *)
Definition maxAgeSeconds (directive : string) : option Z :=
  let d := TrimSpace directive in
  if HasPrefix d "max-age=" then Atoi (TrimPrefix d "max-age=") else None.

(** (i) the first [max-age=<seconds>] directive among the
    comma-separated directives of Cache-Control. *)
Definition firstMaxAge (cacheControl : string) : option Z :=
  head (omap maxAgeSeconds (Split cacheControl ",")).

(** (ii) the Expires header under the first known format that parses
    it. *)
Definition firstExpires (E : Env) (expires : string) : option Time :=
  if String.eqb expires "" then None
  else head (omap (λ format, time_Parse E format expires) expiresFormats).

(** The value derived from the upstream headers, in this precedence. *)
Definition derivedTTL (E : Env) (now : Time) (resp : Response) : option Duration :=
  match firstMaxAge (Header_Get (respHeader resp) "Cache-Control") with
  | Some secs => Some (seconds secs)
  | None =>
      match firstExpires E (Header_Get (respHeader resp) "Expires") with
      | Some t => Some (time_Until now t)
      | None => None
      end
  end.

(** The rule as the specification words it: the derived value is the
    TTL even when it is zero or negative. *)
Definition statedTTL (E : Env) (cfg : Config) (now : Time) (resp : Response)
  : Duration :=
  match derivedTTL E now resp with
  | Some ttl => ttl
  | None => seconds (CacheTTL cfg)
  end.

(** The rule with the guard of [cacheResponse]: a derived value that
    is zero or negative gives way to the default. *)
Definition guardedTTL (E : Env) (cfg : Config) (now : Time) (resp : Response)
  : Duration :=
  match derivedTTL E now resp with
  | Some ttl => if 0 <? ttl then ttl else seconds (CacheTTL cfg)
  | None => seconds (CacheTTL cfg)
  end.

End ttlspec.

(** ** Sample data

    A configuration, requests and library results used as concrete
    inputs below.  The library functions are given by their value at
    the inputs that are used, and fail elsewhere. *)

Module sample.
Import gostr proxy.

Definition DQUOTE : ascii := "034"%char.

(** [config.NewDefaultConfig()] with the allow-list [example.com]. *)
Definition cfg : Config := mkConfig 3600 30 ["example.com"] 100.

(** [config.NewDefaultConfig()]: every domain allowed. *)
Definition cfgOpen : Config := mkConfig 3600 30 [] 100.

Definition theURL : URL := mkURL "http" "example.com" "/" "".
Definition otherURL : URL := mkURL "http" "other.org" "/" "".

(** 1 January 1970, 00:00:00 UTC, in nanoseconds since the zero
    instant (1 January of year 1). *)
Definition unixEpoch : Time := 62135596800 * Second.

Definition epochText : string := "Thu, 01 Jan 1970 00:00:00 GMT".

Definition E0 : Env :=
  mkEnv
    (λ s, if String.eqb s "http://example.com/" then inr theURL
          else if String.eqb s "http://other.org/" then inr otherURL
          else inl "parse error")
    (λ u, Scheme u +:+ "://" +:+ Host u +:+ Path u
          +:+ (if String.eqb (RawQuery u) "" then "" else "?" +:+ RawQuery u))
    (λ _ _, "")
    (λ s, String DQUOTE (s +:+ String DQUOTE ""))
    (λ _, inl "dial tcp: connection refused")
    (λ layout value,
       if String.eqb layout RFC1123 && String.eqb value epochText
       then Some unixEpoch else None)
    map_to_list.

Definition clk : Clock :=
  mkClock (unixEpoch + 10 * Second) (unixEpoch + 10 * Second)
          (unixEpoch + 10 * Second) (unixEpoch + 10 * Second).

(** An upstream response that expired ten seconds before [clk]. *)
Definition expiredResp : Response :=
  mkResponse 200 {[ "Expires" := [epochText] ]} (Some "body").

(** An upstream response with [max-age=0]. *)
Definition maxAge0Resp : Response :=
  mkResponse 200 {[ "Cache-Control" := ["public, max-age=0"] ]} (Some "body").

(** An upstream response whose [max-age], in nanoseconds, does not
    fit in 64 bits. *)
Definition hugeMaxAgeResp : Response :=
  mkResponse 200 {[ "Cache-Control" := ["max-age=18446744074"] ]} (Some "body").

(** An upstream response with two Cache-Control header lines, the
    directive [max-age] being in the second. *)
Definition secondLineResp : Response :=
  mkResponse 200 {[ "Cache-Control" := ["public"; "max-age=60"] ]} (Some "body").

(** An upstream response whose [max-age] directive follows a no-break
    space (U+00A0, the bytes C2 A0 in UTF-8). *)
Definition nbspResp : Response :=
  mkResponse 200
    {[ "Cache-Control" := ["public," +:+ bytes [194; 160]%N +:+ "max-age=60"] ]}
    (Some "body").

(** An upstream response with [max-age=60] and an Expires header. *)
Definition maxAge60Resp : Response :=
  mkResponse 200
    {[ "Cache-Control" := ["public, max-age=60"]; "Expires" := [epochText] ]}
    (Some "body").

(** A request whose method is not a token. *)
Definition badMethodReq : Request :=
  mkRequest "BAD METHOD" theURL ∅ "localhost:8080" "127.0.0.1:40000".

(** A request for [http://other.org/]. *)
Definition otherReq : Request :=
  mkRequest "GET" otherURL ∅ "localhost:8080" "127.0.0.1:40000".

Definition plainHeader : Header := {[ "Content-Type" := ["text/plain"] ]}.

End sample.


(** ** Go strings: auxiliary notions *)

Module gostrx.
Import gostr.

(** The byte [c] occurs in [s]. *)
Fixpoint occurs (c : ascii) (s : string) : bool :=
  match s with
  | EmptyString => false
  | String c' s' => Ascii.eqb c' c || occurs c s'
  end.

(** The elements of [elems] with [sep] between them
    ([strings.Join]). *)
Fixpoint Join (elems : list string) (sep : string) : string :=
  match elems with
  | [] => EmptyString
  | e :: rest =>
      match rest with
      | [] => e
      | _ => e +:+ sep +:+ Join rest sep
      end
  end.

(** [s] is made of white-space runes and of nothing else, as the
    empty string is. *)
Definition blank (s : string) : Prop :=
  ∃ runes, Forall (λ rune, rune ∈ spaceRunes) runes
           ∧ s = foldr append EmptyString runes.

(** [Cut] on a string that starts with [p]. *)
Definition prepend (p : string) (r : option (string * string)) :
    option (string * string) :=
  match r with
  | Some (before, after) => Some (p +:+ before, after)
  | None => None
  end.

End gostrx.

(** ** Package cache: aggregate quantities *)

Module cachex.
Import cache.

(** The sum of [f] over the elements of a list. *)
Definition sumOver (f : Element -> Z) (l : list Element) : Z :=
  foldr (λ e acc, f e + acc) 0 l.

(** The sum of the [Size] fields of the items held by the cache. *)
Definition sumSizes (c : LRUCache) : Z :=
  sumOver (λ e, Size (elemValue c e)) (evictionList c).

(** Every item held by the cache has [Size == len(Value)]. *)
Definition sized (c : LRUCache) : Prop :=
  ∀ e, e ∈ evictionList c ->
       Size (elemValue c e) = Z.of_nat (String.length (Value (elemValue c e))).

(** The number of calls of [Get] in a sequence of calls. *)
Fixpoint countGets (ops : list Op) : Z :=
  match ops with
  | [] => 0
  | OpGet _ _ :: ops' => 1 + countGets ops'
  | _ :: ops' => countGets ops'
  end.

(** The calls of [Get] among [ops], made one after the other from
    the state [c], that return an item (first component) and that
    return none (second component). *)
Fixpoint countFound (c : LRUCache) (ops : list Op) : Z * Z :=
  match ops with
  | [] => (0, 0)
  | o :: ops' =>
      match step c o with
      | None => (0, 0)
      | Some c' =>
          let rest := countFound c' ops' in
          match o with
          | OpGet key now =>
              match (Get c key now).2 with
              | Some _ => (1 + rest.1, rest.2)
              | None => (rest.1, 1 + rest.2)
              end
          | _ => rest
          end
      end
  end.

(** The item that [Set(key, value, ttl)] builds. *)
Definition newItem (key value : string) (ttl : Duration) (now now' : Time)
  : CacheItem :=
  mkCacheItem key value (Z.of_nat (String.length value)) now'
    (if 0 <? ttl then Time_Add now ttl else 0).

(** The byte counter is the sum of the sizes, every size is the length
    of its value, and the cache is well formed. *)
Definition accounted (c : LRUCache) : Prop :=
  wf c ∧ totalSize c = wrap64 (sumSizes c) ∧ sized c.


End cachex.

(** ** Package proxy: well-formed header maps *)

Module proxyx.
Import gostr gostrx proxy.

(** A header as net/http hands it over: the key is a token in
    canonical form, there is at least one value, and no value holds a
    carriage return. *)
Definition headerOK (kv : string * list string) : bool :=
  allTokenBytes kv.1 && String.eqb (canonicalize true kv.1) kv.1
  && negb (length kv.2 =? 0)%nat && forallb (λ v, negb (occurs CR v)) kv.2.

(** The header lines written by [serializeResponse] when it visits
    the header map in the order [entries]. *)
Definition lineList (entries : list (string * list string)) : list string :=
  entries ≫= (λ kv, (λ value, kv.1 +:+ ": " +:+ value) <$> kv.2).

(** Each line followed by CR LF. *)
Definition block (lines : list string) : string :=
  foldr (λ line acc, line +:+ CRLF +:+ acc) "" lines.

(** The two nested loops that copy a header map with [Add]
    ([cloneRequest], and the reply loops of [handleRequest]). *)
Definition addAll (h : Header) (entries : list (string * list string)) : Header :=
  foldl (λ h kv, foldl (λ h value, Header_Add h kv.1 value) h kv.2) h entries.

(** A request that [isCacheable] refuses: its method is neither GET
    nor HEAD, or the first value of its Authorization header is not
    empty, or the first value of its Cache-Control header contains
    [no-store] ([Header.Get] reads the first value). *)
Definition uncacheable (r : Request) : Prop :=
  cacheables (Method r) = false
  ∨ Header_Get (reqHeader r) "Authorization" ≠ ""
  ∨ Contains (Header_Get (reqHeader r) "Cache-Control") "no-store" = true.

(** An upstream response that [isResponseCacheable] refuses: its
    status is not 200, or the first value of its Cache-Control header
    contains [no-store], or the first value of its Set-Cookie header
    is not empty. *)
Definition unstorable (resp : Response) : Prop :=
  StatusCode resp ≠ 200
  ∨ Contains (Header_Get (respHeader resp) "Cache-Control") "no-store" = true
  ∨ Header_Get (respHeader resp) "Set-Cookie" ≠ "".

(** The environment [E] with another upstream behind [client.Do]. *)
Definition withUpstream (E : Env) (upstream : OutRequest -> string + Response) : Env :=
  mkEnv (url_Parse E) (URL_String E) (URL_Query_Get E) (strconv_Quote E)
        upstream (time_Parse E) (mapRange E).

(** The request as [handleRequest] goes on with it after its first
    step, its URL being the target; [None] when the handler answers
    400 there. *)
Definition resolved (E : Env) (r : Request) : option Request :=
  let targetURLStr := URL_Query_Get E (reqURL r) "url" in
  if negb (String.eqb targetURLStr "") then
    match url_Parse E targetURLStr with
    | inl _ => None
    | inr parsedURL =>
        Some (mkRequest (Method r) parsedURL (reqHeader r) (reqHost r)
                (RemoteAddr r))
    end
  else if String.eqb (Scheme (reqURL r)) "" || String.eqb (Host (reqURL r)) ""
       then None
  else Some r.








End proxyx.

(** ** More sample data *)

Module samplex.
Import gostr proxy proxyx.

(** An upstream response that may be stored. *)
Definition pageResp : Response :=
  mkResponse 200 {[ "Content-Type" := ["text/html"]; "Vary" := ["Accept"; "Cookie"] ]}
             (Some "<html></html>").

(** An upstream response that may not be stored. *)
Definition notFoundResp : Response :=
  mkResponse 404 sample.plainHeader (Some "not found").

(** [sample.E0] with an upstream that answers every request with
    [resp]. *)
Definition answering (resp : Response) : Env :=
  withUpstream sample.E0 (λ _, inr resp).

Definition getReq : Request :=
  mkRequest "GET" sample.theURL ∅ "localhost:8080" "127.0.0.1:40000".

Definition postReq : Request :=
  mkRequest "POST" sample.theURL ∅ "localhost:8080" "127.0.0.1:40000".

(** [getReq] with credentials. *)
Definition authReq : Request :=
  mkRequest "GET" sample.theURL {[ "Authorization" := ["Bearer token"] ]}
    "localhost:8080" "127.0.0.1:40000".

(** A request that carries hop-by-hop and forwarding headers of its
    own. *)
Definition headedReq : Request :=
  mkRequest "GET" sample.theURL
    {[ "Accept" := ["text/html"; "*/*"];
       "Authorization" := ["Bearer token"];
       "Connection" := ["keep-alive"];
       "Proxy-Authorization" := ["Basic abc"];
       "X-Forwarded-For" := ["203.0.113.7"] ]}
    "localhost:8080" "127.0.0.1:40000".

(** One second after [sample.clk]. *)
Definition clkLater : Clock :=
  mkClock (sample.unixEpoch + 11 * Second) (sample.unixEpoch + 11 * Second)
          (sample.unixEpoch + 11 * Second) (sample.unixEpoch + 11 * Second).

End samplex.

(** ** Package proxy: stopping the pool *)

Module poolx.
Import pool.

(** [Stop], the workers taking [turns] turns while the caller waits in
    [wg.Wait()]. *)
Definition Stop (wp : WorkerPool) (turns : nat) : Outcome WorkerPool :=
  match Stop_close wp with
  | Proceeds wp1 =>
      let wp2 := Nat.iter turns worker_turn wp1 in
      match Stop_wait wp2 with
      | Proceeds _ => Proceeds wp2
      | Blocks => Blocks
      | Panics msg => Panics msg
      end
  | Blocks => Blocks
  | Panics msg => Panics msg
  end.

End poolx.

(** ** Package config *)

Module config.
Import gostr.

(** [Config] *)
Record Config := mkConfig {
  Port : Z;
  Host : string;
  ReadTimeout : Z;
  WriteTimeout : Z;
  IdleTimeout : Z;
  MaxHeaderBytes : Z;
  CacheSize : Z;
  CacheTTL : Z;
  ProxyTimeout : Z;
  AllowedDomains : list string;
  MaxConnections : Z;
  LogLevel : string;
  LogFile : string
}.

(** [NewDefaultConfig] *)
Definition NewDefaultConfig : Config :=
  mkConfig 8080 "localhost" 30 30 60 (Z.shiftl 1 20) 1024 3600 30 [] 100 "info" "".

(** [Validate]; [None] is [nil], [Some msg] the error. *)
Definition Validate (c : Config) : option string :=
  if (Port c <=? 0) || (65535 <? Port c) then
    Some ("invalid port number: " +:+ Itoa (Port c))
  else if ReadTimeout c <=? 0 then
    Some ("invalid read timeout: " +:+ Itoa (ReadTimeout c))
  else if WriteTimeout c <=? 0 then
    Some ("invalid write timeout: " +:+ Itoa (WriteTimeout c))
  else if CacheSize c <=? 0 then
    Some ("invalid cache size: " +:+ Itoa (CacheSize c))
  else if CacheTTL c <=? 0 then
    Some ("invalid cache TTL: " +:+ Itoa (CacheTTL c))
  else if ProxyTimeout c <=? 0 then
    Some ("invalid proxy timeout: " +:+ Itoa (ProxyTimeout c))
  else if MaxConnections c <=? 0 then
    Some ("invalid max connections: " +:+ Itoa (MaxConnections c))
  else None.

(** The end of [ParseFlags]: the value of the flag [-allowed-domains],
    when it is not empty, is split at the commas and each part is
    trimmed. *)
Definition ParseFlags_allowedDomains (c : Config) (allowedDomains : string) : Config :=
  if negb (String.eqb allowedDomains "") then
    mkConfig (Port c) (Host c) (ReadTimeout c) (WriteTimeout c) (IdleTimeout c)
      (MaxHeaderBytes c) (CacheSize c) (CacheTTL c) (ProxyTimeout c)
      (TrimSpace <$> Split allowedDomains ",")
      (MaxConnections c) (LogLevel c) (LogFile c)
  else c.

(** What the handler reads of the configuration. *)
Definition handlerConfig (c : Config) : proxy.Config :=
  proxy.mkConfig (CacheTTL c) (ProxyTimeout c) (AllowedDomains c) (MaxConnections c).

End config.

(** ** Package proxy: the rate limiter and the request counter *)

Module middleware.
Import gostr.

Definition StatusTooManyRequests : Z := 429.

(** [time.Minute] *)
Definition Minute : Duration := 60 * Second.

(** [strings.LastIndex(s, sep)] for a separator of one byte; [None]
    is [-1]. *)
Fixpoint LastIndexByte (s : string) (c : ascii) : option nat :=
  match s with
  | EmptyString => None
  | String x s' =>
      match LastIndexByte s' c with
      | Some i => Some (S i)
      | None => if Ascii.eqb x c then Some O else None
      end
  end.

(** [s[:n]] *)
Fixpoint take (n : nat) (s : string) : string :=
  match n, s with
  | S n', String c s' => String c (take n' s')
  | _, _ => EmptyString
  end.

(** The key of a client in [RateLimit]: [r.RemoteAddr] up to its last
    colon. *)
Definition clientIP (remoteAddr : string) : string :=
  match LastIndexByte remoteAddr ":" with
  | Some idx => take idx remoteAddr
  | None => remoteAddr
  end.

(** The record [client] of [RateLimit]. *)
Record client := mkClient {
  count : Z;
  lastAccess : Time
}.

(** The map [clients]. *)
Abbreviation Clients := (gmap string client).

(** The handler of [RateLimit], up to the call of the next handler:
    the new map, and [true] when the next handler is called, [false]
    when the request is answered with 429 "Rate limit exceeded".
    [now] and [now'] are the two readings of the clock. *)
Definition RateLimit_serve (requestsPerMinute : Z) (clients : Clients)
    (remoteAddr : string) (now now' : Time) : Clients * bool :=
  let ip := clientIP remoteAddr in
  let c := match clients !! ip with
           | Some c => c
           | None => mkClient 0 now
           end in
  let c := mkClient (wrap64 (count c + 1)) now' in
  (<[ip := c]> clients, negb (requestsPerMinute <? count c)).

(** One round of the cleaning goroutine of [RateLimit]. *)
Definition RateLimit_cleanup (clients : Clients) (now : Time) : Clients :=
  filter (λ kv, ¬ (Minute < Time_Sub now (lastAccess kv.2))) clients.

(** What happens to the limiter. *)
Inductive Event :=
| Request (remoteAddr : string) (now now' : Time)
| Cleanup (now : Time).

Definition happen (requestsPerMinute : Z) (clients : Clients) (ev : Event) : Clients :=
  match ev with
  | Request remoteAddr now now' =>
      (RateLimit_serve requestsPerMinute clients remoteAddr now now').1
  | Cleanup now => RateLimit_cleanup clients now
  end.

(** The requests of the client [ip] among the events. *)
Fixpoint requestsFrom (ip : string) (evs : list Event) : Z :=
  match evs with
  | [] => 0
  | Request remoteAddr _ _ :: evs' =>
      (if String.eqb (clientIP remoteAddr) ip then 1 else 0) + requestsFrom ip evs'
  | Cleanup _ :: evs' => requestsFrom ip evs'
  end.

(** No round of cleaning finds the client [ip] idle for more than a
    minute; [last] is its latest access so far, if any. *)
Fixpoint keptAlive (ip : string) (last : option Time) (evs : list Event) : bool :=
  match evs with
  | [] => true
  | Request remoteAddr _ now' :: evs' =>
      if String.eqb (clientIP remoteAddr) ip then keptAlive ip (Some now') evs'
      else keptAlive ip last evs'
  | Cleanup now :: evs' =>
      match last with
      | Some l => (Time_Sub now l <=? Minute) && keptAlive ip last evs'
      | None => keptAlive ip last evs'
      end
  end.

(** The handler of [RequestID], up to the call of the next handler:
    the new value of the counter [requestID] and the value set for the
    header [X-Request-ID]. *)
Definition RequestID_serve (requestID : Z) : Z * string :=
  let id := wrap64 (requestID + 1) in
  (id, Itoa id).

(** The header value given to the request that comes after [k] other
    requests. *)
Definition nthRequestID (k : nat) : string :=
  (RequestID_serve (Nat.iter k (λ requestID, (RequestID_serve requestID).1) 0)).2.

End middleware.

(** * Properties *)
(** ** Facts about the cache *)

Section cache_facts.
Import cache.

(** Membership in a list that is written out. *)
Ltac in_list := rewrite ?elem_of_cons; auto 10.
Ltac notin_list :=
  rewrite ?not_elem_of_cons; repeat split; (done || apply not_elem_of_nil).
(** The side condition of [filter_cons_False] for [list_Remove]. *)
Ltac same_elem := let H := fresh in intros H; by apply H.

Lemma wrap64_id z : inInt64 z -> wrap64 z = z.
Proof.
  unfold inInt64, wrap64, minInt64, maxInt64. intros H.
  rewrite Z.mod_small; lia.
Qed.

Lemma list_Len_nonneg l : 0 <= list_Len l.
Proof. unfold list_Len. lia. Qed.

Lemma list_Remove_length_le e l :
  (length (list_Remove e l) <= length l)%nat.
Proof. unfold list_Remove. apply length_filter. Qed.

Lemma list_Remove_length_lt e l :
  e ∈ l -> (length (list_Remove e l) < length l)%nat.
Proof.
  unfold list_Remove. induction l as [|x l IH]; intros Hin.
  - by apply elem_of_nil in Hin.
  - destruct (decide (x = e)) as [->|Hne].
    + rewrite filter_cons_False; [|same_elem].
      pose proof (length_filter (λ x, x ≠ e) l). simpl. lia.
    + rewrite filter_cons_True; [|done].
      apply elem_of_cons in Hin as [->|Hin]; [done|].
      specialize (IH Hin). simpl. lia.
Qed.

Lemma list_MoveToFront_length_le e l :
  (length (list_MoveToFront e l) <= length l)%nat.
Proof.
  unfold list_MoveToFront. case_decide; [|done].
  pose proof (list_Remove_length_lt e l H). simpl. lia.
Qed.

Lemma list_Back_elem_of l e : list_Back l = Some e -> e ∈ l.
Proof.
  unfold list_Back. intros [l' ->]%last_Some.
  apply elem_of_app. right. by apply list_elem_of_singleton.
Qed.

Lemma list_Back_None l : list_Back l = None -> l = [].
Proof. unfold list_Back. apply last_None. Qed.

(** *** The eviction loop *)

Lemma evictElement_capacity c e : capacity (evictElement c e).1 = capacity c.
Proof. done. Qed.

Lemma evictOldest_capacity c : capacity (evictOldest c).1 = capacity c.
Proof. unfold evictOldest. by destruct (list_Back _). Qed.

Lemma evictOldest_length c :
  evictionList c ≠ [] ->
  (length (evictionList (evictOldest c).1) < length (evictionList c))%nat.
Proof.
  intros Hne. unfold evictOldest.
  destruct (list_Back (evictionList c)) as [e|] eqn:Hb.
  - simpl. apply list_Remove_length_lt. by apply list_Back_elem_of.
  - by apply list_Back_None in Hb.
Qed.

Lemma evictLoop_done fuel c :
  ¬ capacity c < list_Len (evictionList c) -> evictLoop fuel c = Some c.
Proof. intros H. destruct fuel; simpl; by rewrite decide_False. Qed.

Lemma evictLoop_step fuel c :
  capacity c < list_Len (evictionList c) ->
  evictLoop (S fuel) c = evictLoop fuel (evictOldest c).1.
Proof. intros H. simpl. by rewrite decide_True. Qed.

(** With a negative capacity the loop condition never becomes false:
    the loop of [Set] does not terminate, whatever the fuel. *)
Lemma evictLoop_negative_capacity fuel c :
  capacity c < 0 -> evictLoop fuel c = None.
Proof.
  revert c. induction fuel as [|fuel IH]; intros c Hc; simpl.
  - case_decide as Hd; [done|]. pose proof (list_Len_nonneg (evictionList c)). lia.
  - case_decide as Hd.
    + apply IH. by rewrite evictOldest_capacity.
    + pose proof (list_Len_nonneg (evictionList c)). lia.
Qed.

(** With a capacity that is not negative, as many iterations as the
    list has elements are enough. *)
Lemma evictLoop_fuel_enough fuel c :
  0 <= capacity c -> (length (evictionList c) <= fuel)%nat ->
  ∃ c', evictLoop fuel c = Some c' ∧ capacity c' = capacity c
        ∧ list_Len (evictionList c') <= capacity c'.
Proof.
  revert c. induction fuel as [|fuel IH]; intros c Hc Hlen; simpl.
  - case_decide as Hd.
    + unfold list_Len in Hd. lia.
    + exists c. split_and!; [done..|lia].
  - case_decide as Hd.
    + destruct (IH (evictOldest c).1) as (c' & Hrun & Hcap & Hle).
      * by rewrite evictOldest_capacity.
      * assert (evictionList c ≠ []) as Hne.
        { intros Heq. rewrite Heq in Hd. unfold list_Len in Hd. simpl in Hd. lia. }
        pose proof (evictOldest_length c Hne). lia.
      * exists c'. rewrite Hcap, evictOldest_capacity in *. done.
    + exists c. split_and!; [done..|lia].
Qed.

Lemma evictLoop_more_fuel fuel fuel' c c' :
  evictLoop fuel c = Some c' -> (fuel <= fuel')%nat ->
  evictLoop fuel' c = Some c'.
Proof.
  revert fuel' c. induction fuel as [|fuel IH]; intros fuel' c; simpl.
  - case_decide; [done|]. intros [= <-] _. destruct fuel'; simpl; by case_decide.
  - case_decide as Hd.
    + intros Hrun Hle. destruct fuel' as [|fuel']; [lia|]. simpl.
      case_decide; [|done]. apply IH; [done|lia].
    + intros [= <-] _. destruct fuel'; simpl; by case_decide.
Qed.

(** The fuel used by [Set_] loses no result: whenever some fuel makes
    the loop return, so does the fuel of [Set_]. *)
Lemma evictLoop_fuel_complete fuel c c' :
  evictLoop fuel c = Some c' ->
  evictLoop (S (length (evictionList c))) c = Some c'.
Proof.
  intros Hrun.
  destruct (decide (capacity c < 0)) as [Hneg|Hpos].
  - by rewrite evictLoop_negative_capacity in Hrun.
  - destruct (evictLoop_fuel_enough (S (length (evictionList c))) c)
      as (c'' & Hrun' & _); [lia..|].
    destruct (decide (fuel <= S (length (evictionList c)))%nat).
    + by apply (evictLoop_more_fuel fuel).
    + pose proof (evictLoop_more_fuel _ fuel _ _ Hrun' ltac:(lia)). congruence.
Qed.

Lemma Set__capacity c key value ttl now now' c' b :
  Set_ c key value ttl now now' = Some (c', b) -> capacity c' = capacity c.
Proof.
  unfold Set_. destruct (items c !! key) as [e|].
  - by intros [= <- <-].
  - intros Hrun. apply bind_Some in Hrun as (c2 & Hloop & [= <- <-]).
    destruct (decide (capacity c < 0)) as [Hneg|Hpos].
    + by rewrite evictLoop_negative_capacity in Hloop.
    + match type of Hloop with evictLoop ?f ?c1 = _ =>
        destruct (evictLoop_fuel_enough f c1) as (c'' & Hrun' & Hcap & _);
          [simpl; lia | simpl; lia |] end.
      by simplify_eq.
Qed.

(** *** Size never exceeds a capacity that is not negative *)

Lemma Set__size_ok C c key value ttl now now' :
  0 <= C -> size_ok C c ->
  ∃ c' b, Set_ c key value ttl now now' = Some (c', b) ∧ size_ok C c'.
Proof.
  intros HC [Hcap Hsz]. unfold Set_.
  destruct (items c !! key) as [e|].
  - eexists _, _. split; [done|]. split; [done|].
    unfold Size_, list_Len in *. simpl.
    pose proof (list_MoveToFront_length_le e (evictionList c)). lia.
  - match goal with |- context [evictLoop ?f ?c1] =>
      destruct (evictLoop_fuel_enough f c1) as (c2 & Hrun & Hcap2 & Hle);
        [simpl; lia | simpl; lia |] end.
    rewrite Hrun. simpl. eexists _, _. split; [done|].
    simpl in Hcap2. split; [congruence|]. unfold Size_. lia.
Qed.

Lemma Get_size_ok C c key now : size_ok C c -> size_ok C (Get c key now).1.
Proof.
  intros [Hcap Hsz]. unfold Get, Get_finish, Get_probe.
  destruct (items c !! key) as [e|]; [|done].
  case_match; (split; [done|]); unfold Size_, list_Len in *; simpl.
  - pose proof (list_Remove_length_le e (evictionList c)). lia.
  - pose proof (list_MoveToFront_length_le e (evictionList c)). lia.
Qed.

Lemma Remove_size_ok C c key : size_ok C c -> size_ok C (Remove c key).1.
Proof.
  intros [Hcap Hsz]. unfold Remove.
  destruct (items c !! key) as [e|]; [|done].
  split; [done|]. unfold Size_, list_Len in *; simpl.
  pose proof (list_Remove_length_le e (evictionList c)). lia.
Qed.

Lemma step_size_ok C c o :
  0 <= C -> size_ok C c -> ∃ c', step c o = Some c' ∧ size_ok C c'.
Proof.
  intros HC Hok. destruct o as [key value ttl now now'|key now|key|]; simpl.
  - destruct (Set__size_ok C c key value ttl now now' HC Hok) as (c' & b & -> & ?).
    by exists c'.
  - eexists. split; [done|]. by apply Get_size_ok.
  - eexists. split; [done|]. by apply Remove_size_ok.
  - eexists. split; [done|]. destruct Hok. split; [done|]. unfold Size_, list_Len. simpl. lia.
Qed.

Lemma run_size_ok C c ops :
  0 <= C -> size_ok C c -> ∃ c', run c ops = Some c' ∧ size_ok C c'.
Proof.
  intros HC. revert c. induction ops as [|o ops IH]; intros c Hok; simpl.
  - by exists c.
  - destruct (step_size_ok C c o HC Hok) as (c1 & -> & Hok1). simpl. by apply IH.
Qed.

(** *** A cache of capacity 0 holds nothing *)

Lemma step_is_sink c o : is_sink c -> ∃ c', step c o = Some c' ∧ is_sink c'.
Proof.
  intros (Hcap & Hl & Hi).
  destruct o as [key value ttl now now'|key now|key|]; simpl.
  - unfold Set_. rewrite Hi, lookup_empty.
    match goal with |- context [evictLoop (S ?f) ?c1] =>
      set (c1' := c1); rewrite (evictLoop_step _ c1') end.
    2:{ unfold c1', list_Len. simpl. rewrite Hl. simpl. lia. }
    assert (is_sink (evictOldest c1').1) as Hs.
    { unfold evictOldest, c1'. simpl. rewrite Hl. simpl.
      rewrite fn_lookup_insert. simpl.
      split_and!; simpl; [done| |].
      - unfold list_Remove. by rewrite filter_cons_False by same_elem.
      - by rewrite delete_insert_eq, delete_empty. }
    rewrite evictLoop_done.
    + simpl. by eexists.
    + destruct Hs as (-> & -> & _). unfold list_Len. simpl. lia.
  - eexists. split; [done|]. unfold Get, Get_probe. rewrite Hi, lookup_empty. done.
  - eexists. split; [done|]. unfold Remove. rewrite Hi, lookup_empty. done.
  - eexists. split; [done|]. done.
Qed.

Lemma run_is_sink c ops : is_sink c -> ∃ c', run c ops = Some c' ∧ is_sink c'.
Proof.
  revert c. induction ops as [|o ops IH]; intros c Hs; simpl.
  - by exists c.
  - destruct (step_is_sink c o Hs) as (c1 & -> & Hs1). simpl. by apply IH.
Qed.

(** *** The index and the list agree *)

Lemma filter_ne_notin (x : nat) (l : list nat) : x ∉ l -> filter (λ y, y ≠ x) l = l.
Proof.
  induction l as [|y l IH]; [done|]. intros Hn.
  apply not_elem_of_cons in Hn as [Hne Hn].
  rewrite filter_cons_True by done. by rewrite IH.
Qed.

Lemma list_Remove_snoc x (l : list nat) : NoDup (l ++ [x]) -> list_Remove x (l ++ [x]) = l.
Proof.
  intros Hnd. apply list.NoDup_app in Hnd as (_ & Hdisj & _).
  unfold list_Remove. rewrite list.filter_app, filter_ne_notin.
  - rewrite filter_cons_False by same_elem. by rewrite filter_nil, app_nil_r.
  - intros Hin. apply (Hdisj x Hin). by apply list_elem_of_singleton.
Qed.

Lemma elem_of_list_Remove e x (l : list nat) : x ∈ list_Remove e l <-> x ∈ l ∧ x ≠ e.
Proof. unfold list_Remove. rewrite list_elem_of_filter. tauto. Qed.

Lemma NoDup_list_Remove e (l : list nat) : NoDup l -> NoDup (list_Remove e l).
Proof. apply list.NoDup_filter. Qed.

Lemma elem_of_list_MoveToFront e x (l : list nat) : x ∈ list_MoveToFront e l <-> x ∈ l.
Proof.
  unfold list_MoveToFront. case_decide as Hin; [|done].
  rewrite elem_of_cons, elem_of_list_Remove.
  destruct (decide (x = e)) as [->|Hne].
  - split; [done|by left].
  - split; [by intros [?|[? _]]|by right].
Qed.

Lemma NoDup_list_MoveToFront e (l : list nat) : NoDup l -> NoDup (list_MoveToFront e l).
Proof.
  intros Hnd. unfold list_MoveToFront. case_decide; [|done].
  apply list.NoDup_cons. split; [|by apply NoDup_list_Remove].
  rewrite elem_of_list_Remove. by intros [_ ?].
Qed.

Lemma wf_parts_MoveToFront e l its ev nx :
  wf_parts l its ev nx -> wf_parts (list_MoveToFront e l) its ev nx.
Proof.
  intros (Hnd & Hfresh & Hidx). split_and!.
  - by apply NoDup_list_MoveToFront.
  - intros x. rewrite elem_of_list_MoveToFront. apply Hfresh.
  - intros k x. rewrite elem_of_list_MoveToFront. apply Hidx.
Qed.

Lemma wf_parts_Remove e l its ev nx :
  wf_parts l its ev nx -> e ∈ l ->
  wf_parts (list_Remove e l) (delete (Key (ev e)) its) ev nx.
Proof.
  intros (Hnd & Hfresh & Hidx) Hin. split_and!.
  - by apply NoDup_list_Remove.
  - intros x [Hx _]%elem_of_list_Remove. by apply Hfresh.
  - intros k x. rewrite elem_of_list_Remove, lookup_delete_Some, Hidx. split.
    + intros (Hk & Hx & Hkx). split_and!; [done| |done]. intros ->. done.
    + intros ((Hx & Hne) & Hkx). split_and!; [|done..].
      intros Hk. apply Hne.
      assert (its !! k = Some x) as H1 by (apply Hidx; done).
      assert (its !! k = Some e) as H2 by (apply Hidx; done).
      congruence.
Qed.

Lemma wf_parts_update e l its ev nx item :
  wf_parts l its ev nx -> its !! Key item = Some e ->
  wf_parts l its (<[e := item]> ev) nx.
Proof.
  intros (Hnd & Hfresh & Hidx) Hl. split_and!; [done..|].
  intros k x. rewrite Hidx. destruct (decide (x = e)) as [->|Hne].
  - rewrite fn_lookup_insert. apply Hidx in Hl as [_ Hk]. by rewrite Hk.
  - by rewrite fn_lookup_insert_ne.
Qed.

Lemma wf_parts_PushFront l its ev nx item :
  wf_parts l its ev nx -> its !! Key item = None ->
  wf_parts (nx :: l) (<[Key item := nx]> its) (<[nx := item]> ev) (S nx).
Proof.
  intros (Hnd & Hfresh & Hidx) Hnone.
  assert (nx ∉ l) as Hnx by (intros Hin%Hfresh; lia).
  split_and!.
  - by apply list.NoDup_cons.
  - intros x [->|Hx%Hfresh]%elem_of_cons; lia.
  - intros k x. rewrite elem_of_cons, lookup_insert_Some. split.
    + intros [[<- <-]|[Hne Hl]].
      * rewrite fn_lookup_insert. auto.
      * apply Hidx in Hl as [Hx Hk].
        rewrite fn_lookup_insert_ne by (intros ->; done). auto.
    + intros [[->|Hx] Hk].
      * rewrite fn_lookup_insert in Hk. auto.
      * assert (x ≠ nx) as Hne by (intros ->; done).
        rewrite fn_lookup_insert_ne in Hk by done. right. split.
        -- intros <-. assert (its !! Key item = Some x) as Hs by (apply Hidx; done).
           congruence.
        -- by apply Hidx.
Qed.

Lemma wf_NewLRUCache C : wf (NewLRUCache C).
Proof.
  split_and!; simpl.
  - constructor.
  - intros e Hin. by apply elem_of_nil in Hin.
  - intros k e. rewrite lookup_empty. split; [done|]. intros [Hin _].
    by apply elem_of_nil in Hin.
Qed.

Lemma wf_lookup_elem_of c k e : wf c -> items c !! k = Some e -> e ∈ evictionList c.
Proof. intros (_ & _ & Hidx) Hl. by apply Hidx in Hl as [? _]. Qed.

Lemma wf_evictElement c e : wf c -> e ∈ evictionList c -> wf (evictElement c e).1.
Proof. intros Hwf Hin. by apply wf_parts_Remove. Qed.

Lemma wf_evictOldest c : wf c -> wf (evictOldest c).1.
Proof.
  intros Hwf. unfold evictOldest.
  destruct (list_Back (evictionList c)) as [e|] eqn:Hb; [|done].
  apply wf_evictElement; [done|]. by apply list_Back_elem_of.
Qed.

Lemma wf_evictLoop fuel c c' : wf c -> evictLoop fuel c = Some c' -> wf c'.
Proof.
  revert c. induction fuel as [|fuel IH]; intros c Hwf; simpl.
  - case_decide; [done|]. by intros [= <-].
  - case_decide; [|by intros [= <-]]. apply IH. by apply wf_evictOldest.
Qed.

Lemma wf_Set_ c key value ttl now now' c' b :
  wf c -> Set_ c key value ttl now now' = Some (c', b) -> wf c'.
Proof.
  intros Hwf. unfold Set_. destruct (items c !! key) as [e|] eqn:Hl.
  - intros [= <- <-]. unfold wf. simpl.
    apply wf_parts_MoveToFront. by apply wf_parts_update.
  - intros Hrun. apply bind_Some in Hrun as (c2 & Hloop & [= <- <-]).
    eapply wf_evictLoop; [|done]. unfold wf. simpl.
    match goal with |- context [<[_ := ?it]> (elemValue c)] =>
      apply (wf_parts_PushFront _ _ _ _ it) end; done.
Qed.

Lemma wf_Get c key now : wf c -> wf (Get c key now).1.
Proof.
  intros Hwf. unfold Get, Get_probe, Get_finish.
  destruct (items c !! key) as [e|] eqn:Hl; [|done].
  case_match; unfold wf; simpl.
  - apply wf_parts_Remove; [done|]. by eapply wf_lookup_elem_of.
  - by apply wf_parts_MoveToFront.
Qed.

Lemma wf_Remove c key : wf c -> wf (Remove c key).1.
Proof.
  intros Hwf. unfold Remove. destruct (items c !! key) as [e|] eqn:Hl; [|done].
  apply wf_evictElement; [done|]. by eapply wf_lookup_elem_of.
Qed.

Lemma wf_Clear c : wf c -> wf (Clear c).
Proof.
  intros (_ & _ & _). split_and!; simpl.
  - constructor.
  - intros e Hin. by apply elem_of_nil in Hin.
  - intros k e. rewrite lookup_empty. split; [done|]. intros [Hin _].
    by apply elem_of_nil in Hin.
Qed.

Lemma wf_step c o c' : wf c -> step c o = Some c' -> wf c'.
Proof.
  intros Hwf. destruct o as [key value ttl now now'|key now|key|]; simpl.
  - destruct (Set_ c key value ttl now now') as [[c1 b]|] eqn:HS; [|done].
    intros [= <-]. by eapply wf_Set_.
  - intros [= <-]. by apply wf_Get.
  - intros [= <-]. by apply wf_Remove.
  - intros [= <-]. by apply wf_Clear.
Qed.

Lemma wf_run c ops c' : wf c -> run c ops = Some c' -> wf c'.
Proof.
  revert c. induction ops as [|o ops IH]; intros c Hwf; simpl.
  - by intros [= <-].
  - destruct (step c o) as [c1|] eqn:Hs; [|done]. simpl.
    apply IH. by eapply wf_step.
Qed.

(** The keys of the index are the keys of the list. *)
Lemma wf_items_keys c k : wf c -> is_Some (items c !! k) <-> k ∈ keys c.
Proof.
  intros (_ & _ & Hidx). unfold keys. rewrite list_elem_of_fmap. split.
  - intros [e He]. apply Hidx in He as [Hin Hk]. by exists e.
  - intros (e & -> & Hin). exists e. by apply Hidx.
Qed.

(** *** Recency order *)

Lemma fmap_fn_insert_fresh (ev : nat -> CacheItem) nx item (l : list nat) :
  nx ∉ l ->
  (λ e, Key ((<[nx := item]> ev) e)) <$> l = (λ e, Key (ev e)) <$> l.
Proof.
  intros Hn. apply list_fmap_ext. intros i e Hi.
  rewrite fn_lookup_insert_ne; [done|]. intros ->.
  apply Hn. by eapply list_elem_of_lookup_2.
Qed.

(** A new key inserted below capacity goes to the front and nothing
    is evicted. *)
Lemma Set__new_below_capacity c key value ttl now now' :
  wf c -> Size_ c < capacity c -> items c !! key = None ->
  ∃ c', Set_ c key value ttl now now' = Some (c', true)
        ∧ keys c' = key :: keys c ∧ evictions c' = evictions c.
Proof.
  intros Hwf Hlt Hnone. unfold Set_. rewrite Hnone.
  match goal with |- context [evictLoop ?f ?c1] => set (c1' := c1) end.
  rewrite evictLoop_done.
  2:{ unfold c1', Size_, list_Len in *. simpl. lia. }
  simpl. eexists. split; [done|]. split; [|done].
  unfold keys, c1'. simpl. rewrite fn_lookup_insert. simpl. f_equal.
  apply fmap_fn_insert_fresh. destruct Hwf as (_ & Hfresh & _).
  intros Hin%Hfresh. lia.
Qed.

(** A new key inserted at capacity goes to the front and exactly the
    key at the back of the recency order is evicted. *)
Lemma Set__new_at_capacity c key value ttl now now' :
  wf c -> 0 < capacity c -> Size_ c = capacity c -> items c !! key = None ->
  ∃ c', Set_ c key value ttl now now' = Some (c', true)
        ∧ keys c' = key :: removelast (keys c)
        ∧ Size_ c' = capacity c
        ∧ evictions c' = incr64 (evictions c).
Proof.
  intros Hwf Hpos Hfull Hnone.
  destruct (list.last (evictionList c)) as [x|] eqn:Hlast.
  2:{ apply last_None in Hlast. unfold Size_, list_Len in Hfull.
      rewrite Hlast in Hfull. simpl in Hfull. lia. }
  apply last_Some in Hlast as [l Hl].
  pose proof Hwf as (Hnd & Hfresh & Hidx).
  assert (nextElem c ∉ evictionList c) as Hnx by (intros Hin%Hfresh; lia).
  unfold Set_. rewrite Hnone.
  match goal with |- context [evictLoop ?f ?c1] => set (c1' := c1) end.
  rewrite (evictLoop_step _ c1').
  2:{ unfold c1', Size_, list_Len in *. simpl. lia. }
  assert (list_Back (evictionList c1') = Some x) as Hback.
  { unfold c1', list_Back. simpl. rewrite Hl, app_comm_cons. apply last_snoc. }
  unfold evictOldest. rewrite Hback.
  assert (evictionList (evictElement c1' x).1 = nextElem c :: l) as Hlist.
  { unfold c1'. simpl. rewrite Hl, app_comm_cons. apply list_Remove_snoc.
    rewrite <- app_comm_cons, <- Hl. by apply list.NoDup_cons. }
  rewrite evictLoop_done.
  2:{ rewrite Hlist. unfold c1', Size_, list_Len in *. simpl.
      rewrite Hl, length_app in Hfull. simpl in Hfull. lia. }
  exists (evictElement c1' x).1. split; [done|]. split_and!.
  - unfold keys. rewrite Hlist. unfold c1'. simpl. rewrite fn_lookup_insert. simpl.
    f_equal. rewrite Hl, fmap_app. simpl. rewrite removelast_last.
    apply fmap_fn_insert_fresh. rewrite Hl in Hnx.
    intros Hin. apply Hnx, elem_of_app. by left.
  - unfold Size_. rewrite Hlist. unfold Size_, list_Len in *.
    rewrite Hl, length_app in Hfull. simpl in *. lia.
  - done.
Qed.

Lemma fmap_list_Remove_inj (f : nat -> string) e (l : list nat) :
  (∀ x, x ∈ l -> f x = f e -> x = e) ->
  f <$> list_Remove e l = filter (λ k, k ≠ f e) (f <$> l).
Proof.
  unfold list_Remove. induction l as [|y l IH]; intros Hinj; [done|].
  rewrite fmap_cons. destruct (decide (y = e)) as [->|Hne].
  - rewrite !filter_cons_False by same_elem. apply IH.
    intros x Hx. apply Hinj. by right.
  - rewrite !filter_cons_True; [| |done].
    + rewrite fmap_cons. f_equal. apply IH. intros x Hx. apply Hinj. by right.
    + intros Heq. apply Hne, Hinj; [by left|done].
Qed.

Lemma wf_key_inj c k e x :
  wf c -> items c !! k = Some e -> x ∈ evictionList c ->
  Key (elemValue c x) = Key (elemValue c e) -> x = e.
Proof.
  intros (_ & _ & Hidx) Hl Hx Heq.
  pose proof Hl as [_ Hk]%Hidx.
  assert (items c !! k = Some x) as Hl' by (apply Hidx; split; congruence).
  congruence.
Qed.

(** A successful read moves the key to the front and keeps the others
    in their order. *)
Lemma Get_hit_keys c key now e :
  wf c -> items c !! key = Some e ->
  negb (Time_IsZero (ExpiresAt (elemValue c e)))
    && Time_After now (ExpiresAt (elemValue c e)) = false ->
  (Get c key now).2 = Some (elemValue c e) ∧
  keys (Get c key now).1 = key :: filter (λ k, k ≠ key) (keys c).
Proof.
  intros Hwf Hl Hlive. unfold Get, Get_probe, Get_finish. rewrite Hl, Hlive.
  split; [done|]. unfold keys. simpl.
  pose proof Hwf as (_ & _ & Hidx). pose proof Hl as [Hin Hk]%Hidx.
  unfold list_MoveToFront. rewrite decide_True by done.
  rewrite fmap_cons, Hk. f_equal. rewrite <- Hk.
  apply (fmap_list_Remove_inj (λ x, Key (elemValue c x))).
  intros x Hx Heq. by eapply wf_key_inj.
Qed.

(** An update moves the key to the front and keeps the others in
    their order. *)
Lemma Set__update_keys c key value ttl now now' e :
  wf c -> items c !! key = Some e ->
  ∃ c', Set_ c key value ttl now now' = Some (c', false) ∧
        keys c' = key :: filter (λ k, k ≠ key) (keys c).
Proof.
  intros Hwf Hl. unfold Set_. rewrite Hl. eexists. split; [done|].
  pose proof Hwf as (_ & _ & Hidx). pose proof Hl as [Hin Hk]%Hidx.
  unfold keys. simpl. unfold list_MoveToFront. rewrite decide_True by done.
  rewrite fmap_cons, fn_lookup_insert. simpl. f_equal.
  trans ((λ x, Key (elemValue c x)) <$> list_Remove e (evictionList c)).
  - apply list_fmap_ext. intros i x Hi. rewrite fn_lookup_insert_ne; [done|].
    intros ->. apply list_elem_of_lookup_2, elem_of_list_Remove in Hi.
    by destruct Hi.
  - rewrite (fmap_list_Remove_inj (λ x, Key (elemValue c x))).
    + by rewrite Hk.
    + intros x Hx Heq. by eapply wf_key_inj.
Qed.

(** *** Entries stored without expiry *)

Lemma no_expiry_evictOldest c : no_expiry c -> no_expiry (evictOldest c).1.
Proof.
  intros Hn. unfold evictOldest. destruct (list_Back (evictionList c)); [|done].
  intros e [He _]%elem_of_list_Remove. by apply Hn.
Qed.

Lemma no_expiry_evictLoop fuel c c' :
  no_expiry c -> evictLoop fuel c = Some c' -> no_expiry c'.
Proof.
  revert c. induction fuel as [|fuel IH]; intros c Hn; simpl.
  - case_decide; [done|]. by intros [= <-].
  - case_decide; [|by intros [= <-]]. apply IH. by apply no_expiry_evictOldest.
Qed.

Lemma no_expiry_Set_ c key value ttl now now' c' b :
  ttl <= 0 -> no_expiry c ->
  Set_ c key value ttl now now' = Some (c', b) -> no_expiry c'.
Proof.
  intros Httl Hn. unfold Set_.
  assert ((0 <? ttl) = false) as -> by (apply Z.ltb_ge; lia).
  destruct (items c !! key) as [e|].
  - intros [= <- <-] x Hx. simpl in *.
    apply elem_of_list_MoveToFront in Hx.
    destruct (decide (x = e)) as [->|Hne].
    + by rewrite fn_lookup_insert.
    + rewrite fn_lookup_insert_ne by done. by apply Hn.
  - intros Hrun. apply bind_Some in Hrun as (c2 & Hloop & [= <- <-]).
    eapply no_expiry_evictLoop; [|done].
    intros x Hx. simpl in *. destruct (decide (x = nextElem c)) as [->|Hne].
    + by rewrite fn_lookup_insert.
    + rewrite fn_lookup_insert_ne by done.
      apply elem_of_cons in Hx as [?|Hx]; [done|]. by apply Hn.
Qed.

Lemma no_expiry_Get c key now : no_expiry c -> no_expiry (Get c key now).1.
Proof.
  intros Hn. unfold Get, Get_probe, Get_finish.
  destruct (items c !! key) as [e|]; [|done].
  case_match; intros x Hx; simpl in *.
  - apply elem_of_list_Remove in Hx as [Hx _]. by apply Hn.
  - apply elem_of_list_MoveToFront in Hx. by apply Hn.
Qed.

(** A key stored without expiry is found by [Get], whatever the time. *)
Lemma Get_no_expiry_keys c key now :
  wf c -> no_expiry c -> key ∈ keys c ->
  is_Some (Get c key now).2 ∧
  keys (Get c key now).1 = key :: filter (λ k, k ≠ key) (keys c).
Proof.
  intros Hwf Hn Hk. apply wf_items_keys in Hk as [e He]; [|done].
  destruct (Get_hit_keys c key now e Hwf He) as [Hr Hkeys].
  - rewrite Hn by (by eapply wf_lookup_elem_of). done.
  - rewrite Hr. eauto.
Qed.

Lemma Size__keys c : Size_ c = Z.of_nat (length (keys c)).
Proof. unfold Size_, list_Len, keys. by rewrite length_fmap. Qed.

Lemma wf_items_None c k : wf c -> k ∉ keys c -> items c !! k = None.
Proof.
  intros Hwf Hk. apply eq_None_not_Some. by rewrite wf_items_keys.
Qed.

Lemma run_Set c key value ttl now now' c' b ops :
  Set_ c key value ttl now now' = Some (c', b) ->
  run c (OpSet key value ttl now now' :: ops) = run c' ops.
Proof. intros H. simpl. by rewrite H. Qed.

Lemma run_Get c key now ops :
  run c (OpGet key now :: ops) = run (Get c key now).1 ops.
Proof. done. Qed.

Lemma run_app c ops1 ops2 :
  run c (ops1 ++ ops2) = c' ← run c ops1; run c' ops2.
Proof.
  revert c. induction ops1 as [|o ops1 IH]; intros c; simpl; [done|].
  destruct (step c o); simpl; [apply IH|done].
Qed.

(** C2.  On a cache built with a capacity [C] that is not negative,
    every call returns and, after each call of a sequence ([Set], and
    any [Get], [Remove] or [Clear] in between), [Size()] is at most
    [C].  With [C = 0] the size is [0] after every call and no [Get],
    of any key, finds anything. *)
Theorem Set_size_within_capacity (C : Z) (ops : list Op) (n : nat) :
  0 <= C ->
  ∃ c, run (NewLRUCache C) (take n ops) = Some c
       ∧ Capacity c = C
       ∧ Size_ c <= C
       ∧ (C = 0 -> Size_ c = 0 ∧ ∀ key now, (Get c key now).2 = None).
Proof.
  intros HC.
  destruct (run_size_ok C (NewLRUCache C) (take n ops) HC) as (c & Hrun & Hcap & Hsz).
  { split; [done|]. unfold Size_, list_Len. simpl. lia. }
  exists c. split_and!; [done..|].
  intros ->.
  destruct (run_is_sink (NewLRUCache 0) (take n ops)) as (c' & Hrun' & _ & Hl & Hi).
  { done. }
  assert (c' = c) as -> by congruence.
  split.
  - unfold Size_, list_Len. by rewrite Hl.
  - intros key now. unfold Get, Get_probe. by rewrite Hi, lookup_empty.
Qed.

Lemma Set_size_within_capacity_witness :
  ∃ c, run (NewLRUCache 0)
         (take 2 [OpSet "key" "value" 0 1 1; OpSet "k2" "v" 5 2 2; OpClear]) = Some c
       ∧ Capacity c = 0
       ∧ Size_ c <= 0
       ∧ (0 = 0 -> Size_ c = 0 ∧ ∀ key now, (Get c key now).2 = None).
Proof.
  apply (Set_size_within_capacity 0
           [OpSet "key" "value" 0 1 1; OpSet "k2" "v" 5 2 2; OpClear] 2).
  lia.
Defined.


(** The scenario of the eviction test, for arbitrary values and clock
    readings. *)
Lemma lru_scenario va vb vc vd t1 t1' t2 t2' t3 t3' t4 t5 t5' :
  ∃ c, run (NewLRUCache 3)
         [OpSet "a" va 0 t1 t1'; OpSet "b" vb 0 t2 t2';
          OpSet "c" vc 0 t3 t3'; OpGet "a" t4; OpSet "d" vd 0 t5 t5'] = Some c
       ∧ wf c ∧ keys c = ["d"; "a"; "c"].
Proof.
  pose proof (wf_NewLRUCache 3) as Hwf0.
  assert (no_expiry (NewLRUCache 3)) as Hn0.
  { intros e He. by apply elem_of_nil in He. }
  assert (keys (NewLRUCache 3) = []) as Hk0 by done.
  assert (capacity (NewLRUCache 3) = 3) as Hc0 by done.
  generalize dependent (NewLRUCache 3). intros c0 Hwf0 Hn0 Hk0 Hc0.
  (* Set(a) *)
  destruct (Set__new_below_capacity c0 "a" va 0 t1 t1') as (c1 & HS1 & Hk1 & _);
    [done | rewrite Size__keys, Hk0, Hc0; simpl; lia
     | apply wf_items_None; [done|]; rewrite Hk0; notin_list |].
  pose proof (wf_Set_ _ _ _ _ _ _ _ _ Hwf0 HS1) as Hwf1.
  assert (no_expiry _) as Hn1 by (eapply no_expiry_Set_; [|exact Hn0|exact HS1]; lia).
  pose proof (Set__capacity _ _ _ _ _ _ _ _ HS1) as Hc1.
  rewrite Hk0 in Hk1. rewrite Hc0 in Hc1.
  (* Set(b) *)
  destruct (Set__new_below_capacity c1 "b" vb 0 t2 t2') as (c2 & HS2 & Hk2 & _);
    [done | rewrite Size__keys, Hk1, Hc1; simpl; lia
     | apply wf_items_None; [done|]; rewrite Hk1; notin_list |].
  pose proof (wf_Set_ _ _ _ _ _ _ _ _ Hwf1 HS2) as Hwf2.
  assert (no_expiry _) as Hn2 by (eapply no_expiry_Set_; [|exact Hn1|exact HS2]; lia).
  pose proof (Set__capacity _ _ _ _ _ _ _ _ HS2) as Hc2.
  rewrite Hk1 in Hk2. rewrite Hc1 in Hc2.
  (* Set(c) *)
  destruct (Set__new_below_capacity c2 "c" vc 0 t3 t3') as (c3 & HS3 & Hk3 & _);
    [done | rewrite Size__keys, Hk2, Hc2; simpl; lia
     | apply wf_items_None; [done|]; rewrite Hk2; notin_list |].
  pose proof (wf_Set_ _ _ _ _ _ _ _ _ Hwf2 HS3) as Hwf3.
  assert (no_expiry _) as Hn3 by (eapply no_expiry_Set_; [|exact Hn2|exact HS3]; lia).
  pose proof (Set__capacity _ _ _ _ _ _ _ _ HS3) as Hc3.
  rewrite Hk2 in Hk3. rewrite Hc2 in Hc3.
  (* Get(a) *)
  destruct (Get_no_expiry_keys c3 "a" t4 Hwf3 Hn3) as [_ Hk4];
    [rewrite Hk3; in_list|].
  pose proof (wf_Get c3 "a" t4 Hwf3) as Hwf4.
  assert (capacity (Get c3 "a" t4).1 = 3) as Hc4.
  { destruct (Get_size_ok 3 c3 "a" t4) as [? _]; [|done].
    split; [done|]. rewrite Size__keys, Hk3. simpl. lia. }
  rewrite Hk3 in Hk4.
  assert (filter (λ k, k ≠ "a") ["c"; "b"; "a"] = ["c"; "b"]) as Hf by done.
  rewrite Hf in Hk4. clear Hf.
  (* Set(d) *)
  destruct (Set__new_at_capacity (Get c3 "a" t4).1 "d" vd 0 t5 t5')
    as (c5 & HS5 & Hk5 & _);
    [done | lia | rewrite Size__keys, Hk4, Hc4; simpl; lia
     | apply wf_items_None; [done|]; rewrite Hk4; notin_list |].
  pose proof (wf_Set_ _ _ _ _ _ _ _ _ Hwf4 HS5) as Hwf5.
  rewrite Hk4 in Hk5. simpl in Hk5.
  exists c5. split_and!; [|done..].
  rewrite (run_Set _ _ _ _ _ _ _ _ _ HS1), (run_Set _ _ _ _ _ _ _ _ _ HS2),
    (run_Set _ _ _ _ _ _ _ _ _ HS3), run_Get, (run_Set _ _ _ _ _ _ _ _ _ HS5).
  done.
Qed.

(** *** The recency order is the order of the last touches *)

Lemma lastTouch_lt log k t : lastTouch log k = Some t -> (t < length log)%nat.
Proof.
  revert t. induction log as [|k' log IH]; intros t; simpl; [done|].
  destruct (lastTouch log k) as [t'|].
  - intros [= <-]. specialize (IH t' eq_refl). lia.
  - case_decide; [|done]. intros [= <-]. lia.
Qed.

Lemma lastTouch_snoc log k :
  lastTouch (log ++ [k]) k = Some (length log).
Proof.
  induction log as [|k' log IH]; simpl.
  - by rewrite decide_True.
  - by rewrite IH.
Qed.

Lemma lastTouch_snoc_ne log k k' :
  k' ≠ k -> lastTouch (log ++ [k]) k' = lastTouch log k'.
Proof.
  intros Hne. induction log as [|k0 log IH]; simpl.
  - by rewrite decide_False.
  - by rewrite IH.
Qed.

Lemma recencyOrdered_sublist log l l' :
  l' `sublist_of` l -> recencyOrdered log l -> recencyOrdered log l'.
Proof.
  intros Hsub [Hs Hall]. split.
  - clear Hall. induction Hsub as [|x l1 l2 Hsub IH|x l1 l2 Hsub IH].
    + constructor.
    + apply StronglySorted_cons in Hs as [Hx Hs].
      apply StronglySorted_cons. split; [|by apply IH].
      apply list.Forall_forall. intros y Hy.
      rewrite list.Forall_forall in Hx. apply Hx. by eapply elem_of_sublist.
    + apply StronglySorted_cons in Hs as [_ Hs]. by apply IH.
  - intros k Hk. apply Hall. by eapply elem_of_sublist.
Qed.

(** A touch of [k] puts [k] before all the others. *)
Lemma recencyOrdered_touch log l l' k :
  l' `sublist_of` k :: filter (λ k', k' ≠ k) l ->
  recencyOrdered log l -> recencyOrdered (log ++ [k]) l'.
Proof.
  intros Hsub Hord. apply (recencyOrdered_sublist _ _ _ Hsub).
  assert (recencyOrdered log (filter (λ k', k' ≠ k) l)) as [Hs Hall].
  { eapply recencyOrdered_sublist; [apply sublist_filter|done]. }
  assert (∀ k', k' ∈ filter (λ k', k' ≠ k) l -> k' ≠ k) as Hne.
  { intros k' Hk'. by apply list_elem_of_filter in Hk' as [? _]. }
  split.
  - apply StronglySorted_cons. split.
    + apply list.Forall_forall. intros k' Hk'.
      destruct (Hall k' Hk') as [t' Ht'].
      exists (length log), t'. rewrite lastTouch_snoc.
      rewrite lastTouch_snoc_ne by (by apply Hne).
      split_and!; [done..|]. by eapply lastTouch_lt.
    + revert Hs Hne. generalize (filter (λ k', k' ≠ k) l). clear.
      intros l Hs. induction Hs as [|x l Hs IH Hx]; intros Hne; [constructor|].
      constructor.
      * apply IH. intros k' Hk'. apply Hne. by right.
      * rewrite list.Forall_forall in Hx. apply list.Forall_forall. intros y Hy.
        destruct (Hx y Hy) as (t1 & t2 & H1 & H2 & Hlt). exists t1, t2.
        rewrite !lastTouch_snoc_ne; [done| |].
        -- apply Hne. by right.
        -- apply Hne. by left.
  - intros k' [->|Hk']%elem_of_cons.
    + rewrite lastTouch_snoc. by eexists.
    + rewrite lastTouch_snoc_ne by (by apply Hne). by apply Hall.
Qed.

Lemma keys_evictElement c key e :
  wf c -> items c !! key = Some e ->
  keys (evictElement c e).1 = filter (λ k, k ≠ key) (keys c).
Proof.
  intros Hwf Hl. pose proof Hwf as (_ & _ & Hidx).
  pose proof Hl as [Hin Hk]%Hidx. unfold keys. simpl. rewrite <- Hk.
  apply (fmap_list_Remove_inj (λ x, Key (elemValue c x))).
  intros x Hx Heq. by eapply wf_key_inj.
Qed.

Lemma filter_ne_absent (k : string) (l : list string) :
  k ∉ l -> filter (λ k', k' ≠ k) l = l.
Proof.
  induction l as [|y l IH]; [done|]. intros Hn.
  apply not_elem_of_cons in Hn as [Hne Hn].
  rewrite filter_cons_True by done. by rewrite IH.
Qed.

Lemma removelast_sublist (l : list string) : removelast l `sublist_of` l.
Proof.
  induction l as [|x [|y l] IH]; [done|apply sublist_nil_l|].
  change (removelast (x :: y :: l)) with (x :: removelast (y :: l)).
  by apply sublist_skip.
Qed.

(** What a call does to the recency order: the key it touches goes to
    the front, no other key overtakes another, and keys may leave. *)
Lemma step_keys C c o c' :
  0 < C -> wf c -> size_ok C c -> step c o = Some c' ->
  match touched c o with
  | Some k => keys c' `sublist_of` k :: filter (λ k', k' ≠ k) (keys c)
  | None => keys c' `sublist_of` keys c
  end.
Proof.
  intros HC Hwf [Hcap Hsz].
  destruct o as [key value ttl now now'|key now|key|]; cbn [touched step].
  - destruct (items c !! key) as [e|] eqn:Hl.
    + destruct (Set__update_keys c key value ttl now now' e Hwf Hl)
        as (c1 & -> & Hk). simpl. intros [= <-]. by rewrite Hk.
    + assert (key ∉ keys c) as Hnin.
      { rewrite <- wf_items_keys by done. rewrite Hl. by intros [? ?]. }
      rewrite filter_ne_absent by done.
      destruct (decide (Size_ c = C)) as [Hfull|Hbelow].
      * destruct (Set__new_at_capacity c key value ttl now now')
          as (c1 & -> & Hk & _); [done|lia|lia|done|].
        simpl. intros [= <-]. rewrite Hk. apply sublist_skip, removelast_sublist.
      * destruct (Set__new_below_capacity c key value ttl now now')
          as (c1 & -> & Hk & _); [done|lia|done|].
        simpl. intros [= <-]. by rewrite Hk.
  - intros [= <-]. destruct (items c !! key) as [e|] eqn:Hl.
    + destruct (negb (Time_IsZero (ExpiresAt (elemValue c e)))
                && Time_After now (ExpiresAt (elemValue c e))) eqn:Hexp.
      * assert (Get c key now
                = (with_misses incr64 (evictElement c e).1, None)) as ->.
        { unfold Get, Get_probe, Get_finish. by rewrite Hl, Hexp. }
        change (keys (with_misses incr64 (evictElement c e).1, None).1)
          with (keys (evictElement c e).1).
        cbn [snd]. rewrite (keys_evictElement c key e Hwf Hl).
        apply sublist_filter.
      * destruct (Get_hit_keys c key now e Hwf Hl Hexp) as [Hr Hk].
        by rewrite Hr, Hk.
    + assert (Get c key now = (with_misses incr64 c, None)) as ->.
      { unfold Get, Get_probe, Get_finish. by rewrite Hl. }
      change (keys c `sublist_of` keys c). done.
  - intros [= <-]. unfold Remove. destruct (items c !! key) as [e|] eqn:Hl; [|done].
    rewrite (keys_evictElement c key e Hwf Hl). apply sublist_filter.
  - intros [= <-]. apply sublist_nil_l.
Qed.

(** Along any calls made one after the other, the recency order of
    the cache is the order of the last touches. *)
Lemma run_recencyOrdered C c0 ops c log0 :
  0 < C -> wf c0 -> size_ok C c0 -> recencyOrdered log0 (keys c0) ->
  run c0 ops = Some c ->
  recencyOrdered (log0 ++ touches c0 ops) (keys c).
Proof.
  intros HC. revert c0 log0.
  induction ops as [|o ops IH]; intros c0 log0 Hwf Hsz Hord; simpl.
  - intros [= <-]. by rewrite app_nil_r.
  - destruct (step c0 o) as [c1|] eqn:Hs; [|done]. simpl. intros Hrun.
    rewrite app_assoc. apply IH; [by eapply wf_step| |  |done].
    + destruct (step_size_ok C c0 o) as (c1' & Hs' & Hok); [lia|done|].
      congruence.
    + pose proof (step_keys C c0 o c1 HC Hwf Hsz Hs) as Hk.
      destruct (touched c0 o) as [k|]; simpl.
      * by eapply recencyOrdered_touch.
      * rewrite app_nil_r. by eapply recencyOrdered_sublist.
Qed.

(** C3.  In a cache of capacity [C > 0] reached by any calls made one
    after the other, the keys are held in the order of their last
    touches, the latest first, where [Set] touches its key (inserted
    or updated) and [Get] touches the key it finds.  When the cache is
    full, [Set] of a key that is not present returns [true] and
    evicts exactly one key, the victim: the victim is the occupant
    whose last touch is the earliest, every other occupant having
    been touched after it; the victim is absent afterwards, every
    other occupant and the new key are present, and the new key is at
    the front of the order.  In particular, for a cache of capacity 3,
    after [Set(a)], [Set(b)], [Set(c)], [Get(a)], [Set(d)] (values and
    clock readings arbitrary, no expiry) the order is [d, a, c]: key
    [b] is absent and [a], [c], [d] are present. *)
Theorem Set_at_capacity_evicts_least_recent :
  (∀ C ops c key value ttl now now',
      run (NewLRUCache C) ops = Some c ->
      0 < C -> Size_ c = C -> items c !! key = None ->
      let log := touches (NewLRUCache C) ops in
      recencyOrdered log (keys c)
      ∧ ∃ c' victim,
          Set_ c key value ttl now now' = Some (c', true)
          ∧ victim ∈ keys c
          ∧ (∀ k, k ∈ keys c -> k ≠ victim -> touchedAfter log k victim)
          ∧ items c' !! victim = None
          ∧ (∀ k, is_Some (items c' !! k)
                  <-> k = key ∨ (k ∈ keys c ∧ k ≠ victim))
          ∧ keys c' = key :: removelast (keys c)
          ∧ keys c' = key :: filter (λ k, k ≠ victim) (keys c)
          ∧ (∀ k, is_Some (items c' !! k) <-> k ∈ keys c'))
  ∧ (∀ va vb vc vd t1 t1' t2 t2' t3 t3' t4 t5 t5',
      ∃ c, run (NewLRUCache 3)
             [OpSet "a" va 0 t1 t1'; OpSet "b" vb 0 t2 t2';
              OpSet "c" vc 0 t3 t3'; OpGet "a" t4; OpSet "d" vd 0 t5 t5'] = Some c
           ∧ keys c = ["d"; "a"; "c"]
           ∧ items c !! "b" = None
           ∧ is_Some (items c !! "a")
           ∧ is_Some (items c !! "c")
           ∧ is_Some (items c !! "d")).
Proof.
  split.
  - intros C ops c key value ttl now now' Hrun HC Hfull Hnone log.
    assert (wf c) as Hwf by (eapply wf_run; [apply wf_NewLRUCache|done]).
    destruct (run_size_ok C (NewLRUCache C) ops) as (c0 & Hrun0 & Hcap & _);
      [lia | split; [done|]; unfold Size_, list_Len; simpl; lia |].
    assert (c0 = c) as -> by congruence.
    assert (recencyOrdered log (keys c)) as Hord.
    { apply (run_recencyOrdered C (NewLRUCache C) ops c [] HC);
        [apply wf_NewLRUCache
        |split; [done|]; unfold Size_, list_Len; simpl; lia
        | |done].
      split; [constructor|]. intros k Hk. by apply elem_of_nil in Hk. }
    split; [done|].
    destruct (Set__new_at_capacity c key value ttl now now')
      as (c' & HS & Hk & _); [done|lia|congruence|done|].
    pose proof (wf_Set_ _ _ _ _ _ _ _ _ Hwf HS) as Hwf'.
    assert (key ∉ keys c) as Hknew.
    { rewrite <- wf_items_keys by done. rewrite Hnone. by intros [? ?]. }
    destruct (list.last (keys c)) as [victim|] eqn:Hlast.
    2:{ apply last_None in Hlast. rewrite Size__keys, Hlast in Hfull.
        simpl in Hfull. lia. }
    apply last_Some in Hlast as [l0 Hl0].
    rewrite Hl0 in Hk, Hord, Hknew. rewrite removelast_last in Hk.
    destruct Hord as [Hs _].
    assert (∀ k, k ∈ l0 -> touchedAfter log k victim) as Hafter.
    { intros k Hin. eapply StronglySorted_app_1_elem_of; [exact Hs|done|].
      apply list_elem_of_here. }
    assert (∀ k, k ∈ l0 -> k ≠ victim) as Hne.
    { intros k Hin ->. destruct (Hafter victim Hin) as (t1 & t2 & H1 & H2 & Hlt).
      rewrite H1 in H2. injection H2 as ->. lia. }
    assert (filter (λ k, k ≠ victim) (l0 ++ [victim])%list = l0) as Hfilter.
    { rewrite list.filter_app, filter_cons_False by same_elem.
      rewrite filter_nil, app_nil_r. apply filter_ne_absent.
      intros Hin. by apply (Hne victim). }
    assert (victim ≠ key) as Hvk.
    { intros ->. apply Hknew, elem_of_app. right. apply list_elem_of_here. }
    exists c', victim. rewrite Hl0, removelast_last, Hfilter.
    split_and!; [done | | | | |done|done|].
    + apply elem_of_app. right. apply list_elem_of_here.
    + intros k [Hin|Hin%list_elem_of_singleton]%elem_of_app Hkv; [|done].
      by apply Hafter.
    + apply wf_items_None; [done|]. rewrite Hk.
      intros [?|Hin]%elem_of_cons; [done|]. by apply (Hne victim).
    + intros k. rewrite wf_items_keys, Hk by done.
      rewrite elem_of_cons, elem_of_app, list_elem_of_singleton. split.
      * intros [->|Hin]; [by left|]. right. split; [by left|by apply Hne].
      * intros [->|[[Hin|Heq] Hkv]]; [by left|by right|done].
    + intros k. by apply wf_items_keys.
  - intros.
    destruct (lru_scenario va vb vc vd t1 t1' t2 t2' t3 t3' t4 t5 t5')
      as (c & Hrun & Hwf & Hk).
    exists c. split_and!; [done..| | | |].
    + apply wf_items_None; [done|]. rewrite Hk. notin_list.
    + apply wf_items_keys; [done|]. rewrite Hk. in_list.
    + apply wf_items_keys; [done|]. rewrite Hk. in_list.
    + apply wf_items_keys; [done|]. rewrite Hk. in_list.
Qed.

Lemma Set_at_capacity_evicts_least_recent_witness :
  let ops := [OpSet "a" "1" 0 10 10; OpSet "b" "2" 0 20 20;
              OpSet "c" "3" 0 30 30; OpSet "a" "4" 0 40 40; OpGet "b" 50] in
  ∃ c, run (NewLRUCache 3) ops = Some c
  ∧ touches (NewLRUCache 3) ops = ["a"; "b"; "c"; "a"; "b"]
  ∧ keys c = ["b"; "a"; "c"]
  ∧ (∃ c', Set_ c "d" "5" 0 60 60 = Some (c', true)
           ∧ keys c' = ["d"; "b"; "a"])
  ∧ recencyOrdered (touches (NewLRUCache 3) ops) (keys c)
  ∧ ∃ c' victim,
      Set_ c "d" "5" 0 60 60 = Some (c', true)
      ∧ victim ∈ keys c
      ∧ (∀ k, k ∈ keys c -> k ≠ victim
              -> touchedAfter (touches (NewLRUCache 3) ops) k victim)
      ∧ items c' !! victim = None
      ∧ (∀ k, is_Some (items c' !! k)
              <-> k = "d" ∨ (k ∈ keys c ∧ k ≠ victim))
      ∧ keys c' = "d" :: removelast (keys c)
      ∧ keys c' = "d" :: filter (λ k, k ≠ victim) (keys c)
      ∧ (∀ k, is_Some (items c' !! k) <-> k ∈ keys c').
Proof.
  intros ops. eexists. split; [vm_compute; reflexivity|].
  split; [vm_compute; reflexivity|].
  split; [vm_compute; reflexivity|].
  split; [eexists; split; vm_compute; reflexivity|].
  apply (proj1 Set_at_capacity_evicts_least_recent 3 ops).
  - vm_compute; reflexivity.
  - lia.
  - vm_compute; reflexivity.
  - vm_compute; reflexivity.
Defined.

(** C8.  [Clear()] leaves a cache of size [0] in which no key is
    present, and the hits, misses and evictions reported by [Stats()]
    are those of before the call. *)
Theorem Clear_keeps_statistics (c : LRUCache) :
  Size_ (Clear c) = 0
  ∧ (∀ key, items (Clear c) !! key = None)
  ∧ (∀ key now, (Get (Clear c) key now).2 = None)
  ∧ stHits (Stats (Clear c)) = stHits (Stats c)
  ∧ stMisses (Stats (Clear c)) = stMisses (Stats c)
  ∧ stEvictions (Stats (Clear c)) = stEvictions (Stats c).
Proof.
  split_and!; [done | | | done..].
  - intros key. apply lookup_empty.
  - intros key now. unfold Get, Get_probe. simpl. by rewrite lookup_empty.
Qed.

(** *** Two concurrent calls of [Get] *)

(** Run in one piece, the two phases are [Get]. *)
Lemma interleave_serial c key now :
  interleave [(0%nat, now); (0%nat, now)] c [GetStart key]
  = ((Get c key now).1, [GetDone (Get c key now).2]).
Proof. done. Qed.

(** When both goroutines have probed an expired entry before either
    enters its write-locked section, both evict it: the eviction is
    counted twice and the size of the item is subtracted twice. *)
Lemma Get_interleaved_double_eviction c key e now :
  wf c -> items c !! key = Some e ->
  negb (Time_IsZero (ExpiresAt (elemValue c e)))
    && Time_After now (ExpiresAt (elemValue c e)) = true ->
  let racy := (interleave [(0%nat, now); (1%nat, now); (0%nat, now); (1%nat, now)]
                 c [GetStart key; GetStart key]).1 in
  let serial := (interleave [(0%nat, now); (0%nat, now); (1%nat, now); (1%nat, now)]
                   c [GetStart key; GetStart key]).1 in
  evictions serial = incr64 (evictions c)
  ∧ totalSize serial = wrap64 (totalSize c - Size (elemValue c e))
  ∧ evictions racy = incr64 (incr64 (evictions c))
  ∧ totalSize racy
    = wrap64 (wrap64 (totalSize c - Size (elemValue c e)) - Size (elemValue c e)).
Proof.
  intros (_ & _ & Hidx) Hl Hexp. pose proof Hl as [_ Hk]%Hidx.
  simpl. unfold Get_probe, Get_finish. simpl.
  rewrite Hl. simpl. rewrite Hexp. simpl.
  rewrite Hk, lookup_delete_eq. simpl. by rewrite Hexp.
Qed.

(** C9 on the code.  A cache of capacity 3 holds the key [k] with a
    value of five bytes, stored at instant 100 with a TTL of one
    nanosecond and read at instant 200.  Two calls of [Get(k)] one after the
    other count one eviction and two misses and leave an aggregate size
    of 0.  When the two calls interleave (both probe, then both enter
    the write-locked section) the eviction is counted twice and the
    aggregate size becomes -5, although the cache is empty. *)
Theorem Get_not_atomic :
  ∃ c, run (NewLRUCache 3) [OpSet "k" "value" 1 100 100] = Some c
  ∧ let gets := [GetStart "k"; GetStart "k"] in
    let serial :=
      (interleave [(0%nat, 200); (0%nat, 200); (1%nat, 200); (1%nat, 200)] c gets).1 in
    let racy :=
      (interleave [(0%nat, 200); (1%nat, 200); (0%nat, 200); (1%nat, 200)] c gets).1 in
    serial = (Get (Get c "k" 200).1 "k" 200).1
    ∧ (evictions serial, misses serial, totalSize serial, Size_ serial) = (1, 2, 0, 0)
    ∧ (evictions racy, misses racy, totalSize racy, Size_ racy) = (2, 2, -5, 0).
Proof.
  eexists. split; [vm_compute; reflexivity|].
  split_and!; vm_compute; reflexivity.
Qed.

End cache_facts.

(** ** Facts about Go strings *)

Section gostr_facts.
Import gostr.

Lemma append_cons c (a b : string) : String c a +:+ b = String c (a +:+ b).
Proof. done. Qed.

Lemma length_append (a b : string) :
  String.length (a +:+ b) = (String.length a + String.length b)%nat.
Proof.
  induction a as [|c a IH]; [done|]. rewrite append_cons. simpl. by rewrite IH.
Qed.

Lemma drop_append (a b : string) : drop (String.length a) (a +:+ b) = b.
Proof.
  induction a as [|c a IH]; [by destruct b|]. rewrite append_cons. exact IH.
Qed.

Lemma drop_split (n : nat) (s : string) : ∃ p, s = p +:+ drop n s.
Proof.
  revert s. induction n as [|n IH]; intros s.
  - exists "". by destruct s.
  - destruct s as [|c s]; [by exists ""|].
    destruct (IH s) as [p Hp]. exists (String c p).
    rewrite append_cons. simpl. f_equal. exact Hp.
Qed.

(** [HasSuffix] is the plain test "[s] ends with [suffix]". *)
Lemma HasSuffix_spec (s suffix : string) :
  HasSuffix s suffix = true <-> ∃ p, s = p +:+ suffix.
Proof.
  unfold HasSuffix. rewrite andb_true_iff, Nat.leb_le, String.eqb_eq. split.
  - intros [_ Hd]. destruct (drop_split (String.length s - String.length suffix) s)
      as [p Hp]. exists p. by rewrite Hd in Hp.
  - intros [p ->]. rewrite length_append. split; [lia|].
    replace (String.length p + String.length suffix - String.length suffix)%nat
      with (String.length p) by lia.
    apply drop_append.
Qed.

End gostr_facts.

(** ** Facts about the request handler *)

Section proxy_facts.
Import gostr proxy.

Lemma isDomainAllowed_empty cfg host :
  AllowedDomains cfg = [] -> isDomainAllowed cfg host = true.
Proof. intros H. unfold isDomainAllowed. by rewrite H. Qed.

Lemma isDomainAllowed_suffix cfg host :
  AllowedDomains cfg ≠ [] ->
  isDomainAllowed cfg host = true <->
  ∃ domain p, domain ∈ AllowedDomains cfg ∧ host = p +:+ domain.
Proof.
  intros Hne. unfold isDomainAllowed.
  destruct (AllowedDomains cfg) as [|d ds] eqn:Hd; [done|].
  change (length (d :: ds) =? 0)%nat with false. cbv iota.
  rewrite existsb_exists. split.
  - intros (domain & Hin & Hs). apply HasSuffix_spec in Hs as [p Hp].
    exists domain, p. split; [by apply list_elem_of_In|done].
  - intros (domain & p & Hin & Hp). exists domain.
    split; [by apply list_elem_of_In|]. apply HasSuffix_spec. by exists p.
Qed.

(** C7.  With an empty allow-list every host is permitted.  Otherwise
    a host is permitted exactly when it ends with one of the configured
    domains, as plain strings.  With the allow-list [example.com], the
    hosts [www.example.com] and [evil-example.com] are permitted and
    [other.org] is not: a request for it, whether the target comes from
    the [url] parameter or from the request line, is answered by
    [http.Error] with the message [Domain not allowed] and status 403,
    and the cache is not touched. *)
Theorem domain_filter_suffix :
  (∀ cfg host, AllowedDomains cfg = [] -> isDomainAllowed cfg host = true)
  ∧ (∀ cfg host, AllowedDomains cfg ≠ [] ->
       isDomainAllowed cfg host = true <->
       ∃ domain p, domain ∈ AllowedDomains cfg ∧ host = p +:+ domain)
  ∧ (∀ cfg, AllowedDomains cfg = ["example.com"] ->
       isDomainAllowed cfg "www.example.com" = true
       ∧ isDomainAllowed cfg "evil-example.com" = true
       ∧ isDomainAllowed cfg "other.org" = false
       ∧ (∀ S (C : Cache S) E clk (st : S) r,
            URL_Query_Get E (reqURL r) "url" = "" ->
            Scheme (reqURL r) ≠ "" ->
            Host (reqURL r) = "other.org" ->
            handleRequest E cfg clk st r
            = Some (ReplyError 403 "Domain not allowed", st))
       ∧ (∀ S (C : Cache S) E clk (st : S) r target u,
            URL_Query_Get E (reqURL r) "url" = target ->
            target ≠ "" ->
            url_Parse E target = inr u ->
            Host u = "other.org" ->
            handleRequest E cfg clk st r
            = Some (ReplyError 403 "Domain not allowed", st))).
Proof.
  split_and!.
  - apply isDomainAllowed_empty.
  - apply isDomainAllowed_suffix.
  - intros cfg Hcfg.
    assert (∀ host, isDomainAllowed cfg host = HasSuffix host "example.com" || false)
      as Hdom by (intros host; unfold isDomainAllowed; by rewrite Hcfg).
    split_and!.
    + by rewrite Hdom.
    + by rewrite Hdom.
    + by rewrite Hdom.
    + intros S C E clk st r Hq Hs Hh. unfold handleRequest.
      rewrite Hq. simpl.
      apply String.eqb_neq in Hs. rewrite Hs, Hh. simpl.
      unfold serve. by rewrite Hh, Hdom.
    + intros S C E clk st r target u Hq Hne Hp Hh. unfold handleRequest.
      rewrite Hq. apply String.eqb_neq in Hne. rewrite Hne. simpl.
      rewrite Hp. unfold serve. simpl. by rewrite Hh, Hdom.
Qed.

End proxy_facts.

Section proxy_facts2.
Import gostr proxy ttlspec.

(** *** TTL *)

Lemma scanDirectives_first directives :
  scanDirectives directives = seconds <$> head (omap maxAgeSeconds directives).
Proof.
  induction directives as [|d ds IH]; [done|].
  cbn [scanDirectives omap list_omap]. unfold maxAgeSeconds at 1. cbv zeta.
  destruct (HasPrefix (TrimSpace d) "max-age="); [|exact IH].
  destruct (Atoi (TrimPrefix (TrimSpace d) "max-age=")) as [secs|]; [done|exact IH].
Qed.

Lemma scanFormats_first E now formats expires :
  scanFormats E now formats expires
  = time_Until now <$> head (omap (λ format, time_Parse E format expires) formats).
Proof.
  induction formats as [|f fs IH]; [done|].
  cbn [scanFormats omap list_omap].
  destruct (time_Parse E f expires) as [t|]; [done|exact IH].
Qed.

Lemma firstMaxAge_empty : firstMaxAge "" = None.
Proof. reflexivity. Qed.

(** [calculateTTL] follows the precedence of the specification. *)
Lemma calculateTTL_precedence E cfg now resp :
  calculateTTL E cfg now resp = statedTTL E cfg now resp.
Proof.
  unfold calculateTTL, statedTTL, derivedTTL, firstExpires.
  set (cc := Header_Get (respHeader resp) "Cache-Control").
  set (ex := Header_Get (respHeader resp) "Expires").
  assert ((if String.eqb cc "" then None else scanDirectives (Split cc ","))
          = seconds <$> firstMaxAge cc) as ->.
  { destruct (String.eqb_spec cc "") as [->|_].
    - by rewrite firstMaxAge_empty.
    - apply scanDirectives_first. }
  destruct (firstMaxAge cc) as [secs|]; [done|].
  cbn [fmap option_fmap option_map].
  destruct (String.eqb ex ""); [done|].
  rewrite scanFormats_first.
  by destruct (head (omap (λ format, time_Parse E format ex) expiresFormats)).
Qed.

Lemma Atoi_inInt64 s n : Atoi s = Some n -> inInt64 n.
Proof.
  unfold Atoi.
  destruct (match s with
            | String "-" s' => (true, s')
            | String "+" s' => (false, s')
            | _ => (false, s)
            end) as [neg digits].
  destruct digits as [|d ds]; [done|].
  destruct (digitsValue 0 (String d ds)) as [v|]; [|done]. simpl.
  destruct ((minInt64 <=? (if neg then - v else v))
            && ((if neg then - v else v) <=? maxInt64)) eqn:Hr; [|done].
  intros [= <-]. apply andb_true_iff in Hr as [H1 H2]. unfold inInt64. lia.
Qed.

Lemma Header_Get_first (h : Header) :
  Header_Get h "Cache-Control"
  = match h !! "Cache-Control" with Some (v :: _) => v | _ => "" end
  ∧ Header_Get h "Expires"
    = match h !! "Expires" with Some (v :: _) => v | _ => "" end.
Proof. done. Qed.

(** C1, as the code has it.  The TTL handed to the cache follows the
    precedence of the specification, with these provisos.  Of the
    Cache-Control and of the Expires header only the first value (the
    first header line) is read.  The first directive [max-age=<n>]
    of that value, trimmed of white space, whose [n] is accepted by
    [strconv.Atoi] gives [n] times one second in 64-bit wrap-around
    arithmetic, which is [n] seconds exactly for 0 < [n] <=
    9223372036; else the Expires value under the first format that
    parses it gives the parsed time minus the current time, saturated
    to 64 bits; else the configured default, in seconds with the same
    wrap-around, is taken.  A derived value that is zero or negative
    is replaced by the configured default. *)
Theorem cacheResponse_ttl_precedence E cfg clk (st : cache.LRUCache) key resp body :
  let cacheControl :=
    match respHeader resp !! "Cache-Control" with Some (v :: _) => v | _ => "" end in
  let expires :=
    match respHeader resp !! "Expires" with Some (v :: _) => v | _ => "" end in
  let default := wrap64 (CacheTTL cfg * 1000000000) in
  let ttl := cacheResponse_ttl E cfg (atUntil clk) resp in
  ttl = guardedTTL E cfg (atUntil clk) resp
  ∧ cacheResponse E cfg clk st key resp body
    = fst <$> cache.Set_ st key
                (serializeResponse E
                   (mkCachedResponse (StatusCode resp) (respHeader resp) body))
                (guardedTTL E cfg (atUntil clk) resp) (atSet clk) (atSet' clk)
  ∧ (∀ n, firstMaxAge cacheControl = Some n ->
       inInt64 n
       ∧ ttl = (if 0 <? wrap64 (n * 1000000000)
                then wrap64 (n * 1000000000) else default)
       ∧ (0 < n <= 9223372036 -> ttl = n * 1000000000))
  ∧ (firstMaxAge cacheControl = None ->
     ∀ t, firstExpires E expires = Some t ->
       ttl = (if 0 <? clamp64 (t - atUntil clk)
              then clamp64 (t - atUntil clk) else default))
  ∧ (firstMaxAge cacheControl = None -> firstExpires E expires = None ->
     ttl = default).
Proof.
  intros cacheControl expires default ttl.
  assert (ttl = guardedTTL E cfg (atUntil clk) resp) as Httl.
  { unfold ttl, cacheResponse_ttl, guardedTTL. rewrite calculateTTL_precedence.
    unfold statedTTL. destruct (derivedTTL E (atUntil clk) resp) as [d|].
    - rewrite Z.leb_antisym. by destruct (0 <? d).
    - by destruct (seconds (CacheTTL cfg) <=? 0). }
  split; [exact Httl|]. split; [unfold cacheResponse; by rewrite <- Httl|].
  destruct (Header_Get_first (respHeader resp)) as [Hcc Hex].
  fold cacheControl in Hcc. fold expires in Hex.
  unfold guardedTTL, derivedTTL in Httl. rewrite Hcc, Hex in Httl.
  change (seconds (CacheTTL cfg)) with default in Httl.
  split_and!.
  - intros n Hn. rewrite Hn in Httl.
    change (seconds n) with (wrap64 (n * 1000000000)) in Httl.
    split_and!; [|done|].
    + unfold firstMaxAge in Hn. apply head_Some_elem_of in Hn.
      apply list_elem_of_omap in Hn as (directive & _ & Hd).
      unfold maxAgeSeconds in Hd.
      destruct (HasPrefix (TrimSpace directive) "max-age="); [|done].
      by eapply Atoi_inInt64.
    + intros Hrange. rewrite Httl.
      assert (wrap64 (n * 1000000000) = n * 1000000000) as ->.
      { unfold wrap64. rewrite Z.mod_small; lia. }
      assert ((0 <? n * 1000000000) = true) as -> by (apply Z.ltb_lt; lia).
      done.
  - intros Hnone t Ht. by rewrite Hnone, Ht in Httl.
  - intros Hnone Hex'. by rewrite Hnone, Hex' in Httl.
Qed.

Lemma cacheResponse_ttl_precedence_witness :
  let ttl := cacheResponse_ttl sample.E0 sample.cfg (atUntil sample.clk) in
  ttl sample.maxAge60Resp = 60 * 1000000000
  ∧ ttl sample.nbspResp = 60 * 1000000000
  ∧ ttl sample.hugeMaxAgeResp = 290448384
  ∧ ttl sample.maxAge0Resp = 3600 * 1000000000
  ∧ ttl sample.expiredResp = 3600 * 1000000000
  ∧ ttl sample.secondLineResp = 3600 * 1000000000.
Proof.
  intros ttl.
  pose proof (λ resp, cacheResponse_ttl_precedence sample.E0 sample.cfg sample.clk
                        (cache.NewLRUCache 10) "GET:http://example.com/" resp "body")
    as Hall.
  cbv zeta in Hall. fold ttl in Hall. split_and!.
  - destruct (Hall sample.maxAge60Resp) as (_ & _ & Hmax & _).
    apply (Hmax 60); [vm_compute; reflexivity|lia].
  - destruct (Hall sample.nbspResp) as (_ & _ & Hmax & _).
    apply (Hmax 60); [vm_compute; reflexivity|lia].
  - destruct (Hall sample.hugeMaxAgeResp) as (_ & _ & Hmax & _).
    destruct (Hmax 18446744074) as (_ & Hval & _); [vm_compute; reflexivity|].
    exact Hval.
  - destruct (Hall sample.maxAge0Resp) as (_ & _ & Hmax & _).
    destruct (Hmax 0) as (_ & Hval & _); [vm_compute; reflexivity|].
    exact Hval.
  - destruct (Hall sample.expiredResp) as (_ & _ & _ & Hexp & _).
    apply (Hexp eq_refl sample.unixEpoch). vm_compute; reflexivity.
  - destruct (Hall sample.secondLineResp) as (_ & _ & _ & _ & Hdef).
    apply Hdef; vm_compute; reflexivity.
Defined.

(** C1, as stated, fails.  For an upstream response whose Expires
    header lies ten seconds in the past the rule of the specification
    gives a TTL of minus ten seconds, and for [max-age=0] it gives
    zero; [cacheResponse] hands the default of one hour to the cache in
    both cases, and the entry stored for the first is found by a [Get]
    one second later: it was not stored expired.  Moreover
    [max-age=18446744074] gives a TTL of 290448384 nanoseconds, not of
    18446744074 seconds, and a [max-age=60] in the second Cache-Control
    header line is not read: the default is taken. *)
Lemma cacheResponse_ttl_not_stated :
  statedTTL sample.E0 sample.cfg (atUntil sample.clk) sample.expiredResp
    = - (10 * Second)
  ∧ cacheResponse_ttl sample.E0 sample.cfg (atUntil sample.clk) sample.expiredResp
    = 3600 * Second
  ∧ statedTTL sample.E0 sample.cfg (atUntil sample.clk) sample.maxAge0Resp = 0
  ∧ cacheResponse_ttl sample.E0 sample.cfg (atUntil sample.clk) sample.maxAge0Resp
    = 3600 * Second
  ∧ (∃ st item,
       cacheResponse sample.E0 sample.cfg sample.clk (cache.NewLRUCache 10)
         "GET:http://example.com/" sample.expiredResp "body" = Some st
       ∧ (cache.Get st "GET:http://example.com/"
            (atSet sample.clk + Second)).2 = Some item)
  ∧ firstMaxAge "max-age=18446744074" = Some 18446744074
  ∧ cacheResponse_ttl sample.E0 sample.cfg (atUntil sample.clk)
      sample.hugeMaxAgeResp = 290448384
  ∧ respHeader sample.secondLineResp !! "Cache-Control"
    = Some ["public"; "max-age=60"]
  ∧ cacheResponse_ttl sample.E0 sample.cfg (atUntil sample.clk)
      sample.secondLineResp = 3600 * Second.
Proof.
  split_and!;
    [vm_compute; reflexivity | vm_compute; reflexivity | vm_compute; reflexivity
    | vm_compute; reflexivity | | vm_compute; reflexivity
    | vm_compute; reflexivity | vm_compute; reflexivity
    | vm_compute; reflexivity].
  eexists _, _. split; [vm_compute; reflexivity|]. vm_compute. reflexivity.
Qed.

(** *** Wire format *)

(** C4.  Serializing the response with status 200, the header map
    [Content-Type: text/plain] and any body, in whatever order the
    header map is visited, and parsing the result gives back the
    status, the header map and the body. *)
Theorem serialize_parse_roundtrip (body : string)
    (entries : list (string * list string)) :
  entries ≡ₚ map_to_list sample.plainHeader ->
  parseCachedResponse
    (serializeResponse_in entries (mkCachedResponse 200 sample.plainHeader body))
  = Some (mkCachedResponse 200 sample.plainHeader body).
Proof.
  intros Hperm. unfold sample.plainHeader in Hperm.
  rewrite map_to_list_singleton in Hperm.
  apply Permutation_singleton_r in Hperm as ->.
  vm_compute. reflexivity.
Qed.

Lemma serialize_parse_roundtrip_witness :
  [("Content-Type", ["text/plain"])] ≡ₚ map_to_list sample.plainHeader
  ∧ parseCachedResponse
      (serializeResponse_in [("Content-Type", ["text/plain"])]
         (mkCachedResponse 200 sample.plainHeader "hello"))
    = Some (mkCachedResponse 200 sample.plainHeader "hello").
Proof.
  assert ([("Content-Type", ["text/plain"])] ≡ₚ map_to_list sample.plainHeader)
    as H by (vm_compute; reflexivity).
  split; [exact H|].
  apply (serialize_parse_roundtrip "hello" [("Content-Type", ["text/plain"])] H).
Defined.

(** *** Status codes *)




(** The branch of status 500: for a method that is not a token (one
    that the net/http server refuses before it calls a handler),
    [http.NewRequest] fails in [cloneRequest] and no upstream call is
    made. *)
Lemma cloneRequest_error_500 :
  ∃ msg st,
    handleRequest sample.E0 sample.cfgOpen sample.clk (cache.NewLRUCache 10)
      sample.badMethodReq = Some (ReplyError 500 msg, st).
Proof. eexists _, _. vm_compute. reflexivity. Qed.

Lemma domain_filter_suffix_witness :
  isDomainAllowed sample.cfg "www.example.com" = true
  ∧ isDomainAllowed sample.cfg "evil-example.com" = true
  ∧ isDomainAllowed sample.cfg "other.org" = false
  ∧ handleRequest sample.E0 sample.cfg sample.clk (cache.NewLRUCache 10)
      sample.otherReq
    = Some (ReplyError 403 "Domain not allowed", cache.NewLRUCache 10).
Proof.
  destruct (proj2 (proj2 domain_filter_suffix) sample.cfg eq_refl)
    as (H1 & H2 & H3 & H4 & _).
  split_and!; [exact H1|exact H2|exact H3|].
  apply (H4 cache.LRUCache _ sample.E0 sample.clk (cache.NewLRUCache 10)
           sample.otherReq); [reflexivity|discriminate|reflexivity].
Defined.

End proxy_facts2.

(** ** Facts about the worker pool *)

Section pool_facts.
Import pool.

Lemma worker_turn_closed wp :
  closed (jobQueue (worker_turn wp)) = closed (jobQueue wp).
Proof.
  unfold worker_turn. destruct (buf (jobQueue wp)); [|done].
  by destruct (closed (jobQueue wp) && (0 <? idle wp)).
Qed.

Lemma Enqueue_send_closed wp j wp' :
  Enqueue_send wp j = Proceeds wp' ->
  closed (jobQueue wp') = closed (jobQueue wp).
Proof.
  unfold Enqueue_send, chan_send. destruct (closed (jobQueue wp)) eqn:Hc; [done|].
  destruct (_ || _); [|done]. intros [= <-]. simpl. done.
Qed.

(** Nothing opens a closed queue again. *)
Lemma happen_closed wp ev :
  closed (jobQueue (happen wp ev)) = closed (jobQueue wp).
Proof.
  destruct ev as [|j]; simpl.
  - apply worker_turn_closed.
  - destruct (Enqueue_send wp j) as [wp'| |] eqn:Hs; [|done..].
    by eapply Enqueue_send_closed.
Qed.

Lemma foldl_happen_closed evs wp :
  closed (jobQueue (foldl happen wp evs)) = closed (jobQueue wp).
Proof.
  revert wp. induction evs as [|ev evs IH]; intros wp; simpl; [done|].
  by rewrite IH, happen_closed.
Qed.

Lemma Stop_close_closed wp wp' :
  Stop_close wp = Proceeds wp' -> closed (jobQueue wp') = true.
Proof.
  unfold Stop_close, chan_close. destruct (closed (jobQueue wp)); [done|].
  by intros [= <-].
Qed.

(** C5, as the code has it.  Once [Stop] has closed the job queue,
    whatever the workers and other callers do afterwards, a call of
    [Enqueue] neither blocks nor queues its job: its send panics at
    once.  It hands no result back to its caller. *)
Theorem Enqueue_after_Stop_panics (wp wp1 : WorkerPool) (evs : list Event)
    (j : job) (turns : nat) :
  Stop_close wp = Proceeds wp1 ->
  Enqueue (foldl happen wp1 evs) j turns = Panics "send on closed channel"
  ∧ ¬ Enqueue_returns (foldl happen wp1 evs) j.
Proof.
  intros Hstop. apply Stop_close_closed in Hstop.
  assert (∀ n, Enqueue (foldl happen wp1 evs) j n = Panics "send on closed channel")
    as Hp.
  { intros n. unfold Enqueue, Enqueue_send, chan_send.
    by rewrite foldl_happen_closed, Hstop. }
  split; [apply Hp|].
  intros (n & wp' & Hr). by rewrite Hp in Hr.
Qed.

Lemma Enqueue_after_Stop_panics_witness :
  let wp := mkWorkerPool (mkChan [] 4 false) 2 2 2 [] in
  let wp1 := mkWorkerPool (mkChan [] 4 true) 2 2 2 [] in
  NewWorkerPool 2 = Some wp ∧ Stop_close wp = Proceeds wp1
  ∧ Enqueue (foldl happen wp1 [WorkerTurn; Send 7%nat]) 8%nat 3
    = Panics "send on closed channel"
  ∧ ¬ Enqueue_returns (foldl happen wp1 [WorkerTurn; Send 7%nat]) 8%nat.
Proof.
  intros wp wp1. split; [reflexivity|]. split; [reflexivity|].
  apply (Enqueue_after_Stop_panics wp wp1 [WorkerTurn; Send 7%nat] 8%nat 3).
  reflexivity.
Defined.

(** C5, as stated, fails: on a pool of two workers that was stopped,
    [Enqueue] does not return to its caller, with an error or
    otherwise; it panics. *)
Lemma Enqueue_after_Stop_no_result :
  let wp := mkWorkerPool (mkChan [] 4 false) 2 2 2 [] in
  let wp1 := mkWorkerPool (mkChan [] 4 true) 2 2 2 [] in
  NewWorkerPool 2 = Some wp ∧ Stop_close wp = Proceeds wp1
  ∧ ¬ Enqueue_returns wp1 1%nat
  ∧ ∀ turns, Enqueue wp1 1%nat turns = Panics "send on closed channel".
Proof.
  intros wp wp1. split; [reflexivity|]. split; [reflexivity|].
  assert (∀ turns, Enqueue wp1 1%nat turns = Panics "send on closed channel")
    as Hp by done.
  split; [|exact Hp].
  intros (n & wp' & Hr). by rewrite Hp in Hr.
Qed.

(** The two outcomes of [NewWorkerPool]. *)
Lemma NewWorkerPool_bound (n : Z) :
  inInt64 n ->
  let workers := if n <=? 0 then 10 else n in
  (ptrSize * (2 * workers) <= maxAlloc - hchanSize ->
   ∃ wp, NewWorkerPool n = Some wp
         ∧ maxWorkers wp = workers
         ∧ running wp = workers
         ∧ chanCap (jobQueue wp) = 2 * workers
         ∧ buf (jobQueue wp) = []
         ∧ closed (jobQueue wp) = false)
  ∧ (maxAlloc - hchanSize < ptrSize * (2 * workers) -> NewWorkerPool n = None).
Proof.
  intros [Hlo Hhi] workers. unfold NewWorkerPool, make_chan.
  fold workers.
  assert (0 < workers <= maxInt64) as Hw.
  { unfold workers. destruct (Z.leb_spec n 0); unfold maxInt64 in *; lia. }
  unfold ptrSize, maxAlloc, hchanSize, maxInt64 in *. split.
  - intros Hfit.
    rewrite wrap64_id by (unfold inInt64, minInt64, maxInt64; lia).
    assert ((workers * 2 <? 0) = false) as -> by (apply Z.ltb_ge; lia).
    assert ((2 ^ 48 - 96 <? 8 * (workers * 2)) = false) as ->
      by (apply Z.ltb_ge; lia).
    simpl. eexists. split; [done|]. simpl. split_and!; [done..|lia|done|done].
  - intros Hbig.
    destruct (Z.ltb_spec (wrap64 (workers * 2)) 0) as [Hneg|Hpos]; [done|].
    assert (wrap64 (workers * 2) = workers * 2) as ->.
    { destruct (Z.le_gt_cases (workers * 2) (2 ^ 63 - 1)) as [Hsmall|Hwrap].
      - apply wrap64_id. unfold inInt64, minInt64, maxInt64. lia.
      - exfalso. revert Hpos. unfold wrap64.
        replace ((workers * 2 + 2 ^ 63) mod 2 ^ 64)
          with (workers * 2 + 2 ^ 63 - 2 ^ 64); [lia|].
        apply Z.mod_unique with 1; lia. }
    by assert ((2 ^ 48 - 96 <? 8 * (workers * 2)) = true) as ->
      by (apply Z.ltb_lt; lia).
Qed.

(** C10, as the code has it.  For a pool size [n], with ten workers
    in the place of [n] when [n <= 0]: when the queue of twice as many
    job pointers fits under the allocation bound of [make],
    [NewWorkerPool(n)] creates that many workers and a queue of twice
    that capacity, empty and open, with all workers started; when it
    does not fit, [make] panics and no pool is created. *)
Theorem NewWorkerPool_sizes (n : Z) :
  inInt64 n ->
  let workers := if n <=? 0 then 10 else n in
  (ptrSize * (2 * workers) <= maxAlloc - hchanSize ->
   ∃ wp, NewWorkerPool n = Some wp
         ∧ maxWorkers wp = workers
         ∧ running wp = workers
         ∧ chanCap (jobQueue wp) = 2 * workers
         ∧ buf (jobQueue wp) = []
         ∧ closed (jobQueue wp) = false)
  ∧ (maxAlloc - hchanSize < ptrSize * (2 * workers) -> NewWorkerPool n = None).
Proof. intros Hn. by apply NewWorkerPool_bound. Qed.

Lemma NewWorkerPool_sizes_witness :
  (∃ wp, NewWorkerPool 4 = Some wp
        ∧ maxWorkers wp = 4 ∧ running wp = 4
        ∧ chanCap (jobQueue wp) = 2 * 4
        ∧ buf (jobQueue wp) = [] ∧ closed (jobQueue wp) = false)
  ∧ (∃ wp, NewWorkerPool (-3) = Some wp
        ∧ maxWorkers wp = 10 ∧ running wp = 10
        ∧ chanCap (jobQueue wp) = 2 * 10
        ∧ buf (jobQueue wp) = [] ∧ closed (jobQueue wp) = false)
  ∧ NewWorkerPool (2 ^ 45) = None.
Proof.
  split_and!.
  - apply (NewWorkerPool_sizes 4); vm_compute; (split; discriminate) || discriminate.
  - apply (NewWorkerPool_sizes (-3)); vm_compute; (split; discriminate) || discriminate.
  - apply (NewWorkerPool_sizes (2 ^ 45)); vm_compute; (split; discriminate) || reflexivity.
Defined.

(** C10, as stated, fails: [NewWorkerPool(2^46)] does not create a
    pool of [2^46] workers with a queue of capacity [2^47]; the
    allocation of a queue of [2^47] pointers is refused by [make],
    which panics. *)
Lemma NewWorkerPool_too_large :
  NewWorkerPool (2 ^ 46) = None
  ∧ ¬ ∃ wp, NewWorkerPool (2 ^ 46) = Some wp
            ∧ maxWorkers wp = 2 ^ 46
            ∧ chanCap (jobQueue wp) = 2 * 2 ^ 46.
Proof.
  assert (NewWorkerPool (2 ^ 46) = None) as Hp by (vm_compute; reflexivity).
  split; [exact Hp|]. intros (wp & Hwp & _). by rewrite Hp in Hwp.
Qed.

(** When the doubling overflows, the size is negative and [make]
    panics as well. *)
Lemma NewWorkerPool_overflow : NewWorkerPool (2 ^ 62) = None.
Proof. vm_compute. reflexivity. Qed.

End pool_facts.

(** ** More on the cache *)

Section cache_more.
Import cache cachex.

Lemma wrap64_add_l a b : wrap64 (wrap64 a + b) = wrap64 (a + b).
Proof.
  unfold wrap64. f_equal.
  replace ((a + 2 ^ 63) mod 2 ^ 64 - 2 ^ 63 + b + 2 ^ 63)
    with ((a + 2 ^ 63) mod 2 ^ 64 + b) by lia.
  rewrite Z.add_mod_idemp_l by lia. f_equal; lia.
Qed.

Lemma wrap64_add_r a b : wrap64 (a + wrap64 b) = wrap64 (a + b).
Proof. rewrite (Z.add_comm a), wrap64_add_l. f_equal; lia. Qed.

Lemma wrap64_sub_l a b : wrap64 (wrap64 a - b) = wrap64 (a - b).
Proof.
  replace (wrap64 a - b) with (wrap64 a + - b) by lia.
  rewrite wrap64_add_l. f_equal; lia.
Qed.

Lemma wrap64_idem a : wrap64 (wrap64 a) = wrap64 a.
Proof.
  replace (wrap64 a) with (wrap64 a + 0) at 1 by lia.
  rewrite wrap64_add_l. f_equal; lia.
Qed.

(** What is reachable from a new cache is well formed and within its
    capacity. *)
Lemma run_reachable C ops c :
  0 <= C -> run (NewLRUCache C) ops = Some c -> wf c ∧ size_ok C c.
Proof.
  intros HC Hrun. split.
  - eapply wf_run; [apply wf_NewLRUCache|done].
  - destruct (run_size_ok C (NewLRUCache C) ops HC) as (c0 & Hrun0 & Hok).
    { split; [done|]. unfold Size_, list_Len. simpl. lia. }
    congruence.
Qed.

Lemma list_Remove_length (e : nat) (l : list nat) :
  NoDup l -> e ∈ l -> length (list_Remove e l) = (length l - 1)%nat.
Proof.
  unfold list_Remove. induction l as [|x l IH]; intros Hnd Hin.
  - by apply elem_of_nil in Hin.
  - apply list.NoDup_cons in Hnd as [Hx Hnd].
    destruct (decide (x = e)) as [->|Hne].
    + rewrite filter_cons_False by (intros H; by apply H).
      rewrite filter_ne_notin by done. simpl. lia.
    + rewrite filter_cons_True by done.
      apply elem_of_cons in Hin as [->|Hin]; [done|].
      rewrite length_cons, IH by done.
      destruct l; [by apply elem_of_nil in Hin|simpl; lia].
Qed.

Lemma list_MoveToFront_length (e : nat) (l : list nat) :
  NoDup l -> length (list_MoveToFront e l) = length l.
Proof.
  intros Hnd. unfold list_MoveToFront. case_decide as Hin; [|done].
  rewrite length_cons, list_Remove_length by done.
  destruct l; [by apply elem_of_nil in Hin|simpl; lia].
Qed.

(** *** [Set] then [Get] *)

(** After [Set], on a cache of positive capacity, the index holds the
    key and its element holds the item just built. *)
Lemma Set__lookup C c key value ttl now now' c' b :
  0 < C -> wf c -> size_ok C c ->
  Set_ c key value ttl now now' = Some (c', b) ->
  ∃ e, items c' !! key = Some e
       ∧ elemValue c' e = newItem key value ttl now now'.
Proof.
  intros HC Hwf [Hcap Hsz]. unfold Set_.
  destruct (items c !! key) as [e|] eqn:Hl.
  { intros [= <- <-]. exists e. simpl. split; [done|]. by rewrite fn_lookup_insert. }
  match goal with |- context [evictLoop ?f ?c1] => set (c1' := c1) end.
  intros Hrun. apply bind_Some in Hrun as (c2 & Hloop & [= <- <-]).
  pose proof Hwf as (Hnd & Hfresh & Hidx).
  assert (nextElem c ∉ evictionList c) as Hnx by (intros Hin%Hfresh; lia).
  exists (nextElem c).
  destruct (decide (Size_ c < C)) as [Hlt|Hfull].
  - rewrite evictLoop_done in Hloop
      by (unfold c1', Size_, list_Len in *; simpl; lia).
    injection Hloop as <-. unfold c1'. simpl.
    split; [apply lookup_insert_eq|by rewrite fn_lookup_insert].
  - assert (Size_ c = C) as Hfull' by lia.
    destruct (list.last (evictionList c)) as [x|] eqn:Hlast.
    2:{ apply last_None in Hlast. unfold Size_, list_Len in Hfull'.
        rewrite Hlast in Hfull'. simpl in Hfull'. lia. }
    apply last_Some in Hlast as [l Hlx].
    assert (x ∈ evictionList c) as Hx.
    { rewrite Hlx. apply elem_of_app. right. by apply list_elem_of_singleton. }
    assert (x ≠ nextElem c) as Hxn by (intros ->; done).
    rewrite (evictLoop_step _ c1') in Hloop
      by (unfold c1', Size_, list_Len in *; simpl; lia).
    assert (list_Back (evictionList c1') = Some x) as Hback.
    { unfold c1', list_Back. simpl. rewrite Hlx, app_comm_cons. apply last_snoc. }
    unfold evictOldest in Hloop. rewrite Hback in Hloop.
    assert (evictionList (evictElement c1' x).1 = nextElem c :: l) as Hlist.
    { unfold c1'. simpl. rewrite Hlx, app_comm_cons. apply list_Remove_snoc.
      rewrite <- app_comm_cons, <- Hlx. by apply list.NoDup_cons. }
    rewrite evictLoop_done in Hloop.
    2:{ rewrite Hlist. unfold c1', Size_, list_Len in *. simpl.
        rewrite Hlx, length_app in Hfull'. simpl in Hfull'. lia. }
    injection Hloop as <-. unfold c1'. simpl.
    rewrite fn_lookup_insert_ne by done.
    split; [|by rewrite fn_lookup_insert].
    rewrite lookup_delete_ne, lookup_insert_eq; [done|].
    intros Hk. assert (items c !! key = Some x) as Hs by (apply Hidx; done).
    congruence.
Qed.

Lemma newItem_live key value ttl now now' t :
  ttl <= 0 ∨ t <= now + ttl ->
  negb (Time_IsZero (ExpiresAt (newItem key value ttl now now')))
    && Time_After t (ExpiresAt (newItem key value ttl now now')) = false.
Proof.
  intros Ht. unfold newItem, Time_IsZero, Time_After, Time_Add. simpl.
  destruct (Z.ltb_spec 0 ttl) as [Hpos|Hneg]; [|done].
  apply andb_false_iff. right. apply Z.ltb_ge. lia.
Qed.

Lemma newItem_expired key value ttl now now' t :
  0 < ttl -> 0 <= now -> now + ttl < t ->
  negb (Time_IsZero (ExpiresAt (newItem key value ttl now now')))
    && Time_After t (ExpiresAt (newItem key value ttl now now')) = true.
Proof.
  intros Hpos Hnow Ht. unfold newItem, Time_IsZero, Time_After, Time_Add. simpl.
  replace (0 <? ttl) with true by (symmetry; apply Z.ltb_lt; lia).
  apply andb_true_iff. split.
  - apply negb_true_iff, Z.eqb_neq. lia.
  - apply Z.ltb_lt. lia.
Qed.

(** X1.  On a cache of positive capacity, a [Get] that follows a [Set]
    of the same key, and comes no later than the expiry instant of the
    entry (or at any time when the TTL is not positive), finds the item
    with the value just stored, counts a hit and leaves the key at the
    front of the recency order. *)
Theorem Set_then_Get_found C ops c key value ttl now now' c' b t :
  0 < C -> run (NewLRUCache C) ops = Some c ->
  Set_ c key value ttl now now' = Some (c', b) ->
  ttl <= 0 ∨ t <= now + ttl ->
  (Get c' key t).2 = Some (newItem key value ttl now now')
  ∧ hits (Get c' key t).1 = incr64 (hits c')
  ∧ misses (Get c' key t).1 = misses c'
  ∧ head (keys (Get c' key t).1) = Some key.
Proof.
  intros HC Hrun HS Ht.
  destruct (run_reachable C ops c ltac:(lia) Hrun) as [Hwf Hok].
  destruct (Set__lookup C c key value ttl now now' c' b HC Hwf Hok HS)
    as (e & Hl & Hv).
  pose proof (wf_Set_ _ _ _ _ _ _ _ _ Hwf HS) as Hwf'.
  pose proof (wf_lookup_elem_of _ _ _ Hwf' Hl) as Hin.
  unfold Get, Get_probe, Get_finish.
  rewrite Hl, Hv, newItem_live by done. simpl.
  split_and!; [done..|].
  unfold keys. simpl. unfold list_MoveToFront. rewrite decide_True by done.
  simpl. by rewrite Hv.
Qed.

Lemma Set_then_Get_found_witness :
  ∃ c c', run (NewLRUCache 2) [OpSet "x" "1" 0 100 100] = Some c
  ∧ Set_ c "k" "value" 50 200 200 = Some (c', true)
  ∧ (Get c' "k" 250).2 = Some (newItem "k" "value" 50 200 200)
  ∧ hits (Get c' "k" 250).1 = incr64 (hits c')
  ∧ misses (Get c' "k" 250).1 = misses c'
  ∧ head (keys (Get c' "k" 250).1) = Some "k".
Proof.
  eexists _, _. split; [vm_compute; reflexivity|].
  split; [vm_compute; reflexivity|].
  eapply (Set_then_Get_found 2 [OpSet "x" "1" 0 100 100] _ "k" "value" 50 200 200 _ true 250).
  - lia.
  - vm_compute; reflexivity.
  - vm_compute; reflexivity.
  - right. lia.
Defined.

(** X2.  On a cache of positive capacity, a [Get] that comes after
    the expiry instant of an entry stored with a positive TTL does not
    find it: the entry is removed, the size goes down by one, and one
    miss and one eviction are counted. *)
Theorem Set_then_Get_expired C ops c key value ttl now now' c' b t :
  0 < C -> run (NewLRUCache C) ops = Some c ->
  Set_ c key value ttl now now' = Some (c', b) ->
  0 < ttl -> 0 <= now -> now + ttl < t ->
  (Get c' key t).2 = None
  ∧ items (Get c' key t).1 !! key = None
  ∧ Size_ (Get c' key t).1 = Size_ c' - 1
  ∧ misses (Get c' key t).1 = incr64 (misses c')
  ∧ evictions (Get c' key t).1 = incr64 (evictions c')
  ∧ hits (Get c' key t).1 = hits c'.
Proof.
  intros HC Hrun HS Hpos Hnow Ht.
  destruct (run_reachable C ops c ltac:(lia) Hrun) as [Hwf Hok].
  destruct (Set__lookup C c key value ttl now now' c' b HC Hwf Hok HS)
    as (e & Hl & Hv).
  pose proof (wf_Set_ _ _ _ _ _ _ _ _ Hwf HS) as Hwf'.
  pose proof (wf_lookup_elem_of _ _ _ Hwf' Hl) as Hin.
  unfold Get, Get_probe, Get_finish.
  rewrite Hl, Hv, newItem_expired by done. simpl.
  split_and!; [done| |  |done..].
  - rewrite Hv. simpl. apply lookup_delete_eq.
  - unfold Size_, list_Len. simpl.
    rewrite list_Remove_length; [|by destruct Hwf'|done].
    destruct (evictionList c'); [by apply elem_of_nil in Hin|simpl; lia].
Qed.

Lemma Set_then_Get_expired_witness :
  ∃ c c', run (NewLRUCache 2) [OpSet "x" "1" 0 100 100] = Some c
  ∧ Set_ c "k" "value" 50 200 200 = Some (c', true)
  ∧ (Get c' "k" 251).2 = None
  ∧ items (Get c' "k" 251).1 !! "k" = None
  ∧ Size_ (Get c' "k" 251).1 = Size_ c' - 1
  ∧ misses (Get c' "k" 251).1 = incr64 (misses c')
  ∧ evictions (Get c' "k" 251).1 = incr64 (evictions c')
  ∧ hits (Get c' "k" 251).1 = hits c'.
Proof.
  eexists _, _. split; [vm_compute; reflexivity|].
  split; [vm_compute; reflexivity|].
  eapply (Set_then_Get_expired 2 [OpSet "x" "1" 0 100 100] _ "k" "value" 50 200 200 _ true 251).
  - lia.
  - vm_compute; reflexivity.
  - vm_compute; reflexivity.
  - lia.
  - lia.
  - lia.
Defined.

(** *** [Set] of a key that is present *)

Lemma keys_NoDup c : wf c -> NoDup (keys c).
Proof.
  intros Hwf. pose proof Hwf as (Hnd & _ & Hidx). unfold keys.
  apply NoDup_fmap_2_strong; [|done].
  intros x y Hx Hy Heq.
  assert (items c !! Key (elemValue c y) = Some x) as H1 by (by apply Hidx).
  assert (items c !! Key (elemValue c y) = Some y) as H2 by (by apply Hidx).
  congruence.
Qed.

(** X3.  [Set] of a key that the cache holds returns [false], evicts
    nothing and keeps the size; the key moves to the front, the other
    keys keep their order, and the index then holds the new item. *)
Theorem Set_existing_key C ops c key value ttl now now' :
  0 <= C -> run (NewLRUCache C) ops = Some c -> key ∈ keys c ->
  ∃ c', Set_ c key value ttl now now' = Some (c', false)
        ∧ Size_ c' = Size_ c
        ∧ evictions c' = evictions c
        ∧ keys c' = key :: filter (λ k, k ≠ key) (keys c)
        ∧ ∃ e, items c' !! key = Some e
               ∧ elemValue c' e = newItem key value ttl now now'.
Proof.
  intros HC Hrun Hk.
  destruct (run_reachable C ops c HC Hrun) as [Hwf _].
  apply wf_items_keys in Hk as [e Hl]; [|done].
  destruct (Set__update_keys c key value ttl now now' e Hwf Hl) as (c' & HS & Hkeys).
  exists c'. split; [done|].
  revert HS. unfold Set_. rewrite Hl. intros [= <-]. simpl.
  split_and!; [|done|done|].
  - unfold Size_, list_Len. simpl.
    rewrite list_MoveToFront_length; [done|by destruct Hwf].
  - exists e. split; [done|]. by rewrite fn_lookup_insert.
Qed.

Lemma Set_existing_key_witness :
  ∃ c, run (NewLRUCache 2) [OpSet "x" "1" 0 100 100; OpSet "k" "old" 0 150 150]
       = Some c
  ∧ ∃ c', Set_ c "x" "new" 50 200 200 = Some (c', false)
          ∧ Size_ c' = Size_ c
          ∧ evictions c' = evictions c
          ∧ keys c' = "x" :: filter (λ k, k ≠ "x") (keys c)
          ∧ ∃ e, items c' !! "x" = Some e
                 ∧ elemValue c' e = newItem "x" "new" 50 200 200.
Proof.
  eexists. split; [vm_compute; reflexivity|].
  eapply (Set_existing_key 2
            [OpSet "x" "1" 0 100 100; OpSet "k" "old" 0 150 150]).
  - lia.
  - vm_compute; reflexivity.
  - vm_compute. apply list_elem_of_further, list_elem_of_here.
Defined.

(** *** [Remove] *)

(** X4.  [Remove] of a key that the cache holds returns [true]: the
    key is gone, every other key stays with its element, the size goes
    down by one and one eviction is counted.  [Remove] of a key that is
    not held returns [false] and changes nothing. *)
Theorem Remove_present_absent C ops c key :
  0 <= C -> run (NewLRUCache C) ops = Some c ->
  (key ∈ keys c ->
     (Remove c key).2 = true
     ∧ items (Remove c key).1 !! key = None
     ∧ (∀ k, k ≠ key -> items (Remove c key).1 !! k = items c !! k)
     ∧ keys (Remove c key).1 = filter (λ k, k ≠ key) (keys c)
     ∧ Size_ (Remove c key).1 = Size_ c - 1
     ∧ evictions (Remove c key).1 = incr64 (evictions c))
  ∧ (key ∉ keys c -> Remove c key = (c, false)).
Proof.
  intros HC Hrun. destruct (run_reachable C ops c HC Hrun) as [Hwf _].
  pose proof Hwf as (Hnd & _ & Hidx). split.
  - intros Hk. apply wf_items_keys in Hk as [e Hl]; [|done].
    pose proof Hl as [Hin Hke]%Hidx.
    unfold Remove. rewrite Hl. simpl. rewrite Hke.
    split_and!; [done| | | | |done].
    + apply lookup_delete_eq.
    + intros k Hne. by apply lookup_delete_ne.
    + unfold keys. simpl. rewrite <- Hke.
      apply (fmap_list_Remove_inj (λ x, Key (elemValue c x))).
      intros x Hx Heq. by eapply wf_key_inj.
    + unfold Size_, list_Len. simpl. rewrite list_Remove_length by done.
      destruct (evictionList c); [by apply elem_of_nil in Hin|simpl; lia].
  - intros Hk. unfold Remove. by rewrite wf_items_None.
Qed.

Lemma Remove_present_absent_witness :
  ∃ c, run (NewLRUCache 2) [OpSet "x" "1" 0 100 100; OpSet "k" "old" 0 150 150]
       = Some c
  ∧ ((Remove c "x").2 = true
     ∧ items (Remove c "x").1 !! "x" = None
     ∧ (∀ k, k ≠ "x" -> items (Remove c "x").1 !! k = items c !! k)
     ∧ keys (Remove c "x").1 = filter (λ k, k ≠ "x") (keys c)
     ∧ Size_ (Remove c "x").1 = Size_ c - 1
     ∧ evictions (Remove c "x").1 = incr64 (evictions c))
  ∧ Remove c "y" = (c, false).
Proof.
  eexists. split; [vm_compute; reflexivity|].
  split.
  - eapply (proj1 (Remove_present_absent 2
              [OpSet "x" "1" 0 100 100; OpSet "k" "old" 0 150 150] _ "x"
              ltac:(lia) ltac:(vm_compute; reflexivity))).
    vm_compute. apply list_elem_of_further, list_elem_of_here.
  - eapply (proj2 (Remove_present_absent 2
              [OpSet "x" "1" 0 100 100; OpSet "k" "old" 0 150 150] _ "y"
              ltac:(lia) ltac:(vm_compute; reflexivity))).
    vm_compute. intros H. apply elem_of_cons in H as [H|H]; [done|].
    apply elem_of_cons in H as [H|H]; [done|]. by apply elem_of_nil in H.
Defined.

(** *** The index and the list *)

(** X5.  In every state reached from a new cache by calls made one
    after the other, none starting before the one before it has
    returned, the recency list holds no key twice, the index holds exactly the keys of the list,
    and the index has as many entries as [Size()] reports. *)
Theorem index_matches_list C ops c :
  0 <= C -> run (NewLRUCache C) ops = Some c ->
  NoDup (keys c)
  ∧ (∀ k, is_Some (items c !! k) <-> k ∈ keys c)
  ∧ Z.of_nat (size (items c)) = Size_ c.
Proof.
  intros HC Hrun. destruct (run_reachable C ops c HC Hrun) as [Hwf _].
  pose proof (keys_NoDup c Hwf) as Hnd.
  split_and!; [done|intros k; by apply wf_items_keys|].
  rewrite Size__keys. f_equal.
  assert (dom (items c) = list_to_set (keys c)) as Hdom.
  { apply set_eq. intros k.
    rewrite elem_of_dom, elem_of_list_to_set. by apply wf_items_keys. }
  rewrite <- size_dom, Hdom. by apply size_list_to_set.
Qed.

Lemma index_matches_list_witness :
  ∃ c, run (NewLRUCache 1) [OpSet "x" "1" 0 100 100; OpSet "k" "old" 0 150 150]
       = Some c
  ∧ NoDup (keys c)
  ∧ (∀ k, is_Some (items c !! k) <-> k ∈ keys c)
  ∧ Z.of_nat (size (items c)) = Size_ c.
Proof.
  eexists. split; [vm_compute; reflexivity|].
  eapply (index_matches_list 1
            [OpSet "x" "1" 0 100 100; OpSet "k" "old" 0 150 150]).
  - lia.
  - vm_compute; reflexivity.
Defined.

(** *** The aggregate size *)

Lemma sumOver_ext f g (l : list nat) :
  (∀ e, e ∈ l -> f e = g e) -> sumOver f l = sumOver g l.
Proof.
  induction l as [|x l IH]; intros Hfg; [done|]. simpl.
  rewrite Hfg by (by left). rewrite IH; [done|].
  intros e He. apply Hfg. by right.
Qed.

Lemma sumOver_Remove f e (l : list nat) :
  NoDup l -> e ∈ l -> sumOver f (list_Remove e l) = sumOver f l - f e.
Proof.
  unfold list_Remove. induction l as [|x l IH]; intros Hnd Hin.
  - by apply elem_of_nil in Hin.
  - apply list.NoDup_cons in Hnd as [Hx Hnd].
    destruct (decide (x = e)) as [->|Hne].
    + rewrite filter_cons_False by (intros H; by apply H).
      rewrite filter_ne_notin by done. simpl. lia.
    + rewrite filter_cons_True by done.
      apply elem_of_cons in Hin as [->|Hin]; [done|].
      simpl. rewrite IH by done. lia.
Qed.

Lemma sumOver_MoveToFront f e (l : list nat) :
  NoDup l -> sumOver f (list_MoveToFront e l) = sumOver f l.
Proof.
  intros Hnd. unfold list_MoveToFront. case_decide as Hin; [|done].
  simpl. rewrite sumOver_Remove by done. lia.
Qed.

Lemma accounted_evictElement c e :
  accounted c -> e ∈ evictionList c -> accounted (evictElement c e).1.
Proof.
  intros (Hwf & Ht & Hs) Hin. split_and!.
  - by apply wf_evictElement.
  - unfold sumSizes. simpl. rewrite sumOver_Remove; [|by destruct Hwf|done].
    rewrite Ht. apply wrap64_sub_l.
  - intros x [Hx _]%elem_of_list_Remove. by apply Hs.
Qed.

Lemma accounted_evictOldest c : accounted c -> accounted (evictOldest c).1.
Proof.
  intros Ha. unfold evictOldest.
  destruct (list_Back (evictionList c)) as [e|] eqn:Hb; [|done].
  apply accounted_evictElement; [done|]. by apply list_Back_elem_of.
Qed.

Lemma accounted_evictLoop fuel c c' :
  accounted c -> evictLoop fuel c = Some c' -> accounted c'.
Proof.
  revert c. induction fuel as [|fuel IH]; intros c Ha; simpl.
  - case_decide; [done|]. by intros [= <-].
  - case_decide; [|by intros [= <-]]. apply IH. by apply accounted_evictOldest.
Qed.

Lemma accounted_Set_ c key value ttl now now' c' b :
  accounted c -> Set_ c key value ttl now now' = Some (c', b) -> accounted c'.
Proof.
  intros (Hwf & Ht & Hs) HS.
  pose proof (wf_Set_ _ _ _ _ _ _ _ _ Hwf HS) as Hwf'.
  pose proof Hwf as (Hnd & Hfresh & Hidx).
  revert HS. unfold Set_. destruct (items c !! key) as [e|] eqn:Hl.
  - intros [= <- <-]. split; [done|]. pose proof Hl as [Hin _]%Hidx. split.
    + unfold sumSizes. simpl. rewrite sumOver_MoveToFront by done.
      rewrite wrap64_add_l, Ht. simpl.
      match goal with |- wrap64 (wrap64 ?s - ?o + ?n) = _ =>
        replace (wrap64 s - o + n) with (wrap64 s + (n - o)) by lia end.
      rewrite wrap64_add_l. f_equal.
      assert (sumOver (λ x, Size ((<[e := mkCacheItem key value
                (Z.of_nat (String.length value)) now'
                (if 0 <? ttl then Time_Add now ttl else 0)]> (elemValue c)) x))
                (evictionList c)
              = sumOver (λ x, Size (elemValue c x)) (evictionList c)
                - Size (elemValue c e) + Z.of_nat (String.length value)) as ->;
        [|unfold sumSizes; lia].
      clear -Hnd Hin. induction (evictionList c) as [|x l IH].
      * by apply elem_of_nil in Hin.
      * apply list.NoDup_cons in Hnd as [Hx Hnd]. simpl.
        destruct (decide (x = e)) as [->|Hne].
        -- rewrite fn_lookup_insert. simpl.
           rewrite (sumOver_ext _ (λ x, Size (elemValue c x))); [lia|].
           intros y Hy. rewrite fn_lookup_insert_ne; [done|]. by intros ->.
        -- rewrite fn_lookup_insert_ne by done.
           apply elem_of_cons in Hin as [->|Hin]; [done|].
           rewrite IH by done. lia.
    + intros x Hx%elem_of_list_MoveToFront. simpl.
      destruct (decide (x = e)) as [->|Hne].
      * by rewrite fn_lookup_insert.
      * rewrite fn_lookup_insert_ne by done. by apply Hs.
  - intros Hrun. apply bind_Some in Hrun as (c2 & Hloop & [= <- <-]).
    eapply accounted_evictLoop; [|done].
    assert (nextElem c ∉ evictionList c) as Hnx by (intros Hin%Hfresh; lia).
    split_and!.
    + unfold wf. simpl.
      match goal with |- context [<[_ := ?it]> (elemValue c)] =>
        apply (wf_parts_PushFront _ _ _ _ it) end; done.
    + unfold sumSizes. simpl. rewrite fn_lookup_insert. simpl.
      rewrite Ht, wrap64_add_l. f_equal.
      rewrite (sumOver_ext _ (λ x, Size (elemValue c x))); [unfold sumSizes; lia|].
      intros y Hy. rewrite fn_lookup_insert_ne; [done|].
      intros Heq. apply Hnx. by rewrite Heq.
    + intros x Hx. simpl in *. destruct (decide (x = nextElem c)) as [->|Hne].
      * by rewrite fn_lookup_insert.
      * rewrite fn_lookup_insert_ne by done.
        apply elem_of_cons in Hx as [?|Hx]; [done|]. by apply Hs.
Qed.

Lemma accounted_Get c key now : accounted c -> accounted (Get c key now).1.
Proof.
  intros Ha. pose proof Ha as (Hwf & Ht & Hs).
  unfold Get, Get_probe, Get_finish.
  destruct (items c !! key) as [e|] eqn:Hl; [|done].
  pose proof (wf_lookup_elem_of _ _ _ Hwf Hl) as Hin.
  case_match.
  - apply (accounted_evictElement c e Ha Hin).
  - split_and!.
    + unfold wf. simpl. by apply wf_parts_MoveToFront.
    + unfold sumSizes. simpl. rewrite sumOver_MoveToFront; [done|by destruct Hwf].
    + intros x Hx%elem_of_list_MoveToFront. by apply Hs.
Qed.

Lemma accounted_step c o c' : accounted c -> step c o = Some c' -> accounted c'.
Proof.
  intros Ha. destruct o as [key value ttl now now'|key now|key|]; simpl.
  - destruct (Set_ c key value ttl now now') as [[c1 b]|] eqn:HS; [|done].
    intros [= <-]. by eapply accounted_Set_.
  - intros [= <-]. by apply accounted_Get.
  - intros [= <-]. unfold Remove.
    destruct (items c !! key) as [e|] eqn:Hl; [|done].
    apply accounted_evictElement; [done|].
    destruct Ha as [Hwf _]. by eapply wf_lookup_elem_of.
  - intros [= <-]. destruct Ha as (Hwf & _ & _). split_and!.
    + by apply wf_Clear.
    + done.
    + intros e He. by apply elem_of_nil in He.
Qed.

(** X6.  In every state reached from a new cache by calls made one
    after the other, none starting before the one before it has
    returned, each item has [Size == len(Value)] and the aggregate
    [totalSize] is the sum of the sizes of the items held, as a 64-bit
    integer. *)
Theorem totalSize_is_sum C ops c :
  run (NewLRUCache C) ops = Some c ->
  totalSize c = wrap64 (sumSizes c) ∧ sized c.
Proof.
  intros Hrun.
  assert (accounted c) as (_ & Ht & Hs); [|done].
  assert (accounted (NewLRUCache C)) as Ha0.
  { split_and!; [apply wf_NewLRUCache|done|].
    intros e He. by apply elem_of_nil in He. }
  revert Hrun Ha0. generalize (NewLRUCache C). clear C.
  induction ops as [|o ops IH]; intros c0; simpl.
  - by intros [= <-].
  - destruct (step c0 o) as [c1|] eqn:Hs; [|done]. simpl.
    intros Hrun Ha. eapply IH; [done|]. by eapply accounted_step.
Qed.

Lemma totalSize_is_sum_witness :
  ∃ c, run (NewLRUCache 2)
         [OpSet "x" "1" 0 100 100; OpSet "k" "old" 0 150 150;
          OpSet "x" "longer" 0 160 160; OpRemove "k"] = Some c
  ∧ totalSize c = wrap64 (sumSizes c) ∧ sized c.
Proof.
  eexists. split; [vm_compute; reflexivity|].
  eapply (totalSize_is_sum 2
            [OpSet "x" "1" 0 100 100; OpSet "k" "old" 0 150 150;
             OpSet "x" "longer" 0 160 160; OpRemove "k"]).
  vm_compute; reflexivity.
Defined.

(** *** Hits and misses *)

Lemma evictLoop_hits_misses fuel c c' :
  evictLoop fuel c = Some c' -> hits c' = hits c ∧ misses c' = misses c.
Proof.
  revert c. induction fuel as [|fuel IH]; intros c; simpl.
  - case_decide; [done|]. by intros [= <-].
  - case_decide; [|by intros [= <-]]. intros Hrun%IH.
    unfold evictOldest in Hrun. by destruct (list_Back (evictionList c)).
Qed.

(** What one call does to the two counters. *)
Lemma step_hits_misses c o c' :
  step c o = Some c' ->
  (hits c', misses c')
  = match o with
    | OpGet key now =>
        match (Get c key now).2 with
        | Some _ => (incr64 (hits c), misses c)
        | None => (hits c, incr64 (misses c))
        end
    | _ => (hits c, misses c)
    end.
Proof.
  destruct o as [key value ttl now now'|key now|key|]; simpl.
  - unfold Set_. destruct (items c !! key) as [e|].
    + by intros [= <-].
    + intros Hrun. apply fmap_Some in Hrun as ([c2 b] & Hrun & ->).
      apply bind_Some in Hrun as (c3 & Hloop & [= <- <-]).
      apply evictLoop_hits_misses in Hloop as [H1 H2]. simpl in *.
      by rewrite H1, H2.
  - intros [= <-]. unfold Get, Get_probe, Get_finish.
    destruct (items c !! key) as [e|]; [case_match|]; done.
  - intros [= <-]. unfold Remove. by destruct (items c !! key).
  - by intros [= <-].
Qed.

Lemma countFound_countGets c0 ops c :
  run c0 ops = Some c ->
  (countFound c0 ops).1 + (countFound c0 ops).2 = countGets ops.
Proof.
  revert c0. induction ops as [|o ops IH]; intros c0; simpl; [done|].
  destruct (step c0 o) as [c1|] eqn:Hs; [|done]. simpl. intros Hrun.
  specialize (IH c1 Hrun).
  destruct o as [key value ttl now now'|key now|key|]; [done| |done..].
  destruct (Get c0 key now).2; simpl; lia.
Qed.

Lemma run_counts c0 ops c :
  run c0 ops = Some c ->
  wrap64 (hits c) = wrap64 (hits c0 + (countFound c0 ops).1)
  ∧ wrap64 (misses c) = wrap64 (misses c0 + (countFound c0 ops).2).
Proof.
  revert c0. induction ops as [|o ops IH]; intros c0; simpl.
  - intros [= <-]. split; f_equal; lia.
  - destruct (step c0 o) as [c1|] eqn:Hs; [|done]. simpl. intros Hrun.
    destruct (IH c1 Hrun) as [Hh Hm]. rewrite Hh, Hm.
    apply step_hits_misses in Hs.
    destruct o as [key value ttl now now'|key now|key|];
      [by injection Hs as Heq1 Heq2; rewrite Heq1, Heq2| |
       by injection Hs as Heq1 Heq2; rewrite Heq1, Heq2..].
    destruct (Get c0 key now).2; injection Hs as Heq1 Heq2;
      rewrite Heq1, Heq2; simpl; unfold incr64;
      rewrite ?wrap64_add_l; split; f_equal; lia.
Qed.

Lemma run_counters_inInt64 c0 ops c :
  inInt64 (hits c0) -> inInt64 (misses c0) -> run c0 ops = Some c ->
  inInt64 (hits c) ∧ inInt64 (misses c).
Proof.
  assert (∀ z, inInt64 (wrap64 z)) as Hw.
  { intros z. unfold inInt64, wrap64, minInt64, maxInt64.
    pose proof (Z.mod_pos_bound (z + 2 ^ 63) (2 ^ 64)). lia. }
  revert c0. induction ops as [|o ops IH]; intros c0 Hh Hm; simpl.
  - by intros [= <-].
  - destruct (step c0 o) as [c1|] eqn:Hs; [|done]. simpl.
    apply step_hits_misses in Hs.
    assert (inInt64 (hits c1) ∧ inInt64 (misses c1)) as [Hh1 Hm1];
      [|by apply IH].
    destruct o as [key value ttl now now'|key now|key|];
      [by injection Hs as Heq1 Heq2; rewrite Heq1, Heq2| |
       by injection Hs as Heq1 Heq2; rewrite Heq1, Heq2..].
    destruct (Get c0 key now).2; injection Hs as Heq1 Heq2;
      rewrite Heq1, Heq2; split; done || apply Hw.
Qed.

(** X7.  Every call of [Get] counts exactly one hit, when it returns
    an item, or one miss, when it returns none, and no other call
    touches these counters.  So, in a state reached from a new cache
    by calls made one after the other, the hits are the calls of [Get]
    that returned an item and the misses are those that returned none,
    as 64-bit integers, and hits plus misses is the number of calls of
    [Get]. *)
Theorem hits_plus_misses_counts_Gets C ops c :
  run (NewLRUCache C) ops = Some c ->
  hits c = wrap64 (countFound (NewLRUCache C) ops).1
  ∧ misses c = wrap64 (countFound (NewLRUCache C) ops).2
  ∧ (countFound (NewLRUCache C) ops).1 + (countFound (NewLRUCache C) ops).2
    = countGets ops
  ∧ wrap64 (hits c + misses c) = wrap64 (countGets ops)
  ∧ ∀ c1 o c2, step c1 o = Some c2 ->
      (hits c2, misses c2)
      = match o with
        | OpGet key now =>
            match (Get c1 key now).2 with
            | Some _ => (incr64 (hits c1), misses c1)
            | None => (hits c1, incr64 (misses c1))
            end
        | _ => (hits c1, misses c1)
        end.
Proof.
  intros Hrun.
  destruct (run_counts _ _ _ Hrun) as [Hh Hm].
  destruct (run_counters_inInt64 (NewLRUCache C) ops c) as [Hih Him];
    [by vm_compute..|done|].
  rewrite wrap64_id in Hh, Hm by done.
  change (hits (NewLRUCache C)) with 0 in Hh.
  change (misses (NewLRUCache C)) with 0 in Hm.
  rewrite Z.add_0_l in Hh, Hm.
  pose proof (countFound_countGets _ _ _ Hrun) as Hsum.
  split_and!; [done..| |apply step_hits_misses].
  rewrite Hh, Hm, wrap64_add_l, wrap64_add_r. by rewrite Hsum.
Qed.

Lemma hits_plus_misses_counts_Gets_witness :
  let ops := [OpSet "x" "1" 0 100 100; OpGet "x" 110; OpGet "y" 120; OpClear;
              OpGet "x" 130; OpRemove "x"] in
  ∃ c, run (NewLRUCache 2) ops = Some c
  ∧ countFound (NewLRUCache 2) ops = (1, 2)
  ∧ hits c = 1 ∧ misses c = 2
  ∧ hits c = wrap64 (countFound (NewLRUCache 2) ops).1
  ∧ misses c = wrap64 (countFound (NewLRUCache 2) ops).2
  ∧ wrap64 (hits c + misses c) = wrap64 (countGets ops).
Proof.
  intros ops. eexists. split; [vm_compute; reflexivity|].
  split; [vm_compute; reflexivity|].
  split; [vm_compute; reflexivity|].
  split; [vm_compute; reflexivity|].
  destruct (hits_plus_misses_counts_Gets 2 ops _ ltac:(vm_compute; reflexivity))
    as (Hh & Hm & _ & Hsum & _).
  split_and!; [exact Hh|exact Hm|exact Hsum].
Defined.

(** *** A negative capacity *)

(** X8.  On a cache built with a negative capacity the first [Set]
    does not return: its eviction loop empties the list and then runs
    for ever, the loop condition [Len() > capacity] never becoming
    false. *)
Theorem Set_negative_capacity_never_returns C key value ttl now now' :
  C < 0 ->
  Set_ (NewLRUCache C) key value ttl now now' = None
  ∧ (∀ fuel c, capacity c = C -> evictLoop fuel c = None).
Proof.
  intros HC. split.
  - unfold Set_.
    change (items (NewLRUCache C) !! key) with ((∅ : gmap string nat) !! key).
    rewrite lookup_empty, evictLoop_negative_capacity; [done|]. simpl. lia.
  - intros fuel c Hc. apply evictLoop_negative_capacity. lia.
Qed.

Lemma Set_negative_capacity_never_returns_witness :
  Set_ (NewLRUCache (-1)) "k" "v" 0 100 100 = None
  ∧ (∀ fuel c, capacity c = -1 -> evictLoop fuel c = None).
Proof. apply (Set_negative_capacity_never_returns (-1)). lia. Defined.
End cache_more.

(** ** Decimal numbers and cuts *)

Section gostr_decimal.
Import gostr gostrx.

Lemma isDigit_cases (c : ascii) :
  isDigit c = true ->
  c ≠ "-"%char ∧ c ≠ "+"%char ∧ Ascii.eqb c "010" = false
  ∧ (∀ s, leadingSpace (String c s) = None)
  ∧ 0 <= digitVal c <= 9.
Proof.
  destruct c as [[] [] [] [] [] [] [] []]; intros H;
    try (vm_compute in H; discriminate H);
    (split; [congruence|]); (split; [congruence|]); (split; [reflexivity|]);
    (split; [intros s; vm_compute; reflexivity|]); vm_compute; split; congruence.
Qed.

(** [SkipSpace] stops at a byte that starts no white-space rune. *)
Lemma scanSkipSpace_stop (c : ascii) (s : string) :
  Ascii.eqb c "010" = false -> leadingSpace (String c s) = None ->
  scanSkipSpace (String c s) = Some (String c s).
Proof.
  intros Hlf Hsp. unfold scanSkipSpace. simpl String.length.
  cbn [scanSkipSpaceN]. by rewrite Hlf, Hsp.
Qed.

Lemma Sscanf_d_unsigned (c : ascii) (s : string) (n : Z) :
  isDigit c = true -> takeDigits s = s ->
  digitsValue 0 (String c s) = Some n -> inInt64 n ->
  Sscanf_d (String c s) = Some n.
Proof.
  intros Hc Hs Hn [Hlo Hhi].
  destruct (isDigit_cases c Hc) as (Hm & Hp & Hlf & Hsp & _).
  unfold Sscanf_d. rewrite scanSkipSpace_stop by done. cbn [mbind option_bind].
  assert ((match String c s with
           | String "-" s' => (true, s')
           | String "+" s' => (false, s')
           | _ => (false, String c s)
           end) = (false, String c s)) as ->.
  { destruct c as [[] [] [] [] [] [] [] []]; try reflexivity; congruence. }
  cbn [takeDigits]. rewrite Hc, Hs. rewrite Hn. cbn [mbind option_bind].
  apply Z.leb_le in Hlo, Hhi. by rewrite Hlo, Hhi.
Qed.

Lemma Sscanf_d_negative (c : ascii) (s : string) (n : Z) :
  isDigit c = true -> takeDigits s = s ->
  digitsValue 0 (String c s) = Some n -> inInt64 (- n) ->
  Sscanf_d (String "-" (String c s)) = Some (- n).
Proof.
  intros Hc Hs Hn [Hlo Hhi].
  unfold Sscanf_d.
  rewrite scanSkipSpace_stop by (try reflexivity; vm_compute; reflexivity).
  cbn [mbind option_bind].
  cbn [takeDigits]. rewrite Hc, Hs. rewrite Hn. cbn [mbind option_bind].
  apply Z.leb_le in Hlo, Hhi. by rewrite Hlo, Hhi.
Qed.

Lemma digitsValue_uint_acc (d : Decimal.uint) (p : positive) :
  digitsValue (Z.pos p) (NilEmpty.string_of_uint d)
  = Some (Z.pos (Pos.of_uint_acc d p)).
Proof.
  revert p. induction d; intros p; cbn [NilEmpty.string_of_uint Pos.of_uint_acc digitsValue];
    [done|..];
    (etrans; [|apply IHd]); vm_compute isDigit; f_equal;
    unfold digitVal; vm_compute (Z.of_N _); lia.
Qed.

Lemma digitsValue_uint (d : Decimal.uint) :
  digitsValue 0 (NilEmpty.string_of_uint d) = Some (Z.of_N (Pos.of_uint d)).
Proof.
  induction d; cbn [NilEmpty.string_of_uint Pos.of_uint digitsValue]; [done|..];
    vm_compute isDigit; [exact IHd|..]; apply digitsValue_uint_acc.
Qed.

Lemma takeDigits_uint (d : Decimal.uint) :
  takeDigits (NilEmpty.string_of_uint d) = NilEmpty.string_of_uint d.
Proof.
  induction d; cbn [NilEmpty.string_of_uint takeDigits]; [done|..];
    vm_compute isDigit; by rewrite IHd.
Qed.

Lemma uint_head (d : Decimal.uint) :
  d ≠ Decimal.Nil ->
  ∃ c s, NilEmpty.string_of_uint d = String c s ∧ isDigit c = true
         ∧ takeDigits s = s.
Proof.
  destruct d; [done|..]; intros _; cbn [NilEmpty.string_of_uint];
    eexists _, _; (split; [reflexivity|]); (split; [reflexivity|]);
    apply takeDigits_uint.
Qed.

Lemma Itoa_pos (p : positive) :
  Itoa (Z.pos p) = NilEmpty.string_of_uint (Pos.to_uint p).
Proof.
  unfold Itoa. cbn [Z.to_int NilZero.string_of_int]. unfold NilZero.string_of_uint.
  pose proof (DecimalPos.Unsigned.to_uint_nonnil p) as Hnn.
  by destruct (Pos.to_uint p).
Qed.

Lemma Itoa_neg (p : positive) :
  Itoa (Z.neg p) = String "-" (NilEmpty.string_of_uint (Pos.to_uint p)).
Proof.
  unfold Itoa. cbn [Z.to_int NilZero.string_of_int]. f_equal.
  unfold NilZero.string_of_uint.
  pose proof (DecimalPos.Unsigned.to_uint_nonnil p) as Hnn.
  by destruct (Pos.to_uint p).
Qed.

(** The verb [%d] of [Sscanf] reads back what the verb [%d] of
    [Fprintf] wrote. *)
Lemma Sscanf_d_Itoa (z : Z) : inInt64 z -> Sscanf_d (Itoa z) = Some z.
Proof.
  intros Hz. destruct z as [|p|p].
  - reflexivity.
  - rewrite Itoa_pos.
    destruct (uint_head (Pos.to_uint p)) as (c & s & Heq & Hc & Hs);
      [apply DecimalPos.Unsigned.to_uint_nonnil|].
    rewrite Heq. apply Sscanf_d_unsigned; [done..| |done].
    by rewrite <- Heq, digitsValue_uint, DecimalPos.Unsigned.of_to.
  - rewrite Itoa_neg.
    destruct (uint_head (Pos.to_uint p)) as (c & s & Heq & Hc & Hs);
      [apply DecimalPos.Unsigned.to_uint_nonnil|].
    rewrite Heq. change (Z.neg p) with (- Z.pos p).
    apply Sscanf_d_negative; [done..| |done].
    by rewrite <- Heq, digitsValue_uint, DecimalPos.Unsigned.of_to.
Qed.

Lemma occurs_uint (c : ascii) (d : Decimal.uint) :
  isDigit c = false -> occurs c (NilEmpty.string_of_uint d) = false.
Proof.
  intros Hc. induction d; cbn [NilEmpty.string_of_uint occurs]; [done|..];
    rewrite IHd, orb_false_r; apply Ascii.eqb_neq; intros <-; discriminate Hc.
Qed.

Lemma Itoa_shape (z : Z) :
  Itoa z ≠ "" ∧ ∀ c, isDigit c = false -> c ≠ "-"%char -> occurs c (Itoa z) = false.
Proof.
  destruct z as [|p|p].
  - split; [done|]. intros c Hc _. change (Itoa 0) with "0".
    cbn [occurs]. rewrite orb_false_r.
    apply Ascii.eqb_neq. intros <-. discriminate Hc.
  - rewrite Itoa_pos. split.
    + destruct (uint_head (Pos.to_uint p)) as (c & s & -> & _);
        [apply DecimalPos.Unsigned.to_uint_nonnil|done].
    + intros c Hc _. by apply occurs_uint.
  - rewrite Itoa_neg. split; [done|]. intros c Hc Hm. cbn [occurs].
    rewrite occurs_uint by done. rewrite orb_false_r.
    apply Ascii.eqb_neq. congruence.
Qed.

End gostr_decimal.

(** ** More on Go strings *)

Section gostr_more.
Import gostr.

Lemma HasPrefix_spec (s prefix : string) :
  HasPrefix s prefix = true <-> ∃ rest, s = prefix +:+ rest.
Proof.
  revert s. induction prefix as [|p prefix IH]; intros s; simpl.
  - split; [by exists s|done].
  - destruct s as [|c s].
    + split; [done|]. by intros [rest Hr].
    + rewrite andb_true_iff, Ascii.eqb_eq, IH. split.
      * intros [-> [rest ->]]. by exists rest.
      * intros [rest Hr]. rewrite append_cons in Hr. injection Hr as -> ->.
        split; [done|by exists rest].
Qed.

Lemma HasPrefix_drop (s prefix : string) :
  HasPrefix s prefix = true -> s = prefix +:+ drop (String.length prefix) s.
Proof.
  intros [rest ->]%HasPrefix_spec. by rewrite drop_append.
Qed.

(** [Cut] cuts at an occurrence of the separator. *)
Lemma Cut_Some (s sep before after : string) :
  Cut s sep = Some (before, after) -> s = before +:+ sep +:+ after.
Proof.
  revert before. induction s as [|c s IH]; intros before; simpl.
  - destruct (HasPrefix "" sep) eqn:Hp; [|done].
    intros [= <- <-]. by apply HasPrefix_drop.
  - destruct (HasPrefix (String c s) sep) eqn:Hp.
    + intros [= <- <-]. by apply HasPrefix_drop.
    + destruct (Cut s sep) as [[b a]|]; [|done].
      intros [= <- <-]. rewrite append_cons. f_equal. by apply IH.
Qed.

Lemma append_assoc (a b c : string) : (a +:+ b) +:+ c = a +:+ (b +:+ c).
Proof. induction a as [|x a IH]; [done|]. rewrite !append_cons. by f_equal. Qed.

Lemma append_nil_r (a : string) : a +:+ "" = a.
Proof. induction a as [|x a IH]; [done|]. rewrite append_cons. by f_equal. Qed.

Lemma Sscanf_d_range (s : string) (v : Z) :
  Sscanf_d s = Some v -> inInt64 v.
Proof.
  unfold Sscanf_d. destruct (scanSkipSpace s) as [s1|]; [|done]. simpl.
  set (p := match s1 with "" => _ | String _ _ => _ end).
  destruct p as [neg s2]. destruct (takeDigits s2) as [|d ds]; [done|].
  destruct (if isDigit d then _ else _) as [n|]; [|done]. simpl.
  destruct (_ && _) eqn:Hr; [|done].
  intros [= <-]. apply andb_true_iff in Hr as [H1 H2].
  apply Z.leb_le in H1, H2. done.
Qed.

End gostr_more.

(** ** More on the request handler *)

Section proxy_more.
Import gostr proxy proxyx.

Lemma uncacheable_isCacheable r : uncacheable r -> isCacheable r = false.
Proof.
  unfold uncacheable, isCacheable. intros [H|[H|H]].
  - by rewrite H.
  - destruct (negb (cacheables (Method r))); [done|].
    apply String.eqb_neq in H. by rewrite H.
  - destruct (negb (cacheables (Method r))); [done|].
    destruct (negb _); [done|]. by rewrite H.
Qed.

Lemma unstorable_isResponseCacheable resp :
  unstorable resp -> isResponseCacheable resp = false.
Proof.
  unfold unstorable, isResponseCacheable, StatusOK. intros [H|[H|H]].
  - apply Z.eqb_neq in H. by rewrite H.
  - destruct (negb _); [done|]. by rewrite H.
  - destruct (negb _); [done|]. destruct (Contains _ _); [done|].
    apply String.eqb_neq in H. by rewrite H.
Qed.

Lemma handleRequest_resolved {S} `{Cache S} E cfg clk (st : S) r :
  match resolved E r with
  | Some r' => handleRequest E cfg clk st r = serve E cfg clk st r'
               ∧ isCacheable r' = isCacheable r ∧ Method r' = Method r
  | None => ∃ msg, handleRequest E cfg clk st r = Some (ReplyError 400 msg, st)
  end.
Proof.
  unfold resolved, handleRequest.
  destruct (negb (String.eqb (URL_Query_Get E (reqURL r) "url") "")).
  - destruct (url_Parse E (URL_Query_Get E (reqURL r) "url")); [by eexists|done].
  - destruct (String.eqb (Scheme (reqURL r)) "" || String.eqb (Host (reqURL r)) "");
      [by eexists|done].
Qed.

(** X9.  A request that [isCacheable] refuses (method neither GET nor
    HEAD, or a first Authorization value that is not empty, or a first
    Cache-Control value that contains [no-store]) is never answered
    from the cache and leaves the cache exactly as it was, for every
    implementation of the cache and whatever the upstream answers,
    whether the handler writes a reply or panics in [WriteHeader]. *)
Theorem uncacheable_request_bypasses_cache {S} `{Cache S} E cfg clk (st : S) r :
  uncacheable r ->
  ∃ rep, handleRequest E cfg clk st r = Some (rep, st)
         ∧ ∀ cached, rep ≠ ReplyHit cached.
Proof.
  intros Hu%uncacheable_isCacheable.
  pose proof (handleRequest_resolved E cfg clk st r) as Hres.
  destruct (resolved E r) as [r'|]; [|destruct Hres as [msg ->]; by eexists].
  destruct Hres as (-> & Hc & _). rewrite <- Hc in Hu.
  unfold serve, forward. rewrite Hu.
  destruct (negb (isDomainAllowed cfg (Host (reqURL r')))); [by eexists|].
  destruct (cloneRequest E r'); [by eexists|].
  destruct (client_Do E o) as [err|resp]; [by eexists|].
  destruct (negb (validWriteHeaderCode (StatusCode resp))); [by eexists|].
  destruct (Body resp); by eexists.
Qed.

Lemma uncacheable_request_bypasses_cache_witness :
  let E := samplex.answering samplex.pageResp in
  let st := default (cache.NewLRUCache 2)
              (snd <$> handleRequest E sample.cfg sample.clk
                         (cache.NewLRUCache 2) samplex.getReq) in
  (∃ cached st', handleRequest E sample.cfg samplex.clkLater st samplex.getReq
                 = Some (ReplyHit cached, st'))
  ∧ ∃ rep, handleRequest E sample.cfg samplex.clkLater st samplex.authReq
           = Some (rep, st)
           ∧ ∀ cached, rep ≠ ReplyHit cached.
Proof.
  intros E st. split.
  - eexists _, _. vm_compute. reflexivity.
  - apply (uncacheable_request_bypasses_cache E sample.cfg samplex.clkLater st
             samplex.authReq).
    right. left. vm_compute. discriminate.
Defined.

(** X10.  An upstream response that [isResponseCacheable] refuses
    (status other than 200, or a first Cache-Control value that
    contains [no-store], or a first Set-Cookie value that is not empty)
    is passed on to the client and not stored: the cache is as the
    lookup of the request's cache key left it, and untouched when the
    request is not cacheable. *)
Theorem unstorable_response_not_stored {S} `{Cache S} E cfg clk (st st' : S) r resp :
  handleRequest E cfg clk st r = Some (ReplyMiss resp, st') ->
  unstorable resp ->
  ∃ r', resolved E r = Some r'
        ∧ st' = if isCacheable r
                then (Cache_Get st (createCacheKey E r') (atGet clk)).1
                else st.
Proof.
  intros Hh Hu%unstorable_isResponseCacheable.
  assert (∀ st1 r', forward E cfg clk st1 r' = Some (ReplyMiss resp, st') ->
            st' = st1) as Hfwd.
  { intros st1 r'. unfold forward. destruct (cloneRequest E r'); [done|].
    destruct (client_Do E o) as [err|resp']; [done|].
    destruct (negb (validWriteHeaderCode (StatusCode resp'))); [done|].
    destruct (Body resp') eqn:Hb.
    - destruct (isCacheable r' && isResponseCacheable resp') eqn:Hc.
      + destruct (cacheResponse _ _ _ _ _ _ _); [|done].
        intros [= -> <-]. rewrite Hu, andb_false_r in Hc. done.
      + by intros [= -> <-].
    - by intros [= -> <-]. }
  pose proof (handleRequest_resolved E cfg clk st r) as Hres.
  destruct (resolved E r) as [r'|].
  2:{ destruct Hres as [msg Hres]. by rewrite Hres in Hh. }
  destruct Hres as (Hres & Hc & _). rewrite Hres in Hh. exists r'.
  split; [done|]. rewrite <- Hc. revert Hh. unfold serve.
  destruct (negb (isDomainAllowed cfg (Host (reqURL r')))); [done|].
  destruct (isCacheable r'); [|apply Hfwd].
  destruct (Cache_Get st (createCacheKey E r') (atGet clk)) as [st1 [item|]].
  - destruct (parseCachedResponse (cache.Value item)) as [cached|]; [|apply Hfwd].
    by destruct (negb (validWriteHeaderCode (cStatusCode cached))).
  - apply Hfwd.
Qed.

Lemma unstorable_response_not_stored_witness :
  let E := samplex.answering samplex.notFoundResp in
  let st := cache.NewLRUCache 2 in
  let st' := (cache.Get st (createCacheKey E samplex.getReq) (atGet sample.clk)).1 in
  handleRequest E sample.cfg sample.clk st samplex.getReq
  = Some (ReplyMiss samplex.notFoundResp, st')
  ∧ ∃ r', resolved E samplex.getReq = Some r'
          ∧ st' = if isCacheable samplex.getReq
                  then (Cache_Get st (createCacheKey E r') (atGet sample.clk)).1
                  else st.
Proof.
  intros E st st'.
  assert (handleRequest E sample.cfg sample.clk st samplex.getReq
          = Some (ReplyMiss samplex.notFoundResp, st')) as H1
    by (vm_compute; reflexivity).
  split; [exact H1|].
  apply (unstorable_response_not_stored E sample.cfg sample.clk st st'
           samplex.getReq samplex.notFoundResp H1).
  left. vm_compute. discriminate.
Defined.

Lemma colon_not_token (m : string) c :
  allTokenBytes (String c m) = true -> c ≠ ":"%char.
Proof.
  simpl. intros [Hc _]%andb_true_iff ->. done.
Qed.

Lemma append_nil_l (s : string) : "" +:+ s = s.
Proof. done. Qed.

Lemma method_colon_inj (m1 m2 u1 u2 : string) :
  allTokenBytes m1 = true -> allTokenBytes m2 = true ->
  m1 +:+ ":" +:+ u1 = m2 +:+ ":" +:+ u2 -> m1 = m2 ∧ u1 = u2.
Proof.
  revert m2. induction m1 as [|c1 m1 IH]; intros [|c2 m2] H1 H2 Heq;
    repeat first [rewrite append_cons in Heq | rewrite append_nil_l in Heq].
  - by injection Heq as ->.
  - injection Heq as <- _. by apply colon_not_token in H2.
  - injection Heq as -> _. by apply colon_not_token in H1.
  - injection Heq as -> Heq.
    simpl in H1, H2. apply andb_true_iff in H1 as [_ H1].
    apply andb_true_iff in H2 as [_ H2].
    destruct (IH m2 H1 H2 Heq) as [-> ->]. done.
Qed.

(** X12.  Two requests whose methods are tokens get the same cache
    key only when they have the same method and the same URL text. *)
Theorem createCacheKey_injective E r1 r2 :
  allTokenBytes (Method r1) = true -> allTokenBytes (Method r2) = true ->
  createCacheKey E r1 = createCacheKey E r2 ->
  Method r1 = Method r2
  ∧ URL_String E (reqURL r1) = URL_String E (reqURL r2).
Proof. unfold createCacheKey. apply method_colon_inj. Qed.

Lemma createCacheKey_injective_witness :
  Method sample.otherReq = Method sample.otherReq
  ∧ URL_String sample.E0 (reqURL sample.otherReq)
    = URL_String sample.E0 (reqURL sample.otherReq).
Proof.
  apply (createCacheKey_injective sample.E0 sample.otherReq sample.otherReq);
    reflexivity.
Defined.

End proxy_more.

(** ** Cuts and splits *)

Section gostr_cuts.
Import gostr gostrx.

Lemma Cut_prefix (s sep : string) :
  HasPrefix s sep = true -> Cut s sep = Some ("", drop (String.length sep) s).
Proof. intros H. destruct s; cbn [Cut]; by rewrite H. Qed.

Lemma Cut_cons_ne (c c0 : ascii) (s sep' : string) :
  c ≠ c0 ->
  Cut (String c s) (String c0 sep')
  = prepend (String c "") (Cut s (String c0 sep')).
Proof.
  intros Hne. cbn [Cut HasPrefix].
  apply Ascii.eqb_neq in Hne. rewrite Hne. cbn [andb].
  by destruct (Cut s (String c0 sep')) as [[b a]|].
Qed.

Lemma prepend_prepend (p q : string) r :
  prepend p (prepend q r) = prepend (p +:+ q) r.
Proof. destruct r as [[b a]|]; [|done]. simpl. by rewrite append_assoc. Qed.

(** A cut skips a stretch in which the first byte of the separator
    does not occur. *)
Lemma Cut_skip (c0 : ascii) (sep' s rest : string) :
  occurs c0 s = false ->
  Cut (s +:+ rest) (String c0 sep') = prepend s (Cut rest (String c0 sep')).
Proof.
  induction s as [|c s IH]; cbn [occurs].
  - intros _. rewrite append_nil_l. by destruct (Cut rest _) as [[b a]|].
  - intros [Hc Hs]%orb_false_iff. apply Ascii.eqb_neq in Hc.
    rewrite append_cons, Cut_cons_ne, IH, prepend_prepend by done.
    by rewrite append_cons, append_nil_l.
Qed.

Lemma Cut_first (c0 : ascii) (sep' s after : string) :
  occurs c0 s = false ->
  Cut (s +:+ String c0 sep' +:+ after) (String c0 sep') = Some (s, after).
Proof.
  intros Hs. rewrite Cut_skip by done.
  rewrite Cut_prefix by (apply HasPrefix_spec; by eexists).
  rewrite drop_append. simpl. by rewrite append_nil_r.
Qed.

Lemma Cut_absent (c0 : ascii) (sep' s : string) :
  occurs c0 s = false -> Cut s (String c0 sep') = None.
Proof.
  intros Hs. rewrite <- (append_nil_r s) at 1. by rewrite Cut_skip.
Qed.

Lemma Join_cons2 (l l2 : string) (rest : list string) (sep : string) :
  Join (l :: l2 :: rest) sep = l +:+ sep +:+ Join (l2 :: rest) sep.
Proof. done. Qed.

Lemma Join_length (lines : list string) (sep : string) :
  (String.length sep * (length lines - 1) ≤ String.length (Join lines sep))%nat.
Proof.
  induction lines as [|l [|l2 rest] IH]; [simpl; lia..|].
  rewrite Join_cons2, !length_append.
  change (length (l :: l2 :: rest)) with (S (S (length rest))).
  change (length (l2 :: rest)) with (S (length rest)) in IH. lia.
Qed.

Lemma splitCuts_Join (c0 : ascii) (sep' : string) (lines : list string) (n : nat) :
  lines ≠ [] -> Forall (λ l, occurs c0 l = false) lines ->
  (length lines ≤ S n)%nat ->
  splitCuts n (Join lines (String c0 sep')) (String c0 sep') = lines.
Proof.
  revert n. induction lines as [|l [|l2 rest] IH]; intros n Hne Hall Hlen; [done|..].
  - apply list.Forall_cons in Hall as [Hl _]. cbn [Join].
    destruct n; cbn [splitCuts]; [done|]. by rewrite Cut_absent.
  - apply list.Forall_cons in Hall as [Hl Hall]. rewrite Join_cons2.
    destruct n as [|n]; [simpl in Hlen; lia|]. cbn [splitCuts].
    rewrite Cut_first by done. f_equal. apply IH; [done|done|simpl in *; lia].
Qed.

(** [Split] undoes [Join] when the first byte of the separator occurs
    in no element. *)
Lemma Split_Join (c0 : ascii) (sep' : string) (lines : list string) :
  lines ≠ [] -> Forall (λ l, occurs c0 l = false) lines ->
  Split (Join lines (String c0 sep')) (String c0 sep') = lines.
Proof.
  intros Hne Hall. unfold Split. apply splitCuts_Join; [done..|].
  pose proof (Join_length lines (String c0 sep')) as Hlen.
  simpl String.length in Hlen at 1. nia.
Qed.

End gostr_cuts.

(** ** The wire format of cached responses *)

Section wire_format.
Import gostr gostrx proxy proxyx.

Lemma occurs_append (c : ascii) (a b : string) :
  occurs c (a +:+ b) = occurs c a || occurs c b.
Proof.
  induction a as [|x a IH]; [done|]. rewrite append_cons. cbn [occurs].
  by rewrite IH, orb_assoc.
Qed.

Lemma occurs_token (c : ascii) (k : string) :
  isTokenByte c = false -> allTokenBytes k = true -> occurs c k = false.
Proof.
  intros Hc. induction k as [|x k IH]; [done|]. cbn [allTokenBytes occurs].
  intros [Hx Hk]%andb_true_iff. rewrite IH, orb_false_r by done.
  apply Ascii.eqb_neq. intros ->. congruence.
Qed.

Lemma block_app (l1 l2 : list string) :
  block (l1 ++ l2)%list = block l1 +:+ block l2.
Proof.
  induction l1 as [|l l1 IH]; [done|]. cbn [app block foldr].
  fold (block (l1 ++ l2)%list). fold (block l1).
  by rewrite IH, !append_assoc.
Qed.

Lemma block_Join (lines : list string) :
  lines ≠ [] -> block lines = Join lines CRLF +:+ CRLF.
Proof.
  induction lines as [|l [|l2 rest] IH]; intros Hne; [done|done|].
  rewrite Join_cons2. change (block (l :: l2 :: rest))
    with (l +:+ CRLF +:+ block (l2 :: rest)).
  rewrite IH by done. by rewrite !append_assoc.
Qed.

Lemma headerLines_block (key : string) (values : list string) :
  headerLines key values = block ((λ value, key +:+ ": " +:+ value) <$> values).
Proof.
  induction values as [|v vs IH]; [done|]. cbn [headerLines fmap list_fmap block foldr].
  fold (headerLines key vs). rewrite IH. unfold block. by rewrite !append_assoc.
Qed.

Lemma serializeResponse_in_block (entries : list (string * list string))
    (resp : CachedResponse) :
  serializeResponse_in entries resp
  = block (Itoa (cStatusCode resp) :: lineList entries) +:+ CRLF +:+ cBody resp.
Proof.
  unfold serializeResponse_in.
  change (block (Itoa (cStatusCode resp) :: lineList entries))
    with (Itoa (cStatusCode resp) +:+ CRLF +:+ block (lineList entries)).
  rewrite !append_assoc. do 2 f_equal.
  change (CRLF +:+ CRLF +:+ cBody resp) with ((CRLF +:+ CRLF) +:+ cBody resp).
  f_equal. induction entries as [|kv es IH]; [done|].
  cbn [foldr]. rewrite IH. unfold lineList. rewrite bind_cons, block_app.
  by rewrite headerLines_block.
Qed.

Lemma Cut_cons_false (c : ascii) (s sep : string) :
  HasPrefix (String c s) sep = false ->
  Cut (String c s) sep = prepend (String c "") (Cut s sep).
Proof.
  intros H. cbn [Cut]. rewrite H. by destruct (Cut s sep) as [[b a]|].
Qed.

(** The first blank line of a block of lines that are not empty and
    hold no carriage return is the one after the block. *)
Lemma Cut_block (lines : list string) (body : string) :
  lines ≠ [] -> Forall (λ l, l ≠ "" ∧ occurs CR l = false) lines ->
  Cut (block lines +:+ CRLF +:+ body) (CRLF +:+ CRLF)
  = Some (Join lines CRLF, body).
Proof.
  change (CRLF +:+ CRLF) with (String CR (String LF CRLF)).
  induction lines as [|l [|l2 rest] IH]; intros Hne Hall; [done|..].
  - apply list.Forall_cons in Hall as [[_ Hl] _].
    change (block [l] +:+ CRLF +:+ body)
      with ((l +:+ CRLF) +:+ CRLF +:+ body).
    rewrite append_assoc.
    change (CRLF +:+ CRLF +:+ body) with (String CR (String LF CRLF) +:+ body).
    by apply Cut_first.
  - apply list.Forall_cons in Hall as [[_ Hl] Hall].
    pose proof Hall as Hall2. apply list.Forall_cons in Hall2 as [[Hl2 Hcr2] _].
    change (block (l :: l2 :: rest)) with (l +:+ CRLF +:+ block (l2 :: rest)).
    rewrite !append_assoc. rewrite Cut_skip by done.
    set (tail := block (l2 :: rest) +:+ CRLF +:+ body) in *.
    assert (∃ c X, tail = String c X ∧ c ≠ CR) as (c & X & Htail & Hc).
    { unfold tail. change (block (l2 :: rest)) with (l2 +:+ CRLF +:+ block rest).
      destruct l2 as [|c l2']; [done|]. rewrite !append_cons.
      eexists _, _. split; [reflexivity|].
      cbn [occurs] in Hcr2. apply orb_false_iff in Hcr2 as [Hcr2 _].
      by apply Ascii.eqb_neq in Hcr2. }
    change (CRLF +:+ tail) with (String CR (String LF tail)).
    rewrite Cut_cons_false.
    2:{ destruct (HasPrefix _ _) eqn:Hp; [|done].
        apply HasPrefix_spec in Hp as [r Hr]. rewrite Htail in Hr.
        unfold CRLF in Hr. rewrite !append_cons in Hr.
        injection Hr as Hc' _. congruence. }
    rewrite Cut_cons_ne by done. rewrite (IH ltac:(done) Hall).
    rewrite Join_cons2. reflexivity.
Qed.

Lemma SplitN_2 (s sep before after : string) :
  Cut s sep = Some (before, after) -> SplitN s sep 2 = [before; after].
Proof. intros H. unfold SplitN. simpl. by rewrite H. Qed.

Lemma Header_Add_canonical (h : Header) (k v : string) :
  allTokenBytes k = true -> canonicalize true k = k ->
  Header_Add h k v = <[k := (default [] (h !! k) ++ [v])%list]> h.
Proof.
  intros Ht Hc. unfold Header_Add, CanonicalMIMEHeaderKey. by rewrite Ht, Hc.
Qed.

Lemma Header_Add_values (h : Header) (k : string) (vs : list string) :
  allTokenBytes k = true -> canonicalize true k = k -> vs ≠ [] ->
  foldl (λ h value, Header_Add h k value) h vs
  = <[k := (default [] (h !! k) ++ vs)%list]> h.
Proof.
  intros Ht Hc. revert h. induction vs as [|v vs IH]; intros h Hne; [done|].
  cbn [foldl]. rewrite Header_Add_canonical by done.
  destruct vs as [|v' vs']; [done|].
  rewrite IH by done. rewrite lookup_insert_eq, insert_insert_eq. simpl.
  by rewrite <- app_assoc.
Qed.

Lemma parseHeaderLines_values (h : Header) (k : string) (vs : list string) :
  occurs ":" k = false ->
  foldl (λ headers line,
           match SplitN line ": " 2 with
           | [key; value] => Header_Add headers key value
           | _ => headers
           end) h ((λ value, k +:+ ": " +:+ value) <$> vs)
  = foldl (λ h value, Header_Add h k value) h vs.
Proof.
  intros Hk. revert h. induction vs as [|v vs IH]; intros h; [done|].
  cbn [fmap list_fmap foldl].
  rewrite (SplitN_2 _ _ k v) by (by apply (Cut_first ":" " ")).
  apply IH.
Qed.

Lemma headerOK_spec (kv : string * list string) :
  headerOK kv = true ->
  allTokenBytes kv.1 = true ∧ canonicalize true kv.1 = kv.1 ∧ kv.2 ≠ []
  ∧ Forall (λ v, occurs CR v = false) kv.2.
Proof.
  unfold headerOK. rewrite !andb_true_iff.
  intros [[[Ht Hc] Hn] Hv]. split_and!; [done|by apply String.eqb_eq| |].
  - destruct kv.2; [done|done].
  - revert Hv. generalize kv.2. intros l. induction l as [|v l IH]; simpl.
    + by constructor.
    + intros [Hv Hl]%andb_true_iff. constructor; [by apply negb_true_iff|auto].
Qed.

Lemma parseHeaderLines_addAll (h : Header) (entries : list (string * list string)) :
  Forall (λ kv, headerOK kv = true) entries ->
  foldl (λ headers line,
           match SplitN line ": " 2 with
           | [key; value] => Header_Add headers key value
           | _ => headers
           end) h (lineList entries)
  = addAll h entries.
Proof.
  revert h. induction entries as [|kv es IH]; intros h Hall; [done|].
  apply list.Forall_cons in Hall as [(Ht & _)%headerOK_spec Hall].
  unfold lineList. rewrite bind_cons, foldl_app.
  rewrite parseHeaderLines_values by (by apply occurs_token).
  apply IH. done.
Qed.

Lemma addAll_snoc (h : Header) (es : list (string * list string)) kv :
  addAll h (es ++ [kv])%list
  = foldl (λ h value, Header_Add h kv.1 value) (addAll h es) kv.2.
Proof. unfold addAll. by rewrite foldl_app. Qed.

(** Copying with [Add] the entries of a header map into an empty map
    gives the map back. *)
Lemma addAll_list_to_map (entries : list (string * list string)) :
  Forall (λ kv, headerOK kv = true) entries -> NoDup entries.*1 ->
  addAll ∅ entries = list_to_map entries.
Proof.
  induction entries as [|[k vs] es IH] using rev_ind; intros Hall Hnd; [done|].
  apply Forall_app in Hall as [Hall Hkv].
  apply list.Forall_cons in Hkv as [(Ht & Hc & Hne & _)%headerOK_spec _].
  rewrite fmap_app in Hnd. apply list.NoDup_app in Hnd as (Hnd & Hfresh & _).
  rewrite addAll_snoc, IH by done. simpl in *.
  rewrite Header_Add_values by done.
  rewrite not_elem_of_list_to_map_1.
  2:{ intros Hin. apply (Hfresh k Hin). simpl. apply list_elem_of_here. }
  simpl. rewrite <- list_to_map_cons. symmetry. apply list_to_map_proper.
  - rewrite fmap_app. apply list.NoDup_app. split_and!; [done| |].
    + intros x Hx Hx'. by apply (Hfresh x Hx).
    + simpl. apply NoDup_singleton.
  - symmetry. apply Permutation_cons_append.
Qed.

Lemma Forall_headerOK (entries : list (string * list string)) :
  forallb headerOK entries = true -> Forall (λ kv, headerOK kv = true) entries.
Proof.
  induction entries as [|kv es IH]; simpl; [by constructor|].
  intros [Hkv Hes]%andb_true_iff. constructor; auto.
Qed.

Lemma parse_serialize (resp : CachedResponse)
    (entries : list (string * list string)) :
  inInt64 (cStatusCode resp) ->
  entries ≡ₚ map_to_list (cHeader resp) ->
  Forall (λ kv, headerOK kv = true) entries ->
  parseCachedResponse (serializeResponse_in entries resp) = Some resp.
Proof.
  intros Hst Hperm Hok. rewrite serializeResponse_in_block.
  unfold parseCachedResponse.
  assert (Forall (λ l, l ≠ "" ∧ occurs CR l = false)
            (Itoa (cStatusCode resp) :: lineList entries)) as Hlines.
  { apply list.Forall_cons. split.
    - destruct (Itoa_shape (cStatusCode resp)) as [Hne Hocc]. split; [done|].
      by apply Hocc.
    - clear Hperm. induction Hok as [|kv es Hkv _ IH]; [by constructor|].
      unfold lineList. rewrite bind_cons. apply Forall_app. split; [|exact IH].
      apply headerOK_spec in Hkv as (Ht & _ & _ & Hv).
      apply Forall_fmap. eapply list.Forall_impl; [exact Hv|]. intros v Hcr. simpl.
      split.
      + destruct kv.1; [by rewrite append_nil_l|by rewrite append_cons].
      + rewrite !occurs_append, Hcr, (occurs_token CR _ eq_refl Ht).
        reflexivity. }
  assert (Itoa (cStatusCode resp) :: lineList entries ≠ []) as Hne by done.
  rewrite (SplitN_2 _ _ _ _ (Cut_block _ (cBody resp) Hne Hlines)).
  assert (Split (Join (Itoa (cStatusCode resp) :: lineList entries) CRLF) CRLF
          = Itoa (cStatusCode resp) :: lineList entries) as ->.
  { apply (Split_Join CR (String LF "") _ Hne).
    eapply list.Forall_impl; [exact Hlines|]. by intros ? []. }
  rewrite Sscanf_d_Itoa by done. cbn [mbind option_bind].
  unfold parseHeaderLines. rewrite parseHeaderLines_addAll by done.
  assert (NoDup entries.*1) as Hnd.
  { rewrite Hperm. apply NoDup_fst_map_to_list. }
  rewrite addAll_list_to_map by done.
  rewrite (list_to_map_proper _ _ Hnd Hperm).
  rewrite list_to_map_to_list. by destruct resp.
Qed.

(** X13.  Serializing a cached response and parsing the result gives
    the response back, for every status code, every body and every
    header map whose keys are canonical tokens, whose value lists are
    not empty and whose values hold no carriage return, in whatever
    order the header map is visited. *)
Theorem serialize_parse_roundtrip_any (resp : CachedResponse)
    (entries : list (string * list string)) :
  inInt64 (cStatusCode resp) ->
  entries ≡ₚ map_to_list (cHeader resp) ->
  Forall (λ kv, headerOK kv = true) entries ->
  parseCachedResponse (serializeResponse_in entries resp) = Some resp.
Proof. apply parse_serialize. Qed.

Lemma serialize_parse_roundtrip_any_witness :
  let resp := mkCachedResponse (-404) (respHeader samplex.pageResp) "body" in
  parseCachedResponse (serializeResponse_in (map_to_list (cHeader resp)) resp)
  = Some resp.
Proof.
  intros resp.
  apply (serialize_parse_roundtrip_any resp (map_to_list (cHeader resp))).
  - vm_compute. split; discriminate.
  - reflexivity.
  - apply Forall_headerOK. vm_compute. reflexivity.
Defined.

End wire_format.

(** ** The handler with the LRU cache *)

Section handler_lru.
Import cache cachex gostr gostrx proxy proxyx.

Lemma isResponseCacheable_status resp :
  isResponseCacheable resp = true -> StatusCode resp = 200.
Proof.
  unfold isResponseCacheable, StatusOK.
  destruct (Z.eqb_spec (StatusCode resp) 200); [done|]. simpl. done.
Qed.

(** What a [ReplyMiss] of [forward] tells about the run. *)
Lemma forward_miss_stored E cfg clk (st st1 : LRUCache) r resp body :
  forward E cfg clk st r = Some (ReplyMiss resp, st1) ->
  isCacheable r = true -> Body resp = Some body ->
  isResponseCacheable resp = true ->
  ∃ b, Set_ st (createCacheKey E r)
         (serializeResponse E
            (mkCachedResponse (StatusCode resp) (respHeader resp) body))
         (cacheResponse_ttl E cfg (atUntil clk) resp) (atSet clk) (atSet' clk)
       = Some (st1, b).
Proof.
  intros Hf Hc Hb Hrc. unfold forward in Hf.
  destruct (cloneRequest E r) as [err|out]; [done|].
  destruct (client_Do E out) as [err|resp0]; [done|].
  destruct (negb (validWriteHeaderCode (StatusCode resp0))); [done|].
  destruct (Body resp0) as [body0|] eqn:Hb0.
  - destruct (isCacheable r && isResponseCacheable resp0) eqn:Hcc.
    + unfold cacheResponse in Hf. cbn [Cache_Set LRUCache_Cache] in Hf.
      destruct (Set_ _ _ _ _ _ _) as [[st' b]|] eqn:HS; [|done].
      simpl in Hf. injection Hf as -> ->.
      assert (body0 = body) as -> by congruence. by exists b.
    + injection Hf as -> ->. by rewrite Hc, Hrc in Hcc.
  - injection Hf as -> ->. congruence.
Qed.

Lemma serve_miss_then_hit C ops (st st1 : LRUCache) E cfg clk clk2 r resp body
    upstream :
  0 < C -> run (NewLRUCache C) ops = Some st ->
  serve E cfg clk st r = Some (ReplyMiss resp, st1) ->
  isCacheable r = true -> Body resp = Some body ->
  isResponseCacheable resp = true ->
  mapRange E (respHeader resp) ≡ₚ map_to_list (respHeader resp) ->
  Forall (λ kv, headerOK kv = true) (mapRange E (respHeader resp)) ->
  cacheResponse_ttl E cfg (atUntil clk) resp <= 0
  ∨ atGet clk2 <= atSet clk + cacheResponse_ttl E cfg (atUntil clk) resp ->
  ∃ st2, serve (withUpstream E upstream) cfg clk2 st1 r
         = Some (ReplyHit (mkCachedResponse (StatusCode resp) (respHeader resp)
                             body), st2).
Proof.
  intros HC Hrun Hs Hc Hb Hrc Hperm Hok Ht. unfold serve in Hs.
  destruct (isDomainAllowed cfg (Host (reqURL r))) eqn:Hd; [|done].
  cbn [negb] in Hs. rewrite Hc in Hs. cbn [Cache_Get LRUCache_Cache] in Hs.
  set (key := createCacheKey E r) in *.
  assert (forward E cfg clk (Get st key (atGet clk)).1 r
          = Some (ReplyMiss resp, st1)) as Hf.
  { destruct (Get st key (atGet clk)) as [st0 [item|]]; [|done].
    destruct (parseCachedResponse (Value item)) as [cached|]; [|done].
    by destruct (negb (validWriteHeaderCode (cStatusCode cached))). }
  clear Hs.
  destruct (run_reachable C (ops ++ [OpGet key (atGet clk)])
              (Get st key (atGet clk)).1 ltac:(lia)) as [Hwf Hsz].
  { by rewrite run_app, Hrun. }
  destruct (forward_miss_stored _ _ _ _ _ _ _ _ Hf Hc Hb Hrc) as [b HS].
  fold key in HS.
  destruct (Set__lookup C _ _ _ _ _ _ _ _ HC Hwf Hsz HS) as (e & Hl & Hv).
  pose proof (wf_Set_ _ _ _ _ _ _ _ _ Hwf HS) as Hwf'.
  unfold serve. rewrite Hd. cbn [negb]. rewrite Hc.
  cbn [Cache_Get LRUCache_Cache].
  change (createCacheKey (withUpstream E upstream) r) with key.
  unfold Get, Get_probe, Get_finish. rewrite Hl, Hv, newItem_live by done.
  cbn [Value newItem]. unfold serializeResponse. cbn [cHeader].
  rewrite parse_serialize; [|..|done|done].
  - cbn [cStatusCode]. rewrite (isResponseCacheable_status _ Hrc).
    by eexists.
  - cbn [cStatusCode]. rewrite (isResponseCacheable_status _ Hrc).
    unfold inInt64, minInt64, maxInt64. lia.
Qed.

(** X14.  With the LRU cache of positive capacity behind the handler:
    once a request that may be cached got an upstream response that may
    be stored (status 200, no [no-store], no cookie, well-formed
    headers), the same request, made before the entry expires, is
    answered from the cache with the same status, headers and body,
    whatever the upstream would answer then. *)
Theorem cached_response_served_again C ops (st st1 : LRUCache) E cfg clk clk2 r
    resp body upstream :
  0 < C -> run (NewLRUCache C) ops = Some st ->
  handleRequest E cfg clk st r = Some (ReplyMiss resp, st1) ->
  isCacheable r = true -> Body resp = Some body ->
  isResponseCacheable resp = true ->
  mapRange E (respHeader resp) ≡ₚ map_to_list (respHeader resp) ->
  Forall (λ kv, headerOK kv = true) (mapRange E (respHeader resp)) ->
  cacheResponse_ttl E cfg (atUntil clk) resp <= 0
  ∨ atGet clk2 <= atSet clk + cacheResponse_ttl E cfg (atUntil clk) resp ->
  ∃ st2, handleRequest (withUpstream E upstream) cfg clk2 st1 r
         = Some (ReplyHit (mkCachedResponse (StatusCode resp) (respHeader resp)
                             body), st2).
Proof.
  intros HC Hrun Hh Hc Hb Hrc Hperm Hok Ht. unfold handleRequest in *.
  change (URL_Query_Get (withUpstream E upstream)) with (URL_Query_Get E).
  change (url_Parse (withUpstream E upstream)) with (url_Parse E).
  destruct (negb (String.eqb (URL_Query_Get E (reqURL r) "url") "")).
  - destruct (url_Parse E (URL_Query_Get E (reqURL r) "url")) as [err|u]; [done|].
    eapply serve_miss_then_hit; done.
  - destruct (String.eqb (Scheme (reqURL r)) "" || String.eqb (Host (reqURL r)) "");
      [done|]. eapply serve_miss_then_hit; done.
Qed.

Lemma cached_response_served_again_witness :
  let E := samplex.answering samplex.pageResp in
  let st1 := default (NewLRUCache 2)
               (snd <$> handleRequest E sample.cfg sample.clk (NewLRUCache 2)
                          samplex.getReq) in
  handleRequest E sample.cfg sample.clk (NewLRUCache 2) samplex.getReq
  = Some (ReplyMiss samplex.pageResp, st1)
  ∧ ∃ st2,
      handleRequest (withUpstream E (λ _, inl "connection refused"))
        sample.cfg samplex.clkLater st1 samplex.getReq
      = Some (ReplyHit (mkCachedResponse (StatusCode samplex.pageResp)
                          (respHeader samplex.pageResp) "<html></html>"), st2).
Proof.
  intros E st1.
  assert (handleRequest E sample.cfg sample.clk (NewLRUCache 2) samplex.getReq
          = Some (ReplyMiss samplex.pageResp, st1)) as H1
    by (vm_compute; reflexivity).
  split; [exact H1|].
  apply (cached_response_served_again 2 [] (NewLRUCache 2) st1 E sample.cfg
           sample.clk samplex.clkLater samplex.getReq samplex.pageResp
           "<html></html>" (λ _, inl "connection refused")).
  - lia.
  - reflexivity.
  - exact H1.
  - vm_compute. reflexivity.
  - reflexivity.
  - vm_compute. reflexivity.
  - reflexivity.
  - apply Forall_headerOK. vm_compute. reflexivity.
  - right. vm_compute. discriminate.
Defined.

End handler_lru.

(** ** The statuses that reach the client *)

Section pipeline_statuses.
Import cache cachex gostr gostrx proxy proxyx.

(** *** Values held by the cache *)








(** *** The status line *)




(** *** The pipeline on the LRU cache *)

Lemma serializeResponse_withUpstream E upstream resp :
  serializeResponse (withUpstream E upstream) resp = serializeResponse E resp.
Proof. done. Qed.







End pipeline_statuses.

(** ** The request sent upstream *)

Section upstream_request.
Import gostr gostrx proxy proxyx.

(** X18.  The request that [cloneRequest] builds carries the address
    of the client as its only [X-Forwarded-For] value and the host the
    client asked for as its only [X-Forwarded-Host] value, whatever the
    client sent under these names; it has no [Connection] header; and
    every other header of the client's request is passed on unchanged,
    [Authorization] and the other hop-by-hop headers included. *)
Theorem cloneRequest_headers E r out :
  cloneRequest E r = inr out ->
  outHeader out !! "X-Forwarded-For" = Some [RemoteAddr r]
  ∧ outHeader out !! "X-Forwarded-Host" = Some [reqHost r]
  ∧ outHeader out !! "Connection" = None
  ∧ (mapRange E (reqHeader r) ≡ₚ map_to_list (reqHeader r) ->
     Forall (λ kv, headerOK kv = true) (mapRange E (reqHeader r)) ->
     ∀ k, k ≠ "X-Forwarded-For" -> k ≠ "X-Forwarded-Host" -> k ≠ "Connection" ->
          outHeader out !! k = reqHeader r !! k).
Proof.
  unfold cloneRequest.
  destruct (http_NewRequest E (Method r) (URL_String E (reqURL r)))
    as [err|proxyReq]; [done|].
  intros [= <-]. cbn [outHeader].
  change (CanonicalMIMEHeaderKey "X-Forwarded-For") with "X-Forwarded-For".
  change (CanonicalMIMEHeaderKey "X-Forwarded-Host") with "X-Forwarded-Host".
  change (CanonicalMIMEHeaderKey "Connection") with "Connection".
  split_and!.
  - rewrite lookup_delete_ne, lookup_insert_ne, lookup_insert_eq; done.
  - rewrite lookup_delete_ne, lookup_insert_eq; done.
  - apply lookup_delete_eq.
  - intros Hperm Hok k H1 H2 H3.
    rewrite lookup_delete_ne, !lookup_insert_ne by done.
    fold (addAll ∅ (mapRange E (reqHeader r))).
    assert (NoDup (mapRange E (reqHeader r)).*1) as Hnd.
    { rewrite Hperm. apply NoDup_fst_map_to_list. }
    rewrite addAll_list_to_map by done.
    by rewrite (list_to_map_proper _ _ Hnd Hperm), list_to_map_to_list.
Qed.

Lemma cloneRequest_headers_witness :
  ∃ out,
    cloneRequest sample.E0 samplex.headedReq = inr out
    ∧ outHeader out !! "X-Forwarded-For" = Some ["127.0.0.1:40000"]
    ∧ outHeader out !! "X-Forwarded-Host" = Some ["localhost:8080"]
    ∧ outHeader out !! "Connection" = None
    ∧ outHeader out !! "Authorization" = Some ["Bearer token"]
    ∧ outHeader out !! "Proxy-Authorization" = Some ["Basic abc"]
    ∧ outHeader out !! "Accept" = Some ["text/html"; "*/*"].
Proof.
  destruct (cloneRequest sample.E0 samplex.headedReq) as [err|out] eqn:Hc;
    [vm_compute in Hc; discriminate Hc|].
  exists out. split; [reflexivity|].
  destruct (cloneRequest_headers sample.E0 samplex.headedReq out Hc)
    as (H1 & H2 & H3 & H4).
  split; [exact H1|]. split; [exact H2|]. split; [exact H3|].
  assert (∀ k, k ≠ "X-Forwarded-For" -> k ≠ "X-Forwarded-Host" ->
               k ≠ "Connection" ->
               outHeader out !! k = reqHeader samplex.headedReq !! k) as H5.
  { apply H4; [reflexivity|]. apply Forall_headerOK. vm_compute. reflexivity. }
  split_and!; (rewrite H5 by discriminate; vm_compute; reflexivity).
Defined.

End upstream_request.

(** ** More on the worker pool *)

Section pool_more.
Import pool poolx.

(** X15.  [Stop] may be called once: after a first [Stop] has closed
    the job queue, whatever the workers and other callers do
    afterwards, a second [Stop] panics on [close]. *)
Theorem Stop_twice_panics (wp wp1 : WorkerPool) (evs : list Event) (turns : nat) :
  Stop_close wp = Proceeds wp1 ->
  Stop (foldl happen wp1 evs) turns = Panics "close of closed channel".
Proof.
  intros Hstop%Stop_close_closed. unfold Stop, Stop_close, chan_close.
  by rewrite foldl_happen_closed, Hstop.
Qed.

Lemma Stop_twice_panics_witness :
  let wp := mkWorkerPool (mkChan [] 4 false) 2 2 2 [] in
  let wp1 := mkWorkerPool (mkChan [] 4 true) 2 2 2 [] in
  NewWorkerPool 2 = Some wp ∧ Stop_close wp = Proceeds wp1
  ∧ Stop (foldl happen wp1 [WorkerTurn; WorkerTurn]) 5
    = Panics "close of closed channel".
Proof.
  intros wp wp1. split; [reflexivity|]. split; [reflexivity|].
  apply (Stop_twice_panics wp wp1 [WorkerTurn; WorkerTurn] 5). reflexivity.
Defined.

End pool_more.

(** ** The configuration *)

Section config_facts.
Import cache gostr gostrx proxy.

Lemma Validate_nil (c : config.Config) :
  config.Validate c = None ->
  0 < config.Port c <= 65535 ∧ 0 < config.ReadTimeout c
  ∧ 0 < config.WriteTimeout c ∧ 0 < config.CacheSize c
  ∧ 0 < config.CacheTTL c ∧ 0 < config.ProxyTimeout c
  ∧ 0 < config.MaxConnections c.
Proof.
  unfold config.Validate.
  repeat match goal with
         | |- context [if ?b then _ else _] => destruct b eqn:?; [done|]
         end.
  intros _. rewrite orb_false_iff in *.
  repeat match goal with
         | H : _ ∧ _ |- _ => destruct H
         | H : (_ <=? _) = false |- _ => apply Z.leb_gt in H
         | H : (_ <? _) = false |- _ => apply Z.ltb_ge in H
         end.
  lia.
Qed.

(** X19.  A configuration that [Validate] accepts starts the server
    safely as far as the cache is concerned: every call on the cache
    built with [CacheSize] returns and keeps the size within
    [CacheSize], and, when [CacheTTL] seconds fit a [Duration], every
    response that the handler stores gets a positive TTL, hence an
    expiry instant.  [Validate] puts no upper bound on
    [MaxConnections]: the pool gets that many workers when a queue of
    twice as many job pointers fits under the allocation bound of
    [make], and [NewWorkerPool] panics in [make] when it does not. *)
Theorem Validate_then_start (c : config.Config) :
  config.Validate c = None ->
  inInt64 (config.MaxConnections c) ->
  (∀ ops, ∃ st, run (NewLRUCache (config.CacheSize c)) ops = Some st
                ∧ Size_ st <= config.CacheSize c)
  ∧ (config.CacheTTL c <= 9223372036 ->
     ∀ E now resp, 0 < cacheResponse_ttl E (config.handlerConfig c) now resp)
  ∧ (pool.ptrSize * (2 * config.MaxConnections c)
       <= pool.maxAlloc - pool.hchanSize ->
     ∃ wp, pool.NewWorkerPool (config.MaxConnections c) = Some wp
           ∧ pool.maxWorkers wp = config.MaxConnections c
           ∧ pool.chanCap (pool.jobQueue wp) = 2 * config.MaxConnections c)
  ∧ (pool.maxAlloc - pool.hchanSize
       < pool.ptrSize * (2 * config.MaxConnections c) ->
     pool.NewWorkerPool (config.MaxConnections c) = None).
Proof.
  intros (HP & HR & HW & HS & HT & HX & HM)%Validate_nil Hint. split_and!.
  - intros ops.
    destruct (run_size_ok (config.CacheSize c) (NewLRUCache (config.CacheSize c)) ops)
      as (st & Hrun & _ & Hsz); [lia| |by exists st].
    split; [done|]. unfold Size_, list_Len. simpl. lia.
  - intros Hfit E now resp. unfold cacheResponse_ttl.
    destruct (Z.leb_spec (calculateTTL E (config.handlerConfig c) now resp) 0);
      [|done].
    unfold seconds. simpl. rewrite wrap64_id; unfold Second; [lia|].
    unfold inInt64, minInt64, maxInt64. lia.
  - intros Hfit.
    destruct (NewWorkerPool_bound (config.MaxConnections c) Hint) as [Hok _].
    assert ((config.MaxConnections c <=? 0) = false) as Hpos
      by (apply Z.leb_gt; lia).
    rewrite Hpos in Hok. destruct (Hok Hfit) as (wp & Hwp & Hm & _ & Hcap & _).
    by exists wp.
  - intros Hbig.
    destruct (NewWorkerPool_bound (config.MaxConnections c) Hint) as [_ Hno].
    assert ((config.MaxConnections c <=? 0) = false) as Hpos
      by (apply Z.leb_gt; lia).
    rewrite Hpos in Hno. by apply Hno.
Qed.

Lemma Validate_then_start_witness :
  let c := config.NewDefaultConfig in
  config.Validate c = None
  ∧ (∀ ops, ∃ st, run (NewLRUCache 1024) ops = Some st ∧ Size_ st <= 1024)
  ∧ (∀ E now resp, 0 < cacheResponse_ttl E (config.handlerConfig c) now resp)
  ∧ ∃ wp, pool.NewWorkerPool 100 = Some wp
          ∧ pool.maxWorkers wp = 100
          ∧ pool.chanCap (pool.jobQueue wp) = 2 * 100.
Proof.
  intros c.
  assert (config.Validate c = None) as Hv by reflexivity.
  split; [exact Hv|].
  destruct (Validate_then_start c Hv) as (H1 & H2 & H3 & _).
  { vm_compute. split; discriminate. }
  split; [exact H1|]. split.
  - apply H2. vm_compute. discriminate.
  - apply H3. vm_compute. discriminate.
Defined.

(** *** Blank strings *)

Lemma leadingSpace_rune (rune rest : string) :
  rune ∈ spaceRunes ->
  leadingSpace (rune +:+ rest) = Some rest ∧ (1 <= String.length rune)%nat.
Proof.
  intros Hin. vm_compute in Hin.
  repeat (apply elem_of_cons in Hin as [->|Hin]; [split; [reflexivity|simpl; lia]|]).
  by apply elem_of_nil in Hin.
Qed.

Lemma trimLeftN_blank (runes : list string) (fuel : nat) :
  Forall (λ rune, rune ∈ spaceRunes) runes ->
  (length runes <= fuel)%nat ->
  trimLeftN fuel (foldr append "" runes) = "".
Proof.
  intros Hall. revert fuel.
  induction Hall as [|rune runes Hrune Hall IH]; intros fuel Hfuel.
  - by destruct fuel.
  - destruct fuel as [|fuel]; [simpl in Hfuel; lia|].
    cbn [foldr trimLeftN].
    destruct (leadingSpace_rune rune (foldr append "" runes) Hrune) as [-> _].
    apply IH. simpl in Hfuel. lia.
Qed.

(** A blank string is trimmed to the empty string. *)
Lemma TrimSpace_blank (s : string) : blank s -> TrimSpace s = "".
Proof.
  intros (runes & Hall & ->). unfold TrimSpace, trimLeft.
  rewrite trimLeftN_blank; [done|done|].
  clear -Hall. induction Hall as [|rune runes Hrune Hall IH]; [done|].
  cbn [foldr length]. rewrite length_append.
  destruct (leadingSpace_rune rune "" Hrune) as [_ Hlen]. lia.
Qed.

(** X20.  The flag [-allowed-domains] is split at its commas and each
    part is trimmed of white space; a part that is empty or blank
    (made of white-space runes only) becomes the domain [""], which
    every host ends with: such a flag value (a trailing comma, two
    commas in a row, a space after a comma at the end) lets every
    domain through. *)
Theorem blank_allowed_domain_allows_all (c : config.Config)
    (parts : list string) :
  Forall (λ part, occurs "," part = false) parts ->
  Join parts "," ≠ "" ->
  let c' := config.ParseFlags_allowedDomains c (Join parts ",") in
  config.AllowedDomains c' = TrimSpace <$> parts
  ∧ ((∃ part, part ∈ parts ∧ TrimSpace part = "") ->
     ∀ host, isDomainAllowed (config.handlerConfig c') host = true)
  ∧ ((∃ part, part ∈ parts ∧ blank part) ->
     "" ∈ config.AllowedDomains c'
     ∧ ∀ host, isDomainAllowed (config.handlerConfig c') host = true).
Proof.
  intros Hparts Hne c'.
  assert (parts ≠ []) as Hnil by (by intros ->).
  assert (config.AllowedDomains c' = TrimSpace <$> parts) as Heq.
  { unfold c', config.ParseFlags_allowedDomains.
    apply String.eqb_neq in Hne. rewrite Hne. simpl.
    by rewrite (Split_Join "," "" parts Hnil Hparts). }
  assert ((∃ part, part ∈ parts ∧ TrimSpace part = "") ->
          "" ∈ config.AllowedDomains c'
          ∧ ∀ host, isDomainAllowed (config.handlerConfig c') host = true) as Hall.
  { intros (part & Hin & Hblank).
    assert ("" ∈ config.AllowedDomains c') as Hempty.
    { rewrite Heq, <- Hblank. by apply list_elem_of_fmap_2. }
    split; [done|]. intros host. apply isDomainAllowed_suffix.
    - simpl. rewrite Heq. by destruct parts.
    - exists "", host. simpl. split; [done|by rewrite append_nil_r]. }
  split; [exact Heq|]. split.
  - intros Hex. by apply Hall.
  - intros (part & Hin & Hblank%TrimSpace_blank). apply Hall. by exists part.
Qed.

Lemma blank_allowed_domain_allows_all_witness :
  let nbsp := bytes [194; 160]%N in
  let c1 := config.ParseFlags_allowedDomains config.NewDefaultConfig
              "example.com, " in
  let c2 := config.ParseFlags_allowedDomains config.NewDefaultConfig
              ("example.com," +:+ nbsp +:+ " ,example.org") in
  (config.AllowedDomains c1 = ["example.com"; ""]
   ∧ ∀ host, isDomainAllowed (config.handlerConfig c1) host = true)
  ∧ (config.AllowedDomains c2 = ["example.com"; ""; "example.org"]
     ∧ ∀ host, isDomainAllowed (config.handlerConfig c2) host = true).
Proof.
  intros nbsp c1 c2. split.
  - destruct (blank_allowed_domain_allows_all config.NewDefaultConfig
                ["example.com"; " "]) as (H1 & H2 & _).
    + repeat constructor.
    + discriminate.
    + split; [exact H1|]. apply H2. exists " ". split; [|reflexivity].
      apply list_elem_of_further, list_elem_of_here.
  - destruct (blank_allowed_domain_allows_all config.NewDefaultConfig
                ["example.com"; nbsp +:+ " "; "example.org"]) as (H1 & _ & H3).
    + repeat constructor.
    + discriminate.
    + split; [exact H1|]. apply H3. exists (nbsp +:+ " "). split.
      * apply list_elem_of_further, list_elem_of_here.
      * exists [nbsp; " "]. split; [|reflexivity].
        repeat constructor; vm_compute;
          repeat first [apply list_elem_of_here | apply list_elem_of_further].
Defined.

End config_facts.

(** ** The rate limiter *)

Section rate_limit.
Import gostr gostrx middleware.

Lemma LastIndexByte_absent (s : string) (c : ascii) :
  occurs c s = false -> LastIndexByte s c = None.
Proof.
  induction s as [|x s IH]; [done|]. cbn [occurs LastIndexByte].
  intros [Hx Hs]%orb_false_iff. by rewrite IH, Hx.
Qed.

Lemma LastIndexByte_last (host port : string) (c : ascii) :
  occurs c port = false ->
  LastIndexByte (host +:+ String c port) c = Some (String.length host).
Proof.
  intros Hp. induction host as [|x host IH].
  - rewrite append_nil_l. cbn [LastIndexByte].
    by rewrite LastIndexByte_absent, Ascii.eqb_refl.
  - rewrite append_cons. cbn [LastIndexByte]. by rewrite IH.
Qed.

Lemma take_append (a b : string) : take (String.length a) (a +:+ b) = a.
Proof.
  induction a as [|x a IH]; [by destruct b|]. rewrite append_cons. simpl.
  by rewrite IH.
Qed.

(** X22.  The limiter keys a client by its address without the port:
    for [host:port], where the port holds no colon, the key is [host],
    even when the host itself holds colons (an IPv6 address); an
    address without a colon is its own key.  Connections of one host
    from different ports share one counter. *)
Theorem clientIP_strips_port (host port addr : string) :
  occurs ":" port = false ->
  clientIP (host +:+ ":" +:+ port) = host
  ∧ (occurs ":" addr = false -> clientIP addr = addr).
Proof.
  intros Hp. unfold clientIP. split.
  - change (":" +:+ port) with (String ":" port).
    rewrite LastIndexByte_last by done. apply take_append.
  - intros Ha. by rewrite LastIndexByte_absent.
Qed.

Lemma clientIP_strips_port_witness :
  clientIP ("[2001:db8::1]" +:+ ":" +:+ "40000") = "[2001:db8::1]"
  ∧ (occurs ":" "pipe" = false -> clientIP "pipe" = "pipe").
Proof.
  apply (clientIP_strips_port "[2001:db8::1]" "40000" "pipe"). reflexivity.
Defined.

(** The count that the limiter holds for a client; [0] for a client
    it does not know. *)
Lemma RateLimit_serve_verdict limit clients addr now now' :
  (RateLimit_serve limit clients addr now now').2
  = negb (limit <? wrap64 (from_option count 0 (clients !! clientIP addr) + 1)).
Proof. unfold RateLimit_serve. simpl. by destruct (clients !! clientIP addr). Qed.

Lemma happen_count limit clients ev ip :
  0 <= from_option count 0 (clients !! ip) < maxInt64 ->
  keptAlive ip (lastAccess <$> clients !! ip) [ev] = true ->
  from_option count 0 (happen limit clients ev !! ip)
  = from_option count 0 (clients !! ip) + requestsFrom ip [ev]
  ∧ ∀ evs, keptAlive ip (lastAccess <$> clients !! ip) (ev :: evs) = true ->
           keptAlive ip (lastAccess <$> happen limit clients ev !! ip) evs = true.
Proof.
  intros Hc Hk. destruct ev as [addr now now'|now].
  - cbn [happen requestsFrom keptAlive]. unfold RateLimit_serve. cbn [fst].
    destruct (String.eqb_spec (clientIP addr) ip) as [Heq|Hne].
    + rewrite Heq, lookup_insert_eq. cbn [from_option count fmap option_fmap option_map lastAccess].
      assert (0 <= count (match clients !! ip with
                          | Some c => c
                          | None => mkClient 0 now
                          end) < maxInt64
              ∧ count (match clients !! ip with
                       | Some c => c
                       | None => mkClient 0 now
                       end) = from_option count 0 (clients !! ip)) as [Hb Hv].
      { destruct (clients !! ip); simpl in *; (split; [lia|done]). }
      rewrite wrap64_id by (unfold inInt64, minInt64, maxInt64 in *; lia).
      split; [lia|done].
    + rewrite lookup_insert_ne by done. split; [lia|done].
  - cbn [happen requestsFrom]. unfold RateLimit_cleanup.
    destruct (clients !! ip) as [c|] eqn:Hl.
    + cbn [keptAlive fmap option_fmap option_map] in Hk.
      apply andb_true_iff in Hk as [Hk _]. apply Z.leb_le in Hk.
      assert (filter (λ kv : string * client,
                        ¬ Minute < Time_Sub now (lastAccess kv.2)) clients !! ip
              = Some c) as ->.
      { apply map_lookup_filter_Some. split; [done|]. simpl. lia. }
      split; [simpl; lia|].
      intros evs. cbn [keptAlive fmap option_fmap option_map].
      by intros [_ H]%andb_true_iff.
    + assert (filter (λ kv : string * client,
                        ¬ Minute < Time_Sub now (lastAccess kv.2)) clients !! ip
              = None) as ->.
      { apply map_lookup_filter_None. by left. }
      split; [simpl; lia|]. intros evs. done.
Qed.

Lemma requestsFrom_nonneg ip evs : 0 <= requestsFrom ip evs.
Proof.
  induction evs as [|[addr now now'|now] evs IH]; simpl; [lia| |done].
  destruct (String.eqb (clientIP addr) ip); lia.
Qed.

Lemma foldl_happen_count limit evs clients ip :
  0 <= from_option count 0 (clients !! ip) ->
  from_option count 0 (clients !! ip) + requestsFrom ip evs < maxInt64 ->
  keptAlive ip (lastAccess <$> clients !! ip) evs = true ->
  from_option count 0 (foldl (happen limit) clients evs !! ip)
  = from_option count 0 (clients !! ip) + requestsFrom ip evs.
Proof.
  revert clients. induction evs as [|ev evs IH]; intros clients H0 Hmax Hk.
  - simpl. lia.
  - pose proof (requestsFrom_nonneg ip evs) as Hnn.
    pose proof (requestsFrom_nonneg ip [ev]) as Hnn1.
    assert (requestsFrom ip (ev :: evs)
            = requestsFrom ip [ev] + requestsFrom ip evs) as Hsplit.
    { destruct ev as [addr now now'|now]; simpl; lia. }
    assert (keptAlive ip (lastAccess <$> clients !! ip) [ev] = true) as Hk1.
    { destruct ev as [addr now now'|now]; simpl in *.
      - by destruct (String.eqb (clientIP addr) ip).
      - destruct (lastAccess <$> clients !! ip); [|done].
        apply andb_true_iff in Hk as [-> _]. done. }
    destruct (happen_count limit clients ev ip ltac:(lia) Hk1)
      as (Hcnt & Hnext).
    cbn [foldl]. rewrite IH; [lia|lia|lia|by apply Hnext].
Qed.

(** X21.  The limiter counts the requests of a client since the
    client first appeared, and never starts again from zero as long as
    no round of cleaning finds the client idle for more than a minute:
    the next request of the client is handed on exactly when fewer
    than [requestsPerMinute] requests of it came before, however much
    time these took.  A client that stays active is refused for good
    once it has made [requestsPerMinute] requests. *)
Theorem RateLimit_counts_forever (limit : Z) (ip addr : string)
    (evs : list Event) (now now' : Time) :
  clientIP addr = ip ->
  keptAlive ip None evs = true ->
  requestsFrom ip evs < maxInt64 ->
  (RateLimit_serve limit (foldl (happen limit) ∅ evs) addr now now').2
  = (requestsFrom ip evs <? limit).
Proof.
  intros Hip Hk Hmax. rewrite RateLimit_serve_verdict, Hip.
  rewrite (foldl_happen_count limit evs ∅ ip);
    rewrite ?lookup_empty; simpl; [|lia|lia|done].
  pose proof (requestsFrom_nonneg ip evs) as Hnn.
  rewrite wrap64_id by (unfold inInt64, minInt64, maxInt64 in *; lia).
  destruct (Z.ltb_spec limit (requestsFrom ip evs + 1));
    destruct (Z.ltb_spec (requestsFrom ip evs) limit); simpl; (done || lia).
Qed.

Lemma RateLimit_counts_forever_witness :
  let evs := [Request "10.0.0.1:5000" 0 0;
              Request "10.0.0.1:5001" (50 * Second) (50 * Second);
              Cleanup (60 * Second);
              Request "10.0.0.2:5000" (70 * Second) (70 * Second);
              Request "10.0.0.1:5002" (100 * Second) (100 * Second);
              Cleanup (120 * Second)] in
  let t := 150 * Second in
  (RateLimit_serve 3 (foldl (happen 3) ∅ evs) "10.0.0.1:5003" t t).2 = false
  ∧ (RateLimit_serve 4 (foldl (happen 4) ∅ evs) "10.0.0.1:5003" t t).2 = true.
Proof.
  intros evs t. split.
  - apply (RateLimit_counts_forever 3 "10.0.0.1" "10.0.0.1:5003" evs t t);
      [reflexivity|reflexivity|vm_compute; reflexivity].
  - apply (RateLimit_counts_forever 4 "10.0.0.1" "10.0.0.1:5003" evs t t);
      [reflexivity|reflexivity|vm_compute; reflexivity].
Defined.

(** *** The request counter *)

Lemma Itoa_inj (a b : Z) : inInt64 a -> inInt64 b -> Itoa a = Itoa b -> a = b.
Proof.
  intros Ha Hb Heq. apply Sscanf_d_Itoa in Ha, Hb. rewrite Heq in Ha. congruence.
Qed.

Lemma RequestID_counter (k : nat) :
  Z.of_nat k <= maxInt64 ->
  Nat.iter k (λ requestID, (RequestID_serve requestID).1) 0 = Z.of_nat k.
Proof.
  induction k as [|k IH]; intros Hk; [done|]. rewrite Nat.iter_succ, IH by lia.
  unfold RequestID_serve. simpl fst.
  rewrite wrap64_id by (unfold inInt64, minInt64, maxInt64 in *; lia). lia.
Qed.

(** X23.  [RequestID] numbers the requests from one: the request that
    comes after [k] others gets the decimal text of [k + 1] as its
    [X-Request-ID], and no two of the first [2^63 - 1] requests get the
    same one. *)
Theorem RequestID_unique (i j : nat) :
  Z.of_nat i < maxInt64 -> Z.of_nat j < maxInt64 ->
  nthRequestID i = Itoa (Z.of_nat i + 1)
  ∧ (nthRequestID i = nthRequestID j -> i = j).
Proof.
  intros Hi Hj.
  assert (∀ k, Z.of_nat k < maxInt64 -> nthRequestID k = Itoa (Z.of_nat k + 1))
    as Hid.
  { intros k Hk. unfold nthRequestID. rewrite RequestID_counter by lia.
    unfold RequestID_serve. simpl snd.
    by rewrite wrap64_id by (unfold inInt64, minInt64, maxInt64 in *; lia). }
  split; [by apply Hid|].
  rewrite !Hid by done. intros Heq.
  apply Itoa_inj in Heq; [lia|unfold inInt64, minInt64, maxInt64 in *; lia..].
Qed.

Lemma RequestID_unique_witness :
  nthRequestID 41 = Itoa (Z.of_nat 41 + 1)
  ∧ (nthRequestID 41 = nthRequestID 7 -> 41%nat = 7%nat).
Proof.
  apply (RequestID_unique 41 7); vm_compute; reflexivity.
Defined.

End rate_limit.
